(** * sdformat: the Element accessor, the sensor type table and the
      URDF-to-SDF converter with its fixed-joint reduction.

    Shallow embedding of
      - [include/sdf/SDF.hh]   ([Element::Get]),
      - [src/Sensor.cc]        ([Sensor::SetType], [Sensor::TypeStr]),
      - the URDF converter     ([ParseVector3], [Reduce*ToParent],
                                [ReduceFixedJoints], [CreateSDF],
                                [URDF2SDF::InitModelString], ...).

    Conventions.  C++ [double] is an abstract scalar type [D] with the
    operations the code uses; objects reached through [shared_ptr] or raw
    pointers live in arenas (lists) and a pointer is an index; a null or
    dangling dereference and an out-of-range [operator[]] are reported as
    an explicit failure instead of being given a made-up value. *)

From Stdlib Require Import ZArith Reals Lra Ascii.
From stdpp Require Import base tactics option list strings pretty.

Set Warnings "-register-all".

Local Open Scope string_scope.
Local Open Scope list_scope.

(** The line feed that ends a log line. *)
Definition nl : string := String (Ascii.ascii_of_nat 10) EmptyString.

(* ===================================================================== *)
(** ** Sensor.cc *)
(* ===================================================================== *)

Module Sensor.

(** Sensor type strings, in the order of [enum class SensorType]. *)
Definition sensorTypeStrs : list string :=
  [ "none"; "altimeter"; "camera"; "contact"; "depth_camera";
    "force_torque"; "gps"; "gpu_lidar"; "imu"; "logical_camera";
    "magnetometer"; "multicamera"; "lidar"; "rfid"; "rfidtag"; "sonar";
    "wireless_receiver"; "wireless_transmitter"; "air_pressure" ].

(** [enum class SensorType] is declared in Sensor.hh; this file only
    converts it from and to its integer value ([static_cast]), so the
    enumeration is represented by that value. *)
Definition SensorType := nat.

(** The fields of [SensorPrivate] that are plain values. *)
Record SensorPrivate := mkSensorPrivate {
  type : SensorType;
  name : string;
  topic : string;
  poseFrame : string
}.

Definition set_type (t : SensorType) (d : SensorPrivate) : SensorPrivate :=
  {| type := t; name := name d; topic := topic d; poseFrame := poseFrame d |}.

(** The body of the [for] loop of [Sensor::SetType(const std::string &)],
    started at index [i] on the remaining strings. *)
Fixpoint SetType_from (strs : list string) (i : nat) (_typeStr : string)
    (d : SensorPrivate) : bool * SensorPrivate :=
  match strs with
  | [] => (false, d)
  | x :: rest =>
      if String.eqb _typeStr x then (true, set_type i d)
      else SetType_from rest (S i) _typeStr d
  end.

Definition SetType (_typeStr : string) (d : SensorPrivate)
    : bool * SensorPrivate :=
  SetType_from sensorTypeStrs 0 _typeStr d.

Definition TypeStr (d : SensorPrivate) : string :=
  let index := type d in
  if (0 <? index)%nat && (index <? length sensorTypeStrs)%nat
  then nth index sensorTypeStrs "none"
  else "none".

End Sensor.

(* ===================================================================== *)
(** ** The log, and calls that do not return *)
(* ===================================================================== *)

(** The diagnostic sink ([sdferr], [sdfwarn], [sdfdbg]): the messages
    written so far, oldest first. *)
Inductive LogMsg :=
| sdferr (msg : string)
| sdfwarn (msg : string)
| sdfdbg (msg : string).

(** What a call comes to when it does not return normally. *)
Inductive Failure :=
| NullDeref          (* a null pointer is dereferenced *)
| OutOfRange         (* operator[] past the end of a vector *)
| InvalidatedIterator (* a container grows while it is iterated *)
| Diverges           (* a loop that does not end *)
| bad_lexical_cast.  (* the boost exception, not caught *)

Inductive Result (A : Type) :=
| Ok (a : A)
| Fail (f : Failure).
Arguments Ok {A} a.
Arguments Fail {A} f.

(* ===================================================================== *)
(** ** SDF.hh: Element::Get *)
(* ===================================================================== *)

Module Element.

(** Modelled from the spec: class [Param] (sdf/Param.hh is missing):
    a named value cell with a text default and a text current value. *)
Record Param := mkParam {
  key : string;
  typeName : string;
  defaultValueAsText : string;
  currentValueAsText : string;
  required : bool;
  isSet : bool;
  description : string
}.

(** The data members of [Element] that [Get] reads. *)
Inductive Element :=
  mkElement (name : string) (attributes : list Param) (value : option Param)
            (elements : list Element) (elementDescriptions : list Element).

Definition name (e : Element) : string :=
  match e with mkElement n _ _ _ _ => n end.
Definition attributes (e : Element) : list Param :=
  match e with mkElement _ a _ _ _ => a end.
Definition value (e : Element) : option Param :=
  match e with mkElement _ _ v _ _ => v end.
Definition elements (e : Element) : list Element :=
  match e with mkElement _ _ _ c _ => c end.
Definition elementDescriptions (e : Element) : list Element :=
  match e with mkElement _ _ _ _ d => d end.

(** Modelled from the spec: [Element::GetAttribute(key)], "linear lookup
    by key; null if absent". *)
Definition GetAttribute (e : Element) (_key : string) : option Param :=
  find (fun p => String.eqb (key p) _key) (attributes e).

(** Modelled from the spec: [Element::HasElement(name)], "true if at
    least one instance child with that name exists". *)
Definition HasElement (e : Element) (_name : string) : bool :=
  existsb (fun c => String.eqb (name c) _name) (elements e).

(** Modelled from the spec: [Element::GetElementImpl(name)], the "first
    matching instance child", null if there is none. *)
Definition GetElementImpl (e : Element) (_name : string) : option Element :=
  find (fun c => String.eqb (name c) _name) (elements e).

(** Modelled from the spec: [Element::HasElementDescription(name)],
    "true if an element description exists". *)
Definition HasElementDescription (e : Element) (_name : string) : bool :=
  existsb (fun c => String.eqb (name c) _name) (elementDescriptions e).

(** Modelled from the spec: [Element::GetElementDescription(key)],
    "first match on name among registered descriptions". *)
Definition GetElementDescription (e : Element) (_key : string)
    : option Element :=
  find (fun c => String.eqb (name c) _key) (elementDescriptions e).

Section Get.
  (** The template parameter [T], its value-initialisation [T()] and
      its decoder from text. *)
Variable T : Type.
Variable T_default : T.
Variable lexical_cast : string -> option T.

  (** Modelled from the spec: [Param::Get<T>(T &)] decodes the current
      text into the reference; on a decode failure it returns false
      and leaves the reference as it was. *)
Definition Param_Get (p : Param) (result : T) : bool * T :=
    match lexical_cast (currentValueAsText p) with
    | Some v => (true, v)
    | None => (false, result)
    end.

  (** [Get<T>()] called with the default (empty) key: the first branch
      of [Get], or the plain [return result]. *)
Definition Get_no_key (e : Element) : T :=
    let result := T_default in
    match value e with
    | Some v => snd (Param_Get v result)
    | None => result
    end.

  (** [Element::Get<T>(const std::string &_key)]: the value and the
      messages written to [sdferr].  The two inner calls [->Get<T>()]
      use the empty key, hence are [Get_no_key]. *)
Definition Get (e : Element) (_key : string) : Result T * list LogMsg :=
    let result := T_default in
    match String.eqb _key "", value e with
    | true, Some v => (Ok (snd (Param_Get v result)), [])
    | true, None => (Ok result, [])
    | false, _ =>
        match GetAttribute e _key with
        | Some param => (Ok (snd (Param_Get param result)), [])
        | None =>
            if HasElement e _key then
              match GetElementImpl e _key with
              | Some c => (Ok (Get_no_key c), [])
              | None => (Fail NullDeref, [])
              end
            else if HasElementDescription e _key then
              match GetElementDescription e _key with
              | Some c => (Ok (Get_no_key c), [])
              | None => (Fail NullDeref, [])
              end
            else
              (Ok result,
               [sdferr ("Unable to find value for key[" +:+ _key +:+ "]"
                        +:+ nl)])
        end
    end.
End Get.

Section SetValue.
  (** The template parameter [T] and its encoder to text
      ([boost::lexical_cast<std::string>]). *)
Variable T : Type.
Variable to_text : T -> string.

  (** Modelled from the spec: [Param::Set<T>(v)] "encodes v to text,
      marks isSet = true"; it always succeeds. *)
Definition Param_Set (p : Param) (_value : T) : Param :=
    mkParam (key p) (typeName p) (defaultValueAsText p) (to_text _value)
            (required p) true (description p).

  (** [Element::Set<T>(const T &_value)]: the value returned and the
      element after the call. *)
Definition Set_ (e : Element) (_value : T) : bool * Element :=
    match value e with
    | Some v =>
        (true, mkElement (name e) (attributes e) (Some (Param_Set v _value))
                         (elements e) (elementDescriptions e))
    | None => (false, e)
    end.
End SetValue.

(** [x] is the first entry of [l] named [k]; no entry of [l] is named
  [k]. *)
Definition first_named {A : Type} (nm : A -> string) (k : string)
  (l : list A) (x : A) : Prop :=
exists l1 l2, l = l1 ++ x :: l2 /\ nm x = k /\ Forall (fun y => nm y <> k) l1.

Definition none_named {A : Type} (nm : A -> string) (k : string)
  (l : list A) : Prop :=
Forall (fun y => nm y <> k) l.

End Element.

(* ===================================================================== *)
(** ** The URDF converter: numbers, poses, XML *)
(* ===================================================================== *)

(** C++ [double] with the operations the converter applies to it.
    [sdf_equal] is [sdf::equal(a, b)] of sdf/Types.hh with its default
    tolerance. *)
Class Double (D : Type) := {
  d0 : D;
  d1 : D;
  d2 : D;
  dadd : D -> D -> D;
  dsub : D -> D -> D;
  dmul : D -> D -> D;
  sdf_equal : D -> D -> bool
}.

(** [boost::lexical_cast<double>]: [None] stands for the exception
    [boost::bad_lexical_cast]. *)
Class LexicalCast (D : Type) := {
  lexical_cast_double : string -> option D
}.

Module urdf.
Record Vector3 (D : Type) := mkVector3 { x : D; y : D; z : D }.
Record Rotation (D : Type) := mkRotation { rx : D; ry : D; rz : D; rw : D }.
Record Pose (D : Type) := mkPose {
    position : Vector3 D;
    rotation : Rotation D
  }.
Arguments mkVector3 {D}.
Arguments x {D}.
Arguments y {D}.
Arguments z {D}.
Arguments mkRotation {D}.
Arguments rx {D}.
Arguments ry {D}.
Arguments rz {D}.
Arguments rw {D}.
Arguments mkPose {D}.
Arguments position {D}.
Arguments rotation {D}.
End urdf.

Module sdf.
Record Vector3 (D : Type) := mkVector3 { x : D; y : D; z : D }.
Record Quaternion (D : Type) := mkQuaternion { qw : D; qx : D; qy : D; qz : D }.
Record Pose (D : Type) := mkPose { pos : Vector3 D; rot : Quaternion D }.
Arguments mkVector3 {D}.
Arguments x {D}.
Arguments y {D}.
Arguments z {D}.
Arguments mkQuaternion {D}.
Arguments qw {D}.
Arguments qx {D}.
Arguments qy {D}.
Arguments qz {D}.
Arguments mkPose {D}.
Arguments pos {D}.
Arguments rot {D}.

Section Ops.
Context {D : Type} {Dbl : Double D}.

    (** Modelled from the spec: the operators of sdf/Types.hh (missing)
        that [TransformToParentFrame] uses, as the usual quaternion
        algebra: vector sum, cross product, the Hamilton product, and the
        rotation of a vector by a quaternion
        [v + 2w (q x v) + 2 (q x (q x v))]. *)
Definition Vector3_add (a b : Vector3 D) : Vector3 D :=
      mkVector3 (dadd (x a) (x b)) (dadd (y a) (y b)) (dadd (z a) (z b)).

Definition Vector3_scale (a : Vector3 D) (t : D) : Vector3 D :=
      mkVector3 (dmul (x a) t) (dmul (y a) t) (dmul (z a) t).

Definition Vector3_Cross (a b : Vector3 D) : Vector3 D :=
      mkVector3 (dsub (dmul (y a) (z b)) (dmul (z a) (y b)))
                (dsub (dmul (z a) (x b)) (dmul (x a) (z b)))
                (dsub (dmul (x a) (y b)) (dmul (y a) (x b))).

Definition Quaternion_mul (a b : Quaternion D) : Quaternion D :=
      mkQuaternion
        (dsub (dsub (dsub (dmul (qw a) (qw b)) (dmul (qx a) (qx b)))
                    (dmul (qy a) (qy b))) (dmul (qz a) (qz b)))
        (dsub (dadd (dadd (dmul (qw a) (qx b)) (dmul (qx a) (qw b)))
                    (dmul (qy a) (qz b))) (dmul (qz a) (qy b)))
        (dadd (dadd (dsub (dmul (qw a) (qy b)) (dmul (qx a) (qz b)))
                    (dmul (qy a) (qw b))) (dmul (qz a) (qx b)))
        (dadd (dsub (dadd (dmul (qw a) (qz b)) (dmul (qx a) (qy b)))
                    (dmul (qy a) (qx b))) (dmul (qz a) (qw b))).

Definition Quaternion_mul_Vector3 (q : Quaternion D) (v : Vector3 D)
        : Vector3 D :=
      let qvec := mkVector3 (qx q) (qy q) (qz q) in
      let uv := Vector3_Cross qvec v in
      let uuv := Vector3_Cross qvec uv in
      let uv := Vector3_scale uv (dmul d2 (qw q)) in
      let uuv := Vector3_scale uuv d2 in
      Vector3_add (Vector3_add v uv) uuv.

    (** Modelled from the spec: the default [sdf::Pose]: no translation,
        the identity rotation. *)
Definition Pose_default : Pose D :=
      mkPose (mkVector3 d0 d0 d0) (mkQuaternion d1 d0 d0 d0).
End Ops.
End sdf.

(** TinyXML nodes, as far as the converter looks at them: an element has
    a tag (its [Value()]), attributes and child nodes; a text node has its
    text (its [Value()]). *)
Inductive TiXmlNode :=
| TiXmlElement (value : string) (attributes : list (string * string))
               (children : list TiXmlNode)
| TiXmlText (value : string).

Definition Value (n : TiXmlNode) : string :=
  match n with TiXmlElement v _ _ => v | TiXmlText v => v end.

(* ===================================================================== *)
(** ** The URDF converter: the link graph and the side-table *)
(* ===================================================================== *)

(** [std::map<std::string, V>]: an association list kept in key order.
    [map_find] is [find] (the entry or [end()]), [map_insert] is [insert]
    (an existing entry is kept), [map_set] writes through the iterator or
    shared pointer of an entry. *)
Fixpoint map_find {V : Type} (k : string) (m : list (string * V)) : option V :=
  match m with
  | [] => None
  | (k', v) :: rest => if String.eqb k' k then Some v else map_find k rest
  end.

Fixpoint map_insert {V : Type} (k : string) (v : V) (m : list (string * V))
    : list (string * V) :=
  match m with
  | [] => [(k, v)]
  | (k', v') :: rest =>
      if String.eqb k' k then m
      else if String.ltb k k' then (k, v) :: m
      else (k', v') :: map_insert k v rest
  end.

Fixpoint map_set {V : Type} (k : string) (v : V) (m : list (string * V))
    : list (string * V) :=
  match m with
  | [] => []
  | (k', v') :: rest =>
      if String.eqb k' k then (k', v) :: rest
      else (k', v') :: map_set k v rest
  end.

(** [urdf::Joint::type]. *)
Inductive JointType :=
| UNKNOWN | REVOLUTE | CONTINUOUS | PRISMATIC | FLOATING | PLANAR | FIXED.

Definition JointType_eqb (a b : JointType) : bool :=
  match a, b with
  | UNKNOWN, UNKNOWN | REVOLUTE, REVOLUTE | CONTINUOUS, CONTINUOUS
  | PRISMATIC, PRISMATIC | FLOATING, FLOATING | PLANAR, PLANAR
  | FIXED, FIXED => true
  | _, _ => false
  end.

(** Pointers are indices into the arenas of [State]. *)
Abbreviation LinkPtr := nat (only parsing).
Abbreviation GeomPtr := nat (only parsing).
Abbreviation ExtPtr := nat (only parsing).

(** [child_links] never changes during a conversion: the tree of links is
    the skeleton the recursive passes walk, and each node carries the
    pointer to its link. *)
Inductive LinkTree :=
| Node (link : LinkPtr) (child_links : list LinkTree).

Definition root (t : LinkTree) : LinkPtr :=
  match t with Node l _ => l end.
Definition child_links (t : LinkTree) : list LinkTree :=
  match t with Node _ cs => cs end.

(** The two families of link geometry the reduction lumps. *)
Inductive GeomKind := Visual | Collision.

#[global] Instance GeomKind_eq_dec : EqDecision GeomKind.
Proof. solve_decision. Defined.

(** The names of the optional numbers of an [SDFExtension] (each an
    [isX]/[X] pair of members) and of its flags. *)
Inductive DoubleField :=
| dampingFactor | maxVel | minDepth | mu1 | mu2 | kp | kd | laserRetro
| stopCfm | stopErp | initialJointPosition | fudgeFactor.

Inductive FlagField :=
| setStaticFlag | gravity | selfCollide | provideFeedback | cfmDamping.

(** The calls of the five lumping functions, recorded as they are made
    (a ghost trace: the program keeps no such list). *)
Inductive ReduceFn :=
| SDFExtensionToParent | InertialToParent | VisualsToParent
| CollisionsToParent | JointsToParent.

Section Converter.
Context {D : Type}.

(** [urdf::Joint], as far as the converter reads and writes it. *)
Record Joint := mkJoint {
  joint_name : string;
  joint_type : JointType;
  parent_to_joint_origin_transform : urdf.Pose D;
  parent_link_name : string
}.

(** [urdf::Inertial]: only the mass is tested. *)
Record Inertial := mkInertial { mass : D }.

(** [urdf::Visual] and [urdf::Collision]: the origin is what the
    reduction rewrites. *)
Record Geom := mkGeom { origin : urdf.Pose D }.

(** [urdf::Link].  The parent joint object is stored with the child link
    (its owner through [parent_joint]); the parent's [child_joints] holds
    the joints' names, as the converter only tests that vector for
    emptiness. *)
Record Link := mkLink {
  name : string;
  parent_link : option LinkPtr;
  parent_joint : option Joint;
  child_joints : list string;
  inertial : option Inertial;
  visual_groups : list (string * list GeomPtr);
  collision_groups : list (string * list GeomPtr)
}.

(** [SDFExtension].  The [isX]/[X] pairs are the table [doubles] (a
    present key is a set flag), the boolean members the table [flags]. *)
Record SDFExtension := mkSDFExtension {
  oldLinkName : string;
  material : string;
  fdir1 : string;
  flags : list (FlagField * bool);
  doubles : list (DoubleField * D);
  blobs : list TiXmlNode;
  reductionTransform : sdf.Pose D
}.

(** The objects of one conversion and the globals of the converter. *)
Record State := mkState {
  links : list Link;
  visuals : list Geom;
  collisions : list Geom;
  extensions : list SDFExtension;
  g_extensions : list (string * list ExtPtr);
  g_reduceFixedJoints : bool;
  g_enforceLimits : bool;
  log : list LogMsg;
  calls : list (ReduceFn * LinkPtr)
}.

Definition set_links (v : list Link) (s : State) : State :=
  mkState v (visuals s) (collisions s) (extensions s) (g_extensions s)
          (g_reduceFixedJoints s) (g_enforceLimits s) (log s) (calls s).
Definition set_visuals (v : list Geom) (s : State) : State :=
  mkState (links s) v (collisions s) (extensions s) (g_extensions s)
          (g_reduceFixedJoints s) (g_enforceLimits s) (log s) (calls s).
Definition set_collisions (v : list Geom) (s : State) : State :=
  mkState (links s) (visuals s) v (extensions s) (g_extensions s)
          (g_reduceFixedJoints s) (g_enforceLimits s) (log s) (calls s).
Definition set_extensions (v : list SDFExtension) (s : State) : State :=
  mkState (links s) (visuals s) (collisions s) v (g_extensions s)
          (g_reduceFixedJoints s) (g_enforceLimits s) (log s) (calls s).
Definition set_g_extensions (v : list (string * list ExtPtr)) (s : State)
    : State :=
  mkState (links s) (visuals s) (collisions s) (extensions s) v
          (g_reduceFixedJoints s) (g_enforceLimits s) (log s) (calls s).
Definition set_g_enforceLimits (v : bool) (s : State) : State :=
  mkState (links s) (visuals s) (collisions s) (extensions s) (g_extensions s)
          (g_reduceFixedJoints s) v (log s) (calls s).
Definition set_log (v : list LogMsg) (s : State) : State :=
  mkState (links s) (visuals s) (collisions s) (extensions s) (g_extensions s)
          (g_reduceFixedJoints s) (g_enforceLimits s) v (calls s).
Definition set_calls (v : list (ReduceFn * LinkPtr)) (s : State) : State :=
  mkState (links s) (visuals s) (collisions s) (extensions s) (g_extensions s)
          (g_reduceFixedJoints s) (g_enforceLimits s) (log s) v.

(** Statements run on the state and may fail. *)
Definition M (A : Type) : Type := State -> Result (A * State).

Definition ret {A : Type} (a : A) : M A := fun s => Ok (a, s).
Definition bind {A B : Type} (m : M A) (f : A -> M B) : M B :=
  fun s => match m s with
           | Ok (a, s') => f a s'
           | Fail e => Fail e
           end.
Definition fail {A : Type} (e : Failure) : M A := fun _ => Fail e.
Definition gets {A : Type} (f : State -> A) : M A := fun s => Ok (f s, s).
Definition modify (f : State -> State) : M unit := fun s => Ok (tt, f s).

(** [*p] for a pointer that may be null. *)
Definition deref {A : Type} (p : option A) : M A :=
  match p with Some a => ret a | None => fail NullDeref end.

End Converter.

Arguments Joint D : clear implicits.
Arguments Inertial D : clear implicits.
Arguments Geom D : clear implicits.
Arguments Link D : clear implicits.
Arguments SDFExtension D : clear implicits.
Arguments State D : clear implicits.
Arguments M D A : clear implicits.

Declare Scope conv_scope.
Delimit Scope conv_scope with conv.
Notation "'do' x <- m ; k" := (bind m (fun x => k))
  (at level 10, x name, m at level 100, k at level 200) : conv_scope.
Notation "'run' m ; k" := (bind m (fun _ => k))
  (at level 10, m at level 100, k at level 200) : conv_scope.
Local Open Scope conv_scope.

(** A [for] loop over a vector or a map, run for its effects. *)
Definition forM_ {D A : Type} (f : A -> M D unit) : list A -> M D unit :=
  fix go (xs : list A) : M D unit :=
    match xs with
    | [] => ret tt
    | x :: rest => run f x; go rest
    end.

(** [boost::split(pieces, str, boost::is_any_of(" "))]: the pieces between
    the spaces, empty pieces kept. *)
Fixpoint split_spaces (str : string) : list string :=
  match str with
  | EmptyString => [EmptyString]
  | String c rest =>
      if Ascii.eqb c " "%char then EmptyString :: split_spaces rest
      else match split_spaces rest with
           | p :: ps => String c p :: ps
           | [] => [String c EmptyString]
           end
  end.

Section Parse.
Context {D : Type} {Dbl : Double D} {Lex : LexicalCast D}.

(** The [for] loop of [ParseVector3] from piece [i] on: the values pushed
    to [vals], or the error message of the first piece that is no number. *)
Fixpoint ParseVector3_loop (str : string) (_scale : D) (pieces : list string)
    (i : nat) (vals : list D) : list D + LogMsg :=
  match pieces with
  | [] => inl vals
  | piece :: rest =>
      if negb (String.eqb piece "") then
        match lexical_cast_double piece with
        | Some v =>
            ParseVector3_loop str _scale rest (S i)
                              (vals ++ [dmul _scale v])
        | None =>
            inr (sdferr ("xml key [" +:+ str +:+ "][" +:+ pretty i
                         +:+ "] value [" +:+ piece
                         +:+ "] is not a valid double from a 3-tuple" +:+ nl))
        end
      else ParseVector3_loop str _scale rest (S i) vals
  end.

(** [vals[i]] on a [std::vector]. *)
Definition vector_at {A : Type} (vals : list A) (i : nat) : Result A :=
  match vals !! i with
  | Some v => Ok v
  | None => Fail OutOfRange
  end.

(** [urdf::Vector3 ParseVector3(TiXmlNode* _key, double _scale)]: the
    messages written and the value returned. *)
Definition ParseVector3 (_key : option TiXmlNode) (_scale : D)
    : list LogMsg * Result (urdf.Vector3 D) :=
  match _key with
  | Some key =>
      let str := Value key in
      let pieces := split_spaces str in
      match ParseVector3_loop str _scale pieces 0 [] with
      | inr msg => ([msg], Ok (urdf.mkVector3 d0 d0 d0))
      | inl vals =>
          ([], match vector_at vals 0, vector_at vals 1, vector_at vals 3 with
               | Ok a, Ok b, Ok c => Ok (urdf.mkVector3 a b c)
               | Fail e, _, _ | _, Fail e, _ | _, _, Fail e => Fail e
               end)
      end
  | None => ([], Ok (urdf.mkVector3 d0 d0 d0))
  end.

(** The two [CopyPose] overloads. *)
Definition CopyPose (_pose : urdf.Pose D) : sdf.Pose D :=
  sdf.mkPose
    (sdf.mkVector3 (urdf.x (urdf.position _pose)) (urdf.y (urdf.position _pose))
                   (urdf.z (urdf.position _pose)))
    (sdf.mkQuaternion (urdf.rw (urdf.rotation _pose))
                      (urdf.rx (urdf.rotation _pose))
                      (urdf.ry (urdf.rotation _pose))
                      (urdf.rz (urdf.rotation _pose))).

Definition CopyPose_to_urdf (_pose : sdf.Pose D) : urdf.Pose D :=
  urdf.mkPose
    (urdf.mkVector3 (sdf.x (sdf.pos _pose)) (sdf.y (sdf.pos _pose))
                    (sdf.z (sdf.pos _pose)))
    (urdf.mkRotation (sdf.qx (sdf.rot _pose)) (sdf.qy (sdf.rot _pose))
                     (sdf.qz (sdf.rot _pose)) (sdf.qw (sdf.rot _pose))).

(** [sdf::Pose TransformToParentFrame(sdf::Pose, sdf::Pose)]: the two
    assignments to [pos] are kept in their order. *)
Definition TransformToParentFrame (_transformInLinkFrame : sdf.Pose D)
    (_parentToLinkTransform : sdf.Pose D) : sdf.Pose D :=
  let pos1 := sdf.Quaternion_mul_Vector3 (sdf.rot _parentToLinkTransform)
                                         (sdf.pos _transformInLinkFrame) in
  let rot1 := sdf.Quaternion_mul (sdf.rot _parentToLinkTransform)
                                 (sdf.rot _transformInLinkFrame) in
  let pos2 := sdf.Vector3_add (sdf.pos _parentToLinkTransform) pos1 in
  sdf.mkPose pos2 rot1.

(** [sdf::Pose TransformToParentFrame(sdf::Pose, urdf::Pose)]. *)
Definition TransformToParentFrame_su (_transformInLinkFrame : sdf.Pose D)
    (_parentToLinkTransform : urdf.Pose D) : sdf.Pose D :=
  let p2 := CopyPose _parentToLinkTransform in
  TransformToParentFrame _transformInLinkFrame p2.

(** [urdf::Pose TransformToParentFrame(urdf::Pose, urdf::Pose)]. *)
Definition TransformToParentFrame_uu (_transformInLinkFrame : urdf.Pose D)
    (_parentToLinkTransform : urdf.Pose D) : urdf.Pose D :=
  let p1 := CopyPose _transformInLinkFrame in
  let p2 := CopyPose _parentToLinkTransform in
  CopyPose_to_urdf (TransformToParentFrame p1 p2).

End Parse.

(* ===================================================================== *)
(** ** The URDF converter: fixed joint reduction *)
(* ===================================================================== *)

(** The rewriting of one opaque blob of an extension.  The bodies build
    XML text from printed numbers and Euler angles; the reduction only
    passes blobs through them.
    - [blob_TransformReduction t b]:
      [ReduceSDFExtensionSensorTransformReduction] then
      [ReduceSDFExtensionProjectorTransformReduction] on the blob;
    - [blob_FrameReplace linkName newLinkName joint t b]: the six
      [Reduce...FrameReplace] calls of the loop body of
      [ReduceSDFExtensionFrameReplace], with the messages they write. *)
Class BlobRewriting (D : Type) := {
  blob_TransformReduction : sdf.Pose D -> TiXmlNode -> TiXmlNode;
  blob_FrameReplace :
    string -> string -> option (Joint D) -> sdf.Pose D -> TiXmlNode ->
    Result (TiXmlNode * list LogMsg)
}.

Section Reduce.
Context {D : Type} {Dbl : Double D} {Blob : BlobRewriting D}.

Definition get_link (l : LinkPtr) : M D (Link D) :=
  do ls <- gets links; deref (ls !! l).

Definition put_link (l : LinkPtr) (lk : Link D) : M D unit :=
  modify (fun s => set_links (<[l := lk]> (links s)) s).

Definition groups (k : GeomKind) (lk : Link D) : list (string * list GeomPtr) :=
  match k with
  | Visual => visual_groups lk
  | Collision => collision_groups lk
  end.

Definition set_groups (k : GeomKind) (g : list (string * list GeomPtr))
    (lk : Link D) : Link D :=
  match k with
  | Visual =>
      mkLink (name lk) (parent_link lk) (parent_joint lk) (child_joints lk)
             (inertial lk) g (collision_groups lk)
  | Collision =>
      mkLink (name lk) (parent_link lk) (parent_joint lk) (child_joints lk)
             (inertial lk) (visual_groups lk) g
  end.

Definition set_parent (p : option LinkPtr) (j : option (Joint D))
    (lk : Link D) : Link D :=
  mkLink (name lk) p j (child_joints lk) (inertial lk) (visual_groups lk)
         (collision_groups lk).

Definition geoms (k : GeomKind) (s : State D) : list (Geom D) :=
  match k with
  | Visual => visuals s
  | Collision => collisions s
  end.

Definition set_geoms (k : GeomKind) (v : list (Geom D)) (s : State D)
    : State D :=
  match k with
  | Visual => set_visuals v s
  | Collision => set_collisions v s
  end.

Definition get_geom (k : GeomKind) (g : GeomPtr) : M D (Geom D) :=
  do gs <- gets (geoms k); deref (gs !! g).

Definition put_geom (k : GeomKind) (g : GeomPtr) (v : Geom D) : M D unit :=
  modify (fun s => set_geoms k (<[g := v]> (geoms k s)) s).

Definition write_log (m : LogMsg) : M D unit :=
  modify (fun s => set_log (log s ++ [m]) s).

Definition called (f : ReduceFn) (l : LinkPtr) : M D unit :=
  modify (fun s => set_calls (calls s ++ [(f, l)]) s).

Definition kind_word (k : GeomKind) : string :=
  match k with Visual => "visual" | Collision => "collision" end.

(** [std::find] on a vector of shared pointers: pointer equality. *)
Definition vector_has (g : GeomPtr) (v : list GeomPtr) : bool :=
  existsb (Nat.eqb g) v.

(** [ReduceVisualToParent] and [ReduceCollisionToParent]: one text, with
    [visual_groups]/[getVisuals]/"visual" in the first and
    [collision_groups]/[getCollisions]/"collision" in the second. *)
Definition ReduceGeomToParent (k : GeomKind) (_link : LinkPtr)
    (_groupName : string) (_geom : GeomPtr) : M D unit :=
  do lk <- get_link _link;
  let found := map_find _groupName (groups k lk) in
  run match found with
      | None =>
          (* group does not exist, create one and add to map *)
          put_link _link
            (set_groups k (map_insert _groupName [] (groups k lk)) lk)
      | Some _ => ret tt
      end;
  let cols := default [] found in
  if vector_has _geom cols then
    write_log (sdfwarn ("attempted to add " +:+ kind_word k +:+ " to link ["
                        +:+ name lk
                        +:+ "], but it already exists under group ["
                        +:+ _groupName +:+ "]" +:+ nl))
  else
    do lk1 <- get_link _link;
    put_link _link
      (set_groups k (map_set _groupName (cols ++ [_geom]) (groups k lk1)) lk1).

Definition ReduceVisualToParent := ReduceGeomToParent Visual.
Definition ReduceCollisionToParent := ReduceGeomToParent Collision.

(** [ReduceInertialToParent]: the body is commented out in the source. *)
Definition ReduceInertialToParent (_link : LinkPtr) : M D unit :=
  called InertialToParent _link.

(** The body of the inner [for] loops of [ReduceVisualsToParent] and
    [ReduceCollisionsToParent] (the same in both branches of the [if]):
    move the origin to the parent frame, then add to the parent.  A link
    that is its own parent would have its own groups grow while they are
    iterated. *)
Definition lump_geom (k : GeomKind) (_link : LinkPtr) (lumpGroupName : string)
    (it : GeomPtr) : M D unit :=
  do g <- get_geom k it;
  do lk <- get_link _link;
  do j <- deref (parent_joint lk);
  run put_geom k it
        (mkGeom (TransformToParentFrame_uu
                   (origin g) (parent_to_joint_origin_transform j)));
  do p <- deref (parent_link lk);
  if Nat.eqb p _link then fail InvalidatedIterator
  else ReduceGeomToParent k p lumpGroupName it.

(** [ReduceVisualsToParent] and [ReduceCollisionsToParent]. *)
Definition ReduceGeomsToParent (k : GeomKind) (_link : LinkPtr) : M D unit :=
  run called (match k with
              | Visual => VisualsToParent
              | Collision => CollisionsToParent
              end) _link;
  do lk <- get_link _link;
  forM_ (fun entry : string * list GeomPtr =>
           if String.prefix "lump::" (fst entry) then
             (* a previously lumped mesh, re-lump under same group name *)
             let lumpGroupName := fst entry in
             forM_ (lump_geom k _link lumpGroupName) (snd entry)
           else
             (* default and any other groups meshes *)
             let lumpGroupName := "lump::" +:+ name lk in
             forM_ (lump_geom k _link lumpGroupName) (snd entry))
        (groups k lk).

Definition ReduceVisualsToParent := ReduceGeomsToParent Visual.
Definition ReduceCollisionsToParent := ReduceGeomsToParent Collision.

(** The group name under which [ReduceVisualsToParent] and
    [ReduceCollisionsToParent] add the items of the group [g] of a link
    named [linkName]: the [lumpGroupName] of the two branches. *)
Definition lumpGroupName_of (linkName g : string) : string :=
  if String.prefix "lump::" g then g else "lump::" +:+ linkName.

(** The list of a group of a link, empty when the link has no such
    group. *)
Definition group_items (k : GeomKind) (lk : Link D) (g : string)
    : list GeomPtr :=
  default [] (map_find g (groups k lk)).

(** How the groups of kind [k] of a parent link change from [pk] to [pk']
    when the (group name, item) pairs [L] are lumped into it: every pair
    is there, nothing is lost, nothing else is new. *)
Definition lumped_into (k : GeomKind) (L : list (string * GeomPtr))
    (pk pk' : Link D) : Prop :=
  name pk' = name pk /\ parent_link pk' = parent_link pk /\
  parent_joint pk' = parent_joint pk /\
  (forall n it, (n, it) ∈ L -> it ∈ group_items k pk' n) /\
  (forall g y, y ∈ group_items k pk g -> y ∈ group_items k pk' g) /\
  (forall g y, y ∈ group_items k pk' g ->
               y ∈ group_items k pk g \/ (g, y) ∈ L).

(** The pairs that lumping the link [lk] adds to its parent. *)
Definition lump_pairs (k : GeomKind) (lk : Link D) : list (string * GeomPtr) :=
  flat_map (fun entry : string * list GeomPtr =>
              map (pair (lumpGroupName_of (name lk) (fst entry))) (snd entry))
           (groups k lk).

(** What the specification says of [ReduceVisualsToParent] and
    [ReduceCollisionsToParent], for one of them, [f], working on the
    groups of kind [k]: run on a link [l] with a parent [p], a parent
    joint and valid item pointers,
    - it returns,
    - every item of a group [g] of [l] is then in the parent's group
      [g] when [g] starts with "lump::", "lump::"+name of [l] otherwise,
    - the parent's groups hold nothing else that they did not hold before,
    - and lumping the parent in turn into its own parent [gp] puts the
      items of [l] under the very same names in [gp]. *)
Definition lumps_groups_to_parent (k : GeomKind) (f : LinkPtr -> M D unit)
    : Prop :=
  forall (s : State D) (l p : LinkPtr) (lk pk : Link D),
    links s !! l = Some lk ->
    parent_link lk = Some p ->
    p <> l ->
    links s !! p = Some pk ->
    is_Some (parent_joint lk) ->
    (forall g items x, (g, items) ∈ groups k lk -> x ∈ items ->
                       is_Some (geoms k s !! x)) ->
    exists s1 pk1,
      f l s = Ok (tt, s1) /\
      links s1 !! p = Some pk1 /\
      (forall g items x,
          (g, items) ∈ groups k lk -> x ∈ items ->
          x ∈ group_items k pk1
                (if String.prefix "lump::" g then g
                 else "lump::" +:+ name lk)) /\
      (forall g' x,
          x ∈ group_items k pk1 g' ->
          x ∈ group_items k pk g' \/
          exists g items,
            (g, items) ∈ groups k lk /\ x ∈ items /\
            g' = if String.prefix "lump::" g then g
                 else "lump::" +:+ name lk) /\
      (forall (gp : LinkPtr) (s2 : State D),
          parent_link pk = Some gp ->
          is_Some (links s !! gp) ->
          f p s1 = Ok (tt, s2) ->
          exists gpk2,
            links s2 !! gp = Some gpk2 /\
            forall g items x,
              (g, items) ∈ groups k lk -> x ∈ items ->
              x ∈ group_items k gpk2
                    (if String.prefix "lump::" g then g
                     else "lump::" +:+ name lk)).

(** What the specification says of [ReduceVisualToParent] and
    [ReduceCollisionToParent], for one of them, [f], working on the
    groups of kind [k]. *)
Definition adds_unless_present (k : GeomKind)
    (f : LinkPtr -> string -> GeomPtr -> M D unit) : Prop :=
  forall (s : State D) (l : LinkPtr) (lk : Link D) (g : string) (x : GeomPtr),
    links s !! l = Some lk ->
    (x ∈ group_items k lk g ->
     f l g x s
     = Ok (tt, set_log
                 (log s ++
                  [sdfwarn ("attempted to add " +:+ kind_word k
                            +:+ " to link [" +:+ name lk
                            +:+ "], but it already exists under group ["
                            +:+ g +:+ "]" +:+ nl)]) s)) /\
    (x ∉ group_items k lk g ->
     exists lk',
       f l g x s = Ok (tt, set_links (<[l := lk']> (links s)) s) /\
       map_find g (groups k lk') = Some (group_items k lk g ++ [x]) /\
       (forall g', g' <> g ->
                   map_find g' (groups k lk') = map_find g' (groups k lk)) /\
       (forall k', k' <> k -> groups k' lk' = groups k' lk) /\
       name lk' = name lk /\ parent_link lk' = parent_link lk /\
       parent_joint lk' = parent_joint lk /\ inertial lk' = inertial lk /\
       child_joints lk' = child_joints lk).

End Reduce.

Section ReduceFixed.
Context {D : Type} {Dbl : Double D} {Blob : BlobRewriting D}.

Definition set_transform (t : urdf.Pose D) (j : Joint D) : Joint D :=
  mkJoint (joint_name j) (joint_type j) t (parent_link_name j).

Definition set_parent_link_name (n : string) (j : Joint D) : Joint D :=
  mkJoint (joint_name j) (joint_type j) (parent_to_joint_origin_transform j) n.

(** The [while] loop of [ReduceJointsToParent]: walk up from
    [newParentLink] while the parent joint is fixed and the parent is not
    "world", folding each transform into the joint of [child].  [fuel]
    bounds the walk by the number of links: a longer walk is one around a
    cycle of parents, which does not end.  The local
    [jointAnchorTransform] of the source is never read and is left out. *)
Fixpoint ReduceJointsToParent_walk (fuel : nat) (child : LinkPtr)
    (newParentLink : LinkPtr) : M D LinkPtr :=
  match fuel with
  | O => fail Diverges
  | S fuel' =>
      do np <- get_link newParentLink;
      match parent_joint np with
      | None => ret newParentLink
      | Some nj =>
          do p <- deref (parent_link np);
          do pk <- get_link p;
          if negb (String.eqb (name pk) "world")
             && JointType_eqb (joint_type nj) FIXED
          then
            do ck <- get_link child;
            do parentJoint <- deref (parent_joint ck);
            run put_link child
                  (set_parent (parent_link ck)
                     (Some (set_transform
                              (TransformToParentFrame_uu
                                 (parent_to_joint_origin_transform parentJoint)
                                 (parent_to_joint_origin_transform nj))
                              parentJoint))
                     ck);
            ReduceJointsToParent_walk fuel' child p
          else ret newParentLink
      end
  end.

(** [ReduceJointsToParent]; [children] are [_link->child_links]. *)
Definition ReduceJointsToParent (_link : LinkPtr) (children : list LinkPtr)
    : M D unit :=
  run called JointsToParent _link;
  forM_ (fun c : LinkPtr =>
           do ck <- get_link c;
           do parentJoint <- deref (parent_joint ck);
           if negb (JointType_eqb (joint_type parentJoint) FIXED) then
             do n <- gets (fun s => length (links s));
             do newParentLink <- ReduceJointsToParent_walk (S n) c _link;
             do np <- get_link newParentLink;
             do ck1 <- get_link c;
             do parentJoint1 <- deref (parent_joint ck1);
             (* setParent(newParentLink), then the joint's parent name *)
             put_link c
               (set_parent (Some newParentLink)
                  (Some (set_parent_link_name (name np) parentJoint1)) ck1)
           else ret tt)
        children.

Definition get_ext (e : ExtPtr) : M D (SDFExtension D) :=
  do es <- gets extensions; deref (es !! e).

Definition put_ext (e : ExtPtr) (v : SDFExtension D) : M D unit :=
  modify (fun s => set_extensions (<[e := v]> (extensions s)) s).

Definition set_reductionTransform (t : sdf.Pose D) (e : SDFExtension D)
    : SDFExtension D :=
  mkSDFExtension (oldLinkName e) (material e) (fdir1 e) (flags e) (doubles e)
                 (blobs e) t.

Definition set_blobs (b : list TiXmlNode) (e : SDFExtension D)
    : SDFExtension D :=
  mkSDFExtension (oldLinkName e) (material e) (fdir1 e) (flags e) (doubles e)
                 b (reductionTransform e).

(** [ReduceSDFExtensionsTransform]: every blob of the extension. *)
Definition ReduceSDFExtensionsTransform (_ge : SDFExtension D)
    : SDFExtension D :=
  set_blobs (map (blob_TransformReduction (reductionTransform _ge)) (blobs _ge))
            _ge.

(** The [for] loop of [ReduceSDFExtensionFrameReplace] over the blobs. *)
Fixpoint FrameReplace_blobs (_link : LinkPtr) (t : sdf.Pose D)
    (bs : list TiXmlNode) : M D (list TiXmlNode) :=
  match bs with
  | [] => ret []
  | b :: rest =>
      do lk <- get_link _link;
      do p <- deref (parent_link lk);
      do pk <- get_link p;
      match blob_FrameReplace (name lk) (name pk) (parent_joint lk) t b with
      | Fail e => fail e
      | Ok (b', msgs) =>
          run modify (fun s => set_log (log s ++ msgs) s);
          do rest' <- FrameReplace_blobs _link t rest;
          ret (b' :: rest')
      end
  end.

Definition ReduceSDFExtensionFrameReplace (_ge : ExtPtr) (_link : LinkPtr)
    : M D unit :=
  do e <- get_ext _ge;
  do bs <- FrameReplace_blobs _link (reductionTransform e) (blobs e);
  do e1 <- get_ext _ge;
  put_ext _ge (set_blobs bs e1).

(** [ReduceSDFExtensionToParent]. *)
Definition ReduceSDFExtensionToParent (_link : LinkPtr) : M D unit :=
  run called SDFExtensionToParent _link;
  do lk <- get_link _link;
  let linkName := name lk in
  do table <- gets g_extensions;
  run match map_find linkName table with
      | Some ext =>
          (* update reduction transform *)
          run forM_ (fun ge : ExtPtr =>
                       do e <- get_ext ge;
                       do j <- deref (parent_joint lk);
                       put_ext ge
                         (ReduceSDFExtensionsTransform
                            (set_reductionTransform
                               (TransformToParentFrame_su
                                  (reductionTransform e)
                                  (parent_to_joint_origin_transform j))
                               e)))
                    ext;
          (* find the existing extension with the new link reference *)
          do p <- deref (parent_link lk);
          do pk <- get_link p;
          let newLinkName := name pk in
          run match map_find newLinkName table with
              | None =>
                  modify (set_g_extensions (map_insert newLinkName [] table))
              | Some _ => ret tt
              end;
          (* move sdf extensions from the link into the parent's *)
          if String.eqb newLinkName linkName then
            match ext with
            | [] => ret tt
            | _ :: _ => fail InvalidatedIterator
            end
          else
            do table1 <- gets g_extensions;
            let newExt := default [] (map_find newLinkName table1) in
            modify (set_g_extensions
                      (map_set linkName []
                         (map_set newLinkName (newExt ++ ext) table1)))
      | None => ret tt
      end;
  (* search and replace link name patterns in every extension *)
  do table2 <- gets g_extensions;
  forM_ (fun entry : string * list ExtPtr =>
           forM_ (fun ge : ExtPtr => ReduceSDFExtensionFrameReplace ge _link)
                 (snd entry))
        table2.

(** The extension records stored under a reference name, none when the
    side-table has no such key. *)
Definition ext_list (s : State D) (ref : string) : list ExtPtr :=
  default [] (map_find ref (g_extensions s)).

(** Every pointer of the side-table points to a record. *)
Definition ext_table_valid (s : State D) : Prop :=
  Forall (fun entry : string * list ExtPtr =>
            Forall (fun e => e < length (extensions s)) (snd entry))
         (g_extensions s).


(** A link whose parent joint is not fixed: the only links whose parent
    pointer the reduction rewrites. *)
Definition movable (lk : Link D) : bool :=
  match parent_joint lk with
  | Some j => negb (JointType_eqb (joint_type j) FIXED)
  | None => false
  end.

(** From [s] to [s'] every link keeps its name and the kind of its parent
    joint, keeps its parent unless it hangs on a joint that is not
    fixed, and keeps every item of its visual and collision groups. *)
Definition same_shape (s s' : State D) : Prop :=
  forall i lk,
    links s !! i = Some lk ->
    exists lk',
      links s' !! i = Some lk' /\ name lk' = name lk /\
      movable lk' = movable lk /\
      (movable lk = false -> parent_link lk' = parent_link lk) /\
      (forall k g x, x ∈ group_items k lk g -> x ∈ group_items k lk' g).

(** The parent of the link [l] is named "world". *)
Definition parent_is_world (s : State D) (l : LinkPtr) : Prop :=
  exists lk p pk,
    links s !! l = Some lk /\ parent_link lk = Some p /\
    links s !! p = Some pk /\ name pk = "world".

(** A link that the test of [ReduceFixedJoints] leaves alone: it hangs on
    a joint that is not fixed, or its parent is named "world". *)
Definition exempt (s : State D) (l : LinkPtr) : Prop :=
  (exists lk, links s !! l = Some lk /\ movable lk = true) \/
  parent_is_world s l.

(** From [s] to [s'] the links are the same objects in the same state and
    no lumping call is recorded. *)
Definition keeps_links (s s' : State D) : Prop :=
  links s' = links s /\ calls s' = calls s.

(** From [s] to [s'] the links keep their shape and the lumping calls
    [made] are recorded, no other. *)
Definition reduces_with (made : list (ReduceFn * LinkPtr)) (s s' : State D)
    : Prop :=
  same_shape s s' /\ calls s' = calls s ++ made.

(** From [s] to [s'] the links keep their shape, and every lumping call
    recorded on the way is on a link that was not exempt. *)
Definition spares_exempt (s s' : State D) : Prop :=
  same_shape s s' /\
  forall c, c ∈ calls s' -> c ∈ calls s \/ ~ exempt s (snd c).

(** The test [child_links[i]->parent_joint->type == urdf::Joint::FIXED]. *)
Definition child_is_fixed (c : LinkPtr) : M D bool :=
  do ck <- get_link c;
  do j <- deref (parent_joint ck);
  ret (JointType_eqb (joint_type j) FIXED).

(** The condition of the [if] of [ReduceFixedJoints]. *)
Definition lumps_to_parent (_link : LinkPtr) : M D bool :=
  do lk <- get_link _link;
  match parent_link lk with
  | None => ret false
  | Some p =>
      do pk <- get_link p;
      ret (negb (String.eqb (name pk) "world")
           && match parent_joint lk with
              | Some j => JointType_eqb (joint_type j) FIXED
              | None => false
              end)
  end.

(** [ReduceFixedJoints]; the unused [_root] argument is left out. *)
Fixpoint ReduceFixedJoints (t : LinkTree) : M D unit :=
  match t with
  | Node _link cs =>
      (* children attached by a fixed joint first *)
      run forM_ (fun c : LinkTree =>
                   do fixed <- child_is_fixed (root c);
                   if fixed then ReduceFixedJoints c else ret tt)
                cs;
      (* reduce this link's stuff up the tree to parent, but skip the
         first joint if it is the world *)
      do lump <- lumps_to_parent _link;
      run (if lump then
             run ReduceSDFExtensionToParent _link;
             run ReduceInertialToParent _link;
             run ReduceVisualsToParent _link;
             run ReduceCollisionsToParent _link;
             ReduceJointsToParent _link (map root cs)
           else ret tt);
      (* continue down the tree for non-fixed joints *)
      forM_ (fun c : LinkTree =>
               do fixed <- child_is_fixed (root c);
               if negb fixed then ReduceFixedJoints c else ret tt)
            cs
  end.

End ReduceFixed.

(* ===================================================================== *)
(** ** The URDF converter: writing the SDF document *)
(* ===================================================================== *)

(** [CreateLink(_root, _link, _currentTransform)] writes the [<link>] and
    [<joint>] elements of one link under [_root] and updates the transform
    it is given by reference.  Its body is XML and number printing; the
    walk of [CreateSDF] only calls it. *)
Class LinkWriter (D : Type) := {
  CreateLink :
    TiXmlNode -> LinkPtr -> sdf.Pose D -> M D (TiXmlNode * sdf.Pose D)
}.

(** The work of the external parsers on a text: [urdf::parseURDF] (null on
    failure, else the model with the objects it allocated) and
    [TiXmlDocument::Parse] (the top-level nodes). *)
Record ModelInterface (D : Type) := mkModelInterface {
  getName : string;
  getRoot : option LinkTree;
  model_links : list (Link D);
  model_visuals : list (Geom D);
  model_collisions : list (Geom D)
}.
Arguments mkModelInterface {D}.
Arguments getName {D}.
Arguments getRoot {D}.
Arguments model_links {D}.
Arguments model_visuals {D}.
Arguments model_collisions {D}.

Class Parsers (D : Type) := {
  parseURDF : string -> option (ModelInterface D);
  TiXmlDocument_Parse : string -> list TiXmlNode
}.

(** TinyXML accessors. *)
Definition is_element (n : TiXmlNode) : bool :=
  match n with TiXmlElement _ _ _ => true | TiXmlText _ => false end.

Definition node_children (n : TiXmlNode) : list TiXmlNode :=
  match n with TiXmlElement _ _ c => c | TiXmlText _ => [] end.

(** [FirstChildElement(name)] on a list of child nodes. *)
Definition FirstChildElement (nodes : list TiXmlNode) (tag : string)
    : option TiXmlNode :=
  find (fun n => is_element n && String.eqb (Value n) tag) nodes.

(** [Attribute(name)]: null when the attribute is absent. *)
Definition Attribute (n : TiXmlNode) (attr : string) : option string :=
  match n with
  | TiXmlElement _ attrs _ => map_find attr attrs
  | TiXmlText _ => None
  end.

(** [LinkEndChild]. *)
Definition LinkEndChild (n : TiXmlNode) (child : TiXmlNode) : TiXmlNode :=
  match n with
  | TiXmlElement v a c => TiXmlElement v a (c ++ [child])
  | TiXmlText v => TiXmlText v
  end.

(** [RemoveChild] of the first child element with the tag. *)
Fixpoint remove_first_element (tag : string) (nodes : list TiXmlNode)
    : list TiXmlNode :=
  match nodes with
  | [] => []
  | n :: rest =>
      if is_element n && String.eqb (Value n) tag then rest
      else n :: remove_first_element tag rest
  end.

Definition GetKeyValueAsString (_elem : TiXmlNode) : string :=
  match Attribute _elem "value" with
  | Some v => v
  | None =>
      match node_children _elem with
      | first :: _ => Value first
      | [] => ""
      end
  end.

Definition tolower (c : ascii) : ascii :=
  let n := Ascii.nat_of_ascii c in
  if (65 <=? n)%nat && (n <=? 90)%nat then Ascii.ascii_of_nat (n + 32) else c.

Fixpoint lowerStr (str : string) : string :=
  match str with
  | EmptyString => EmptyString
  | String c rest => String (tolower c) (lowerStr rest)
  end.

Section Create.
Context {D : Type} {Dbl : Double D} {Lex : LexicalCast D} {Blob : BlobRewriting D}
        {Wr : LinkWriter D} {Prs : Parsers D}.

(** [AddKeyValue]: the new element, and the warning when a different
    value is overwritten. *)
Definition AddKeyValue (_elem : TiXmlNode) (_key _value : string)
    : M D TiXmlNode :=
  do elem1 <-
    match FirstChildElement (node_children _elem) _key with
    | Some childElem =>
        let oldValue := GetKeyValueAsString childElem in
        run (if negb (String.eqb oldValue _value) then
               write_log
                 (sdfwarn ("multiple inconsistent <" +:+ _key
                           +:+ "> exists due to fixed joint reduction"
                           +:+ " overwriting previous value [" +:+ oldValue
                           +:+ "] with [" +:+ _value +:+ "]." +:+ nl))
             else ret tt);
        ret (match _elem with
             | TiXmlElement v a c =>
                 TiXmlElement v a (remove_first_element _key c)
             | TiXmlText v => TiXmlText v
             end)
    | None => ret _elem
    end;
  ret (LinkEndChild elem1 (TiXmlElement _key [] [TiXmlText _value])).

(** The condition under which [CreateSDF] drops a link: not "world", and
    no [<inertial>] block or zero mass. *)
Definition no_inertia (lk : Link D) : bool :=
  negb (String.eqb (name lk) "world")
  && match inertial lk with
     | None => true
     | Some i => sdf_equal (mass i) d0
     end.

(** The condition under which [CreateSDF] writes a link. *)
Definition writes_link (_link : LinkPtr) : M D bool :=
  do lk <- get_link _link;
  do parent_is_world <-
    match parent_link lk with
    | None => ret false
    | Some p => do pk <- get_link p; ret (String.eqb (name pk) "world")
    end;
  do reduce <- gets g_reduceFixedJoints;
  ret (parent_is_world
       || negb reduce
       || match parent_joint lk with
          | None => true
          | Some j => negb (JointType_eqb (joint_type j) FIXED)
          end).

(** [CreateSDF(_root, _link, _transform)]: the root element after the
    call. *)
Fixpoint CreateSDF (_root : TiXmlNode) (t : LinkTree) (_transform : sdf.Pose D)
    : M D TiXmlNode :=
  match t with
  | Node _link cs =>
      let _currentTransform := _transform in
      do lk <- get_link _link;
      if no_inertia lk then
        run (if negb (bool_decide (cs = [])) then
               write_log
                 (sdfwarn ("urdf2sdf: link[" +:+ name lk
                           +:+ "] has no inertia, [" +:+ pretty (length cs)
                           +:+ "] children links ignored" +:+ nl +:+ "."))
             else ret tt);
        run (if negb (bool_decide (child_joints lk = [])) then
               write_log
                 (sdfwarn ("urdf2sdf: link[" +:+ name lk
                           +:+ "] has no inertia, [" +:+ pretty (length cs)
                           +:+ "] children joints ignored" +:+ nl +:+ "."))
             else ret tt);
        run match parent_joint lk with
            | Some j =>
                write_log
                  (sdfwarn ("urdf2sdf: link[" +:+ name lk
                            +:+ "] has no inertia, " +:+ "parent joint ["
                            +:+ joint_name j +:+ "] ignored" +:+ nl +:+ "."))
            | None => ret tt
            end;
        run write_log
              (sdfwarn ("urdf2sdf: link[" +:+ name lk
                        +:+ "] has no inertia, not modeled in sdf" +:+ nl));
        ret _root
      else
        (* create <link> block for non fixed joint attached bodies *)
        do w <- writes_link _link;
        do rt <- (if w then CreateLink _root _link _currentTransform
                  else ret (_root, _currentTransform));
        (* recurse into children *)
        (fix go (r : TiXmlNode) (children : list LinkTree) : M D TiXmlNode :=
           match children with
           | [] => ret r
           | c :: rest => do r1 <- CreateSDF r c (snd rt); go r1 rest
           end) (fst rt) cs
  end.

End Create.

Section InitModel.
Context {D : Type} {Dbl : Double D} {Lex : LexicalCast D} {Blob : BlobRewriting D}
        {Wr : LinkWriter D} {Prs : Parsers D}.

(** Modelled from the spec: the constructor of [SDFExtension]
    (sdf/parser_urdf.hh is missing): nothing is set, gravity is on and the
    other flags are off (the defaults the comments of [ParseSDFExtension]
    name), no blobs, the default pose. *)
Definition SDFExtension_new : SDFExtension D :=
  mkSDFExtension "" "" ""
    [(setStaticFlag, false); (gravity, true); (selfCollide, false);
     (provideFeedback, false); (cfmDamping, false)]
    [] [] sdf.Pose_default.

Definition set_oldLinkName (v : string) (e : SDFExtension D) : SDFExtension D :=
  mkSDFExtension v (material e) (fdir1 e) (flags e) (doubles e) (blobs e)
                 (reductionTransform e).
Definition set_material (v : string) (e : SDFExtension D) : SDFExtension D :=
  mkSDFExtension (oldLinkName e) v (fdir1 e) (flags e) (doubles e) (blobs e)
                 (reductionTransform e).
Definition set_fdir1 (v : string) (e : SDFExtension D) : SDFExtension D :=
  mkSDFExtension (oldLinkName e) (material e) v (flags e) (doubles e) (blobs e)
                 (reductionTransform e).
Definition set_flag (f : FlagField) (v : bool) (e : SDFExtension D)
    : SDFExtension D :=
  mkSDFExtension (oldLinkName e) (material e) (fdir1 e) ((f, v) :: flags e)
                 (doubles e) (blobs e) (reductionTransform e).
Definition set_double (f : DoubleField) (v : D) (e : SDFExtension D)
    : SDFExtension D :=
  mkSDFExtension (oldLinkName e) (material e) (fdir1 e) (flags e)
                 ((f, v) :: doubles e) (blobs e) (reductionTransform e).

Definition FlagField_eqb (a b : FlagField) : bool :=
  match a, b with
  | setStaticFlag, setStaticFlag | gravity, gravity | selfCollide, selfCollide
  | provideFeedback, provideFeedback | cfmDamping, cfmDamping => true
  | _, _ => false
  end.

(** The current value of a flag: the last one written. *)
Definition get_flag (f : FlagField) (e : SDFExtension D) : bool :=
  match find (fun p => FlagField_eqb (fst p) f) (flags e) with
  | Some p => snd p
  | None => false
  end.

(** The tags of the optional numbers. *)
Definition double_tag (tag : string) : option DoubleField :=
  if String.eqb tag "dampingFactor" then Some dampingFactor
  else if String.eqb tag "maxVel" then Some maxVel
  else if String.eqb tag "minDepth" then Some minDepth
  else if String.eqb tag "mu1" then Some mu1
  else if String.eqb tag "mu2" then Some mu2
  else if String.eqb tag "kp" then Some kp
  else if String.eqb tag "kd" then Some kd
  else if String.eqb tag "laserRetro" then Some laserRetro
  else if String.eqb tag "stopCfm" then Some stopCfm
  else if String.eqb tag "stopErp" then Some stopErp
  else if String.eqb tag "initialJointPosition" then Some initialJointPosition
  else if String.eqb tag "fudgeFactor" then Some fudgeFactor
  else None.

(** The tags of the flags that are true on "true", "yes" or "1". *)
Definition flag_tag (tag : string) : option FlagField :=
  if String.eqb tag "static" then Some setStaticFlag
  else if String.eqb tag "selfCollide" then Some selfCollide
  else if String.eqb tag "provideFeedback" then Some provideFeedback
  else if String.eqb tag "cfmDamping" then Some cfmDamping
  else None.

(** One pass of the inner loop of [ParseSDFExtension]: the chain of
    [if (childElem->ValueStr() == ...)]. *)
Definition ParseSDFExtension_child (refStr : string) (childElem : TiXmlNode)
    (sdf0 : SDFExtension D) : Result (SDFExtension D) :=
  let sdf1 := set_oldLinkName refStr sdf0 in
  let tag := Value childElem in
  let valueStr := GetKeyValueAsString childElem in
  if String.eqb tag "material" then Ok (set_material valueStr sdf1)
  else if String.eqb tag "gravity" then
    (* default of gravity is true *)
    Ok (set_flag gravity
          (negb (String.eqb (lowerStr valueStr) "false"
                 || String.eqb (lowerStr valueStr) "no"
                 || String.eqb valueStr "0")) sdf1)
  else if String.eqb tag "fdir1" then Ok (set_fdir1 valueStr sdf1)
  else
    match flag_tag tag, double_tag tag with
    | Some f, _ =>
        Ok (set_flag f (String.eqb (lowerStr valueStr) "true"
                        || String.eqb (lowerStr valueStr) "yes"
                        || String.eqb valueStr "1") sdf1)
    | None, Some f =>
        match lexical_cast_double valueStr with
        | Some v => Ok (set_double f v sdf1)
        | None => Fail bad_lexical_cast
        end
    | None, None =>
        (* save all unknown stuff in a vector of blobs *)
        Ok (set_blobs (blobs sdf1 ++ [childElem]) sdf1)
    end.

Fixpoint ParseSDFExtension_children (refStr : string)
    (childElems : list TiXmlNode) (sdf0 : SDFExtension D)
    : Result (SDFExtension D) :=
  match childElems with
  | [] => Ok sdf0
  | c :: rest =>
      match ParseSDFExtension_child refStr c sdf0 with
      | Ok sdf1 => ParseSDFExtension_children refStr rest sdf1
      | Fail e => Fail e
      end
  end.

(** [URDF2SDF::ParseSDFExtension]. *)
Definition ParseSDFExtension (_urdfXml : list TiXmlNode) : M D unit :=
  do robotXml <- deref (FirstChildElement _urdfXml "robot");
  forM_ (fun sdfXml : TiXmlNode =>
           let refStr := default "" (Attribute sdfXml "reference") in
           do table <- gets g_extensions;
           run match map_find refStr table with
               | None => modify (set_g_extensions (map_insert refStr [] table))
               | Some _ => ret tt
               end;
           (* create and insert a new SDFExtension into the map *)
           match ParseSDFExtension_children refStr
                   (filter (fun n => is_element n = true) (node_children sdfXml))
                   SDFExtension_new with
           | Fail e => fail e
           | Ok sdf1 =>
               do ptr <- gets (fun s => length (extensions s));
               run modify (fun s => set_extensions (extensions s ++ [sdf1]) s);
               do table1 <- gets g_extensions;
               do ext <- deref (map_find refStr table1);
               modify (set_g_extensions (map_set refStr (ext ++ [ptr]) table1))
           end)
        (filter (fun n => is_element n && String.eqb (Value n) "sdf" = true)
                (node_children robotXml)).

(** [InsertSDFExtensionRobot]: the extensions without reference go to the
    root level of the model. *)
Definition InsertSDFExtensionRobot (_elem : TiXmlNode) : M D TiXmlNode :=
  do table <- gets g_extensions;
  (fix entries (r : TiXmlNode) (es : list (string * list ExtPtr))
     : M D TiXmlNode :=
     match es with
     | [] => ret r
     | (k, ges) :: rest =>
         do r1 <-
           (if String.eqb k "" then
              (fix each (r : TiXmlNode) (ges : list ExtPtr) : M D TiXmlNode :=
                 match ges with
                 | [] => ret r
                 | ge :: ges' =>
                     do e <- get_ext ge;
                     do r1 <- AddKeyValue r "static"
                                (if get_flag setStaticFlag e then "true"
                                 else "false");
                     each (fold_left LinkEndChild (blobs e) r1) ges'
                 end) r ges
            else ret r);
         entries r1 rest
     end) _elem table.

(** [URDF2SDF::InitModelString]: the document returned, as the list of
    its top-level nodes (empty for an empty [TiXmlDocument]). *)
Definition InitModelString (_urdfStr : string) (_enforceLimits : bool)
    : M D (list TiXmlNode) :=
  run modify (set_g_enforceLimits _enforceLimits);
  (* Create a RobotModel from string *)
  match parseURDF _urdfStr with
  | None =>
      run write_log (sdferr ("Unable to call parseURDF on robot model" +:+ nl));
      ret []
  | Some robotModel =>
      run modify (fun s =>
                    set_links (model_links robotModel)
                      (set_visuals (model_visuals robotModel)
                         (set_collisions (model_collisions robotModel) s)));
      let robot := TiXmlElement "model" [("name", getName robotModel)] [] in
      let transform : sdf.Pose D := sdf.Pose_default in
      (* parse sdf extension *)
      let urdfXml := TiXmlDocument_Parse _urdfStr in
      run ParseSDFExtension urdfXml;
      let rootLink := getRoot robotModel in
      (* Fixed Joint Reduction *)
      do reduce <- gets g_reduceFixedJoints;
      run (if reduce then
             do r <- deref rootLink; ReduceFixedJoints r
           else ret tt);
      do r <- deref rootLink;
      do rootLk <- get_link (root r);
      do robot1 <-
        (if String.eqb (name rootLk) "world" then
           (* convert all children link *)
           (fix go (e : TiXmlNode) (children : list LinkTree) : M D TiXmlNode :=
              match children with
              | [] => ret e
              | c :: rest => do e1 <- CreateSDF e c transform; go e1 rest
              end) robot (child_links r)
         else
           (* convert, starting from root link *)
           CreateSDF robot r transform);
      (* insert the extensions without reference into <robot> root level *)
      do robot2 <- InsertSDFExtensionRobot robot1;
      let sdfSdf := TiXmlElement "sdf" [("version", "1.3")] [robot2] in
      ret [sdfSdf]
  end.

End InitModel.

(* ===================================================================== *)
(** ** Instances *)
(* ===================================================================== *)

(** The real numbers as the doubles without rounding. *)
Module RealDouble.

Definition equal (a b : R) : bool :=
  if Rle_dec (Rabs (a - b)) (1 / 1000000) then true else false.

#[global] Instance Double_R : Double R := {
  d0 := 0%R; d1 := 1%R; d2 := 2%R;
  dadd := Rplus; dsub := Rminus; dmul := Rmult;
  sdf_equal := equal
}.


End RealDouble.

(** Small inputs to run the definitions on: the integers among the
    doubles, integer literals, blobs left as they are, a link written as
    an empty [<link name=...>] element. *)
Module Run.

Fixpoint parse_digits (s : string) (acc : Z) : option Z :=
  match s with
  | EmptyString => Some acc
  | String c rest =>
      let n := Ascii.nat_of_ascii c in
      if (48 <=? n)%nat && (n <=? 57)%nat
      then parse_digits rest (10 * acc + Z.of_nat (n - 48))%Z
      else None
  end.

Definition parse_Z (s : string) : option Z :=
  match s with
  | EmptyString => None
  | String c rest =>
      if Ascii.eqb c "-"%char then
        match rest with
        | EmptyString => None
        | _ => Z.opp <$> parse_digits rest 0%Z
        end
      else parse_digits s 0%Z
  end.

#[global] Instance Double_Z : Double Z := {
  d0 := 0%Z; d1 := 1%Z; d2 := 2%Z;
  dadd := Z.add; dsub := Z.sub; dmul := Z.mul;
  sdf_equal := Z.eqb
}.

#[global] Instance LexicalCast_Z : LexicalCast Z := {
  lexical_cast_double := parse_Z
}.

#[global] Instance BlobRewriting_Z : BlobRewriting Z := {
  blob_TransformReduction := fun _ b => b;
  blob_FrameReplace := fun _ _ _ _ b => Ok (b, [])
}.

#[global] Instance LinkWriter_Z : LinkWriter Z := {
  CreateLink := fun _root _link _currentTransform =>
    do lk <- get_link _link;
    ret (LinkEndChild _root (TiXmlElement "link" [("name", name lk)] []),
         _currentTransform)
}.

Definition identity : urdf.Pose Z :=
  urdf.mkPose (urdf.mkVector3 0 0 0)%Z (urdf.mkRotation 0 0 0 1)%Z.

Definition empty_state : State Z := mkState [] [] [] [] [] true true [] [].

Definition fixed_to (parent jointName : string) : Joint Z :=
  mkJoint jointName FIXED identity parent.

Definition revolute_to (parent jointName : string) : Joint Z :=
  mkJoint jointName REVOLUTE identity parent.

Definition geom0 : Geom Z := mkGeom identity.

Definition heavy : option (Inertial Z) := Some (mkInertial 1%Z).

(** base <- chassis <- wheel, both joints fixed; every link has one
    visual and one collision in its "default" group. *)
Definition chain : State Z :=
  mkState
    [ mkLink "base" None None ["j1"] heavy
             [("default", [2])] [("default", [2])];
      mkLink "chassis" (Some 0) (Some (fixed_to "base" "j1")) ["j2"] heavy
             [("default", [1])] [("default", [1])];
      mkLink "wheel" (Some 1) (Some (fixed_to "chassis" "j2")) [] heavy
             [("default", [0])] [("default", [0])] ]
    [geom0; geom0; geom0] [geom0; geom0; geom0] [] [] true true [] [].

Definition chain_tree : LinkTree := Node 0 [Node 1 [Node 2 []]].

(** world <- base (fixed) <- link1 (revolute) <- link2 (fixed). *)
Definition world_model : State Z :=
  mkState
    [ mkLink "world" None None ["j0"] None [] [];
      mkLink "base" (Some 0) (Some (fixed_to "world" "j0")) ["j1"] heavy
             [("default", [0])] [("default", [0])];
      mkLink "link1" (Some 1) (Some (revolute_to "base" "j1")) ["j2"] heavy
             [("default", [1])] [("default", [1])];
      mkLink "link2" (Some 2) (Some (fixed_to "link1" "j2")) [] heavy
             [("default", [2])] [("default", [2])] ]
    [geom0; geom0; geom0] [geom0; geom0; geom0] [] [] true true [] [].

Definition world_tree : LinkTree := Node 0 [Node 1 [Node 2 [Node 3 []]]].

(** A root link without inertial block and its two children. *)
Definition massless_model : State Z :=
  mkState
    [ mkLink "frame" None None ["ja"; "jb"] None [] [];
      mkLink "a" (Some 0) (Some (revolute_to "frame" "ja")) [] heavy [] [];
      mkLink "b" (Some 0) (Some (revolute_to "frame" "jb")) [] heavy [] [] ]
    [] [] [] [] true true [] [].

Definition massless_tree : LinkTree := Node 0 [Node 1 []; Node 2 []].

(** A robot description with a number that is no number in an extension
    element, and what the two parsers make of it. *)
Definition bad_number_urdf : string :=
  "<robot name='r'><link name='base'/>"
  +:+ "<sdf reference='base'><mu1>abc</mu1></sdf></robot>".

Definition bad_number_document : list TiXmlNode :=
  [ TiXmlElement "robot" [("name", "r")]
      [ TiXmlElement "link" [("name", "base")] [];
        TiXmlElement "sdf" [("reference", "base")]
          [ TiXmlElement "mu1" [] [TiXmlText "abc"] ] ] ].

Definition bad_number_model : ModelInterface Z :=
  mkModelInterface "r" (Some (Node 0 []))
    [mkLink "base" None None [] None [] []] [] [].

#[global] Instance Parsers_Z : Parsers Z := {
  parseURDF := fun text =>
    if String.eqb text bad_number_urdf then Some bad_number_model else None;
  TiXmlDocument_Parse := fun text =>
    if String.eqb text bad_number_urdf then bad_number_document else []
}.

(** The chain with one extension record for "wheel" and one for
    "chassis". *)
Definition extension0 : SDFExtension Z :=
  mkSDFExtension "" "" "" [] [] [] sdf.Pose_default.

Definition chain_with_extensions : State Z :=
  set_g_extensions [("chassis", [1]); ("wheel", [0])]
    (set_extensions [extension0; extension0] chain).

End Run.

(* ===================================================================== *)
(** ** The URDF converter: the link names in the blobs of an extension *)
(* ===================================================================== *)

(** [FirstChild(value)] on a list of child nodes: the first node, of
    either kind, with that value. *)
Definition FirstChild (nodes : list TiXmlNode) (value : string)
    : option TiXmlNode :=
  find (fun n => String.eqb (Value n) value) nodes.

(** [RemoveChild] of the node that [FirstChild(value)] returned. *)
Fixpoint remove_first_child (value : string) (nodes : list TiXmlNode)
    : list TiXmlNode :=
  match nodes with
  | [] => []
  | n :: rest =>
      if String.eqb (Value n) value then rest
      else n :: remove_first_child value rest
  end.

(** The node that [FirstChild(value)] returned, after it was changed in
    place to [n']. *)
Fixpoint replace_first_child (value : string) (n' : TiXmlNode)
    (nodes : list TiXmlNode) : list TiXmlNode :=
  match nodes with
  | [] => []
  | n :: rest =>
      if String.eqb (Value n) value then n' :: rest
      else n :: replace_first_child value n' rest
  end.

(** [ToElement()]: null on a text node. *)
Definition ToElement (n : TiXmlNode) : option TiXmlNode :=
  if is_element n then Some n else None.

Definition set_children (c : list TiXmlNode) (n : TiXmlNode) : TiXmlNode :=
  match n with
  | TiXmlElement v a _ => TiXmlElement v a c
  | TiXmlText v => TiXmlText v
  end.

(** The block that the frame replacing functions repeat for one key:
    when the node has a child [key] whose value is [oldValue], the child
    is removed and a new element [key] with the text [newValue] is linked
    at the end.  [GetKeyValueAsString] is called on [ToElement()] of the
    child, which is null for a text node. *)
Definition replace_key (node : TiXmlNode) (key oldValue newValue : string)
    : Result TiXmlNode :=
  match FirstChild (node_children node) key with
  | Some child =>
      match ToElement child with
      | None => Fail NullDeref
      | Some elem =>
          if String.eqb (GetKeyValueAsString elem) oldValue then
            Ok (LinkEndChild
                  (set_children (remove_first_child key (node_children node))
                                node)
                  (TiXmlElement key [] [TiXmlText newValue]))
          else Ok node
      end
  | None => Ok node
  end.

(** [ReduceSDFExtensionContactSensorFrameReplace], with the name of the
    link and of its parent for [_link]: the blob after the call. *)
Definition ReduceSDFExtensionContactSensorFrameReplace (blob : TiXmlNode)
    (linkName newLinkName : string) : Result TiXmlNode :=
  if String.eqb (Value blob) "sensor" then
    match FirstChild (node_children blob) "contact" with
    | Some contact =>
        match replace_key contact "collision" (linkName +:+ "_collision")
                (newLinkName +:+ "_collision_" +:+ linkName) with
        | Ok contact' =>
            Ok (set_children
                  (replace_first_child "contact" contact' (node_children blob))
                  blob)
        | Fail e => Fail e
        end
    | None => Ok blob
    end
  else Ok blob.

(** [ReduceSDFExtensionGripperFrameReplace]. *)
Definition ReduceSDFExtensionGripperFrameReplace (blob : TiXmlNode)
    (linkName newLinkName : string) : Result TiXmlNode :=
  if String.eqb (Value blob) "gripper" then
    match replace_key blob "gripper_link" linkName newLinkName with
    | Ok blob1 => replace_key blob1 "palm_link" linkName newLinkName
    | Fail e => Fail e
    end
  else Ok blob.

(** [ReduceSDFExtensionJointFrameReplace]. *)
Definition ReduceSDFExtensionJointFrameReplace (blob : TiXmlNode)
    (linkName newLinkName : string) : Result TiXmlNode :=
  if String.eqb (Value blob) "joint" then
    match replace_key blob "parent" linkName newLinkName with
    | Ok blob1 => replace_key blob1 "child" linkName newLinkName
    | Fail e => Fail e
    end
  else Ok blob.

(** [std::string::find] of one character: the position of its first
    occurrence, [None] for [npos]. *)
Fixpoint string_find (c : ascii) (s : string) : option nat :=
  match s with
  | EmptyString => None
  | String b rest =>
      if Ascii.eqb b c then Some 0 else S <$> string_find c rest
  end.

(** [ReduceSDFExtensionProjectorFrameReplace]: the blob after the call
    and the messages written.  With [pos == npos], [substr(0, pos)] is
    the whole string and [pos+1] wraps around to 0, so that
    [substr(pos+1, size)] is the whole string too. *)
Definition ReduceSDFExtensionProjectorFrameReplace (blob : TiXmlNode)
    (linkName newLinkName : string) : Result (TiXmlNode * list LogMsg) :=
  match FirstChild (node_children blob) "projector" with
  | Some projectorElem =>
      match ToElement projectorElem with
      | None => Fail NullDeref
      | Some elem =>
          let projectorName := GetKeyValueAsString elem in
          let pos := string_find "/"%char projectorName in
          let msgs :=
            match pos with
            | None =>
                [sdferr ("no slash in projector reference tag ["
                         +:+ projectorName
                         +:+ "], expecting linkName/projector_name." +:+ nl)]
            | Some _ => []
            end in
          let projectorLinkName :=
            match pos with
            | Some p => String.substring 0 p projectorName
            | None => projectorName
            end in
          if String.eqb projectorLinkName linkName then
            (* do the replacement *)
            let rest :=
              match pos with
              | Some p =>
                  String.substring (p + 1) (String.length projectorName)
                                   projectorName
              | None => projectorName
              end in
            let projectorName1 := newLinkName +:+ "/" +:+ rest in
            Ok (LinkEndChild
                  (set_children
                     (remove_first_child "projector" (node_children blob))
                     blob)
                  (TiXmlElement "projector" [] [TiXmlText projectorName1]),
                msgs)
          else Ok (blob, msgs)
      end
  | None => Ok (blob, [])
  end.

(** The new name of a link reference when [linkName] is lumped into
    [newLinkName]. *)
Definition renamed (linkName newLinkName v : string) : string :=
  if String.eqb v linkName then newLinkName else v.

(** The children [c'] are the children [c] with their one child [key]
    replaced by one whose value is [value]; the other children are kept
    in their order. *)
Definition replaces_child (key value : string) (c c' : list TiXmlNode)
    : Prop :=
  exists p',
    filter (fun n => Value n = key) c' = [p'] /\
    GetKeyValueAsString p' = value /\
    filter (fun n => Value n <> key) c' = filter (fun n => Value n <> key) c.

(** What a frame replacing function [f] does with the two link
    references [key1] and [key2] of the blobs tagged [tag]: a blob with
    another tag is returned as it is; a blob with one child [key1] and one
    child [key2], both elements, is returned with again one of each, the
    value of each redirected from the lumped link to its parent, and with
    its other children in their order. *)
Definition redirects_link_names
    (f : TiXmlNode -> string -> string -> Result TiXmlNode)
    (tag key1 key2 : string) : Prop :=
  forall (a : list (string * string)) (c : list TiXmlNode)
         (linkName newLinkName : string),
    (forall blob, Value blob <> tag -> f blob linkName newLinkName = Ok blob) /\
    (forall e1 e2,
        filter (fun n => Value n = key1) c = [e1] -> is_element e1 = true ->
        filter (fun n => Value n = key2) c = [e2] -> is_element e2 = true ->
        exists c' e1' e2',
          f (TiXmlElement tag a c) linkName newLinkName
          = Ok (TiXmlElement tag a c') /\
          filter (fun n => Value n = key1) c' = [e1'] /\
          GetKeyValueAsString e1'
          = renamed linkName newLinkName (GetKeyValueAsString e1) /\
          filter (fun n => Value n = key2) c' = [e2'] /\
          GetKeyValueAsString e2'
          = renamed linkName newLinkName (GetKeyValueAsString e2) /\
          filter (fun n => Value n <> key1 /\ Value n <> key2) c'
          = filter (fun n => Value n <> key1 /\ Value n <> key2) c).

(* ===================================================================== *)
(** ** The URDF converter: reading the extensions *)
(* ===================================================================== *)

(** The child elements with the tag [key], which
    [FirstChildElement(key)] looks for, and the other child nodes. *)
Definition children_tagged (key : string) (c : list TiXmlNode)
    : list TiXmlNode :=
  filter (fun n => is_element n && String.eqb (Value n) key = true) c.

Definition children_not_tagged (key : string) (c : list TiXmlNode)
    : list TiXmlNode :=
  filter (fun n => is_element n && String.eqb (Value n) key = false) c.

Section ExtensionTags.
Context {D : Type} {Lex : LexicalCast D}.

(** The tags that [ParseSDFExtension] reads into a member of the
    extension record; the elements with any other tag are kept as
    blobs. *)
Definition known_tag (tag : string) : bool :=
  String.eqb tag "material" || String.eqb tag "gravity"
  || String.eqb tag "fdir1"
  || match flag_tag tag with Some _ => true | None => false end
  || match double_tag tag with Some _ => true | None => false end.

(** A child element whose tag names a number and whose text is none. *)
Definition not_a_number (c : TiXmlNode) : bool :=
  match double_tag (Value c), lexical_cast_double (GetKeyValueAsString c) with
  | Some _, None => true
  | _, _ => false
  end.

(** The [<sdf>] elements of a robot element, the reference of one (the
    empty string without the attribute) and its child elements. *)
Definition sdf_elements (robotXml : TiXmlNode) : list TiXmlNode :=
  filter (fun n => is_element n && String.eqb (Value n) "sdf" = true)
         (node_children robotXml).

Definition reference (sdfXml : TiXmlNode) : string :=
  default "" (Attribute sdfXml "reference").

Definition child_elements (n : TiXmlNode) : list TiXmlNode :=
  filter (fun c => is_element c = true) (node_children n).

(** The pointers of the records made for the references [refs], the
    first of them at [n], that go under the reference [ref]. *)
Fixpoint new_ptrs (ref : string) (refs : list string) (n : nat) : list nat :=
  match refs with
  | [] => []
  | r :: rest =>
      (if String.eqb r ref then [n] else []) ++ new_ptrs ref rest (S n)
  end.

(** From [s] to [s'] the records [news] are appended to the extension
    records and nothing but the side-table changes besides; a valid table
    stays valid. *)
Definition adds_extensions (s s' : State D) (news : list (SDFExtension D))
    : Prop :=
  links s' = links s /\ visuals s' = visuals s /\
  collisions s' = collisions s /\
  g_reduceFixedJoints s' = g_reduceFixedJoints s /\
  g_enforceLimits s' = g_enforceLimits s /\
  log s' = log s /\ calls s' = calls s /\
  extensions s' = extensions s ++ news /\
  (ext_table_valid s -> ext_table_valid s').

End ExtensionTags.

(* ===================================================================== *)
(** ** The URDF converter: what the reduction keeps and what it lumps *)
(* ===================================================================== *)

Section Lumpable.
Context {D : Type}.

(** The name and the type of the parent joint of a link, if it has
    one. *)
Definition joint_kind (lk : Link D) : option (string * JointType) :=
  (fun j => (joint_name j, joint_type j)) <$> parent_joint lk.

(** From [s] to [s'] the links are as many, and every link keeps its
    name, its inertial block, its child joints and the name and type of
    its parent joint; a link that does not hang on a movable joint also
    keeps its parent and its parent joint as they are. *)
Definition keeps_identity (s s' : State D) : Prop :=
  length (links s') = length (links s) /\
  forall i lk,
    links s !! i = Some lk ->
    exists lk',
      links s' !! i = Some lk' /\ name lk' = name lk /\
      inertial lk' = inertial lk /\ child_joints lk' = child_joints lk /\
      joint_kind lk' = joint_kind lk /\
      (movable lk = false ->
       parent_link lk' = parent_link lk /\ parent_joint lk' = parent_joint lk).

(** The test of [ReduceFixedJoints] on the link [l] in the state [s]:
    the link has a parent that is not named "world" and hangs on it by a
    fixed joint. *)
Definition lumpable (s : State D) (l : LinkPtr) : Prop :=
  exists lk p pk j,
    links s !! l = Some lk /\ parent_link lk = Some p /\
    links s !! p = Some pk /\ name pk <> "world" /\
    parent_joint lk = Some j /\ joint_type j = FIXED.

(** The calls that lump one link, in the order of [ReduceFixedJoints]. *)
Definition lumping_calls (l : LinkPtr) : list (ReduceFn * LinkPtr) :=
  [ (SDFExtensionToParent, l); (InertialToParent, l); (VisualsToParent, l);
    (CollisionsToParent, l); (JointsToParent, l) ].

(** The links of a tree, the root first. *)
Fixpoint tree_links (t : LinkTree) : list LinkPtr :=
  match t with
  | Node l cs => l :: flat_map tree_links cs
  end.

(** From [s] to [s'] the links keep their identity and the links [ls],
    each of them lumpable in [s], are lumped, one after the other. *)
Definition lumps (ls : list LinkPtr) (s s' : State D) : Prop :=
  keeps_identity s s' /\
  calls s' = calls s ++ flat_map lumping_calls ls /\
  Forall (lumpable s) ls.

End Lumpable.

Section Origins.
Context {D : Type} {Dbl : Double D}.

(** The origin of a visual or collision after its link is lumped across
    the joint [j]. *)
Definition to_parent_frame (j : Joint D) (g : Geom D) : Geom D :=
  mkGeom (TransformToParentFrame_uu (origin g)
            (parent_to_joint_origin_transform j)).

End Origins.

Section Depth.
Context {D : Type}.

(** The parent pointers of the links have no cycle: every parent is
    strictly less deep than its child, for the depths [d]. *)
Definition parents_are_shallower (d : LinkPtr -> nat) (s : State D) : Prop :=
  forall l lk p,
    links s !! l = Some lk -> parent_link lk = Some p -> d p < d l.

End Depth.


(** More small inputs to run the definitions on. *)
Module Samples.

(** A robot description with three [<sdf>] extension elements: two for
    the link "base" (the second one empty) and one without reference. *)
Definition extensions_document : list TiXmlNode :=
  [ TiXmlElement "robot" [("name", "r")]
      [ TiXmlElement "link" [("name", "base")] [];
        TiXmlElement "sdf" [("reference", "base")]
          [ TiXmlElement "mu1" [] [TiXmlText "1"];
            TiXmlElement "plugin" [("name", "p")] [] ];
        TiXmlElement "sdf" []
          [ TiXmlElement "static" [] [TiXmlText "true"] ];
        TiXmlElement "sdf" [("reference", "base")] [] ] ].


End Samples.

(* ===================================================================== *)
(** ** Theorems: Sensor.cc *)
(* ===================================================================== *)

Lemma SetType_from_not_in strs i s d :
  ~ In s strs -> Sensor.SetType_from strs i s d = (false, d).
Proof.
  revert i; induction strs as [|x rest IH]; intros i Hn; simpl; [done|].
  destruct (String.eqb_spec s x) as [->|Hne].
  - exfalso. apply Hn. by left.
  - apply IH. intros Hin. apply Hn. by right.
Qed.

(** C10. For every string of the sensor-type table (with "none"),
    [SetType] returns true and [TypeStr] then gives the string back; for
    every other string [SetType] returns false and the sensor is left
    as it was. *)
Theorem C10_SetType_TypeStr (s : string) (d : Sensor.SensorPrivate) :
  (In s Sensor.sensorTypeStrs ->
     fst (Sensor.SetType s d) = true /\
     Sensor.TypeStr (snd (Sensor.SetType s d)) = s) /\
  (~ In s Sensor.sensorTypeStrs -> Sensor.SetType s d = (false, d)).
Proof.
  split.
  - intros Hin. unfold Sensor.sensorTypeStrs in Hin. simpl in Hin.
    repeat (destruct Hin as [<-|Hin]; [by vm_compute|]).
    destruct Hin.
  - apply SetType_from_not_in.
Qed.

Lemma C10_SetType_TypeStr_witness :
  let d := Sensor.mkSensorPrivate 0 "s" "" "" in
  (fst (Sensor.SetType "lidar" d) = true /\
   Sensor.TypeStr (snd (Sensor.SetType "lidar" d)) = "lidar") /\
  Sensor.SetType "ray" d = (false, d).
Proof.
  intros d. split.
  - apply (C10_SetType_TypeStr "lidar" d). vm_compute. tauto.
  - apply (C10_SetType_TypeStr "ray" d). vm_compute.
    intros H. repeat (destruct H as [H|H]; [discriminate H|]). exact H.
Defined.

(* ===================================================================== *)
(** ** Theorems: ParseVector3 *)
(* ===================================================================== *)

Section ParseFacts.
Context {D : Type} {Dbl : Double D} {Lex : LexicalCast D}.

Lemma ParseVector3_loop_parsed str _scale pieces :
  forall i vals (vs : list D),
    Forall2 (fun t v => lexical_cast_double t = Some v)
            (filter (fun p => p <> "") pieces) vs ->
    ParseVector3_loop str _scale pieces i vals
    = inl (vals ++ map (dmul _scale) vs).
Proof.
  induction pieces as [|p rest IH]; intros i vals vs Hall; simpl.
  - inversion Hall; subst. by rewrite app_nil_r.
  - rewrite filter_cons in Hall.
    destruct (String.eqb_spec p "") as [->|Hne]; simpl.
    + rewrite decide_False in Hall by (intros Hc; by apply Hc).
      by apply IH.
    + rewrite decide_True in Hall by done.
      inversion Hall as [|t v ts vs' Hp Hrest]; subst.
      rewrite Hp. rewrite (IH _ _ vs' Hrest).
      by rewrite <- app_assoc.
Qed.

Lemma ParseVector3_loop_not_a_number str _scale pieces :
  forall i vals,
    Exists (fun p => p <> "" /\ lexical_cast_double p = None) pieces ->
    exists msg, ParseVector3_loop str _scale pieces i vals = inr (sdferr msg).
Proof.
  induction pieces as [|p rest IH]; intros i vals Hex; simpl.
  - inversion Hex.
  - destruct (String.eqb_spec p "") as [->|Hne]; simpl.
    + apply IH. inversion Hex as [? ? [Hp _]|]; [done|assumption].
    + destruct (lexical_cast_double p) eqn:Hcast; [|by eexists].
      apply IH. inversion Hex as [? ? [_ Hp]|]; [congruence|assumption].
Qed.

(** The error path of [ParseVector3], as the specification has it: a piece that
    is no number gives one logged error and the zero vector. *)
Lemma ParseVector3_not_a_number (_key : TiXmlNode) (_scale : D) :
  Exists (fun p => p <> "" /\ lexical_cast_double p = None)
         (split_spaces (Value _key)) ->
  exists msg,
    ParseVector3 (Some _key) _scale
    = ([sdferr msg], Ok (urdf.mkVector3 d0 d0 d0)).
Proof.
  intros Hex. unfold ParseVector3.
  destruct (ParseVector3_loop_not_a_number (Value _key) _scale _ 0 [] Hex)
    as [msg ->].
  by exists msg.
Qed.

(** C9 (the code departs from the specification). On a node whose text is three
    numbers, [ParseVector3] reads [vals[3]] of a vector of three values:
    the read is past the end and no vector [(s*v0, s*v1, s*v2)] comes
    back. *)
Theorem C9_ParseVector3_three_numbers_out_of_range
    (_key : TiXmlNode) (_scale : D) (t0 t1 t2 : string) (v0 v1 v2 : D) :
  filter (fun p => p <> "") (split_spaces (Value _key)) = [t0; t1; t2] ->
  lexical_cast_double t0 = Some v0 ->
  lexical_cast_double t1 = Some v1 ->
  lexical_cast_double t2 = Some v2 ->
  ParseVector3 (Some _key) _scale = ([], Fail OutOfRange).
Proof.
  intros Hp Hv0 Hv1 Hv2. unfold ParseVector3.
  rewrite (ParseVector3_loop_parsed _ _ _ 0 [] [v0; v1; v2]).
  - reflexivity.
  - rewrite Hp. repeat constructor; assumption.
Qed.

End ParseFacts.

Lemma C9_ParseVector3_three_numbers_out_of_range_witness :
  ParseVector3 (D := Z) (Some (TiXmlText "1 2 3")) 1%Z = ([], Fail OutOfRange).
Proof.
  apply (C9_ParseVector3_three_numbers_out_of_range
           (TiXmlText "1 2 3") 1%Z "1" "2" "3" 1%Z 2%Z 3%Z); reflexivity.
Defined.

(* ===================================================================== *)
(** ** Theorems: TransformToParentFrame *)
(* ===================================================================== *)




(* ===================================================================== *)
(** ** Theorems: Element::Get *)
(* ===================================================================== *)

Lemma find_first_named {A : Type} (nm : A -> string) k l x :
  Element.first_named nm k l x ->
  find (fun y => String.eqb (nm y) k) l = Some x /\
  existsb (fun y => String.eqb (nm y) k) l = true.
Proof.
  intros (l1 & l2 & -> & Hx & Hl1).
  induction l1 as [|y l1 IH]; simpl.
  - apply String.eqb_eq in Hx. by rewrite Hx.
  - inversion Hl1 as [|? ? Hy Hrest]; subst.
    apply String.eqb_neq in Hy. rewrite Hy. simpl. by apply IH.
Qed.

Lemma find_none_named {A : Type} (nm : A -> string) k l :
  Element.none_named nm k l ->
  find (fun y => String.eqb (nm y) k) l = None /\
  existsb (fun y => String.eqb (nm y) k) l = false.
Proof.
  induction 1 as [|y l Hy Hrest IH]; simpl; [done|].
  apply String.eqb_neq in Hy. by rewrite Hy.
Qed.

(** C1. [Get<T>(k)] with a non-empty key returns the decoded value of
    the attribute named [k] if there is one; else the own value of the
    first child element named [k]; else the own value of the element
    description named [k]; else it logs an error and returns [T()].  With
    the empty key it returns the element's own value: its value Param
    decoded, [T()] without one.  ("Decoded" leaves [T()] when the text
    does not decode.)  No case logs but the last of the keyed ones. *)
Theorem C1_Get_resolution_order (T : Type) (T_default : T)
    (lexical_cast : string -> option T) (e : Element.Element) (k : string) :
  let decoded p := snd (Element.Param_Get T lexical_cast p T_default) in
  let own c := match Element.value c with
               | Some p => decoded p
               | None => T_default
               end in
  let Get := Element.Get T T_default lexical_cast in
  (k <> "" ->
   (forall p, Element.first_named Element.key k (Element.attributes e) p ->
              Get e k = (Ok (decoded p), [])) /\
   (Element.none_named Element.key k (Element.attributes e) ->
    forall c, Element.first_named Element.name k (Element.elements e) c ->
              Get e k = (Ok (own c), [])) /\
   (Element.none_named Element.key k (Element.attributes e) ->
    Element.none_named Element.name k (Element.elements e) ->
    forall d,
      Element.first_named Element.name k (Element.elementDescriptions e) d ->
      Get e k = (Ok (own d), [])) /\
   (Element.none_named Element.key k (Element.attributes e) ->
    Element.none_named Element.name k (Element.elements e) ->
    Element.none_named Element.name k (Element.elementDescriptions e) ->
    Get e k = (Ok T_default,
               [sdferr ("Unable to find value for key[" +:+ k +:+ "]"
                        +:+ nl)]))) /\
  Get e "" = (Ok (own e), []).
Proof.
  intros decoded own Get. split.
  - intros Hk. apply String.eqb_neq in Hk.
    unfold Get, Element.Get, Element.GetAttribute, Element.HasElement,
      Element.GetElementImpl, Element.HasElementDescription,
      Element.GetElementDescription. rewrite Hk.
    split; [|split; [|split]].
    + intros p Hp. apply find_first_named in Hp as [-> _]. reflexivity.
    + intros Ha c Hc. apply find_none_named in Ha as [-> _].
      apply find_first_named in Hc as [-> ->]. reflexivity.
    + intros Ha He d Hd. apply find_none_named in Ha as [-> _].
      apply find_none_named in He as [_ ->].
      apply find_first_named in Hd as [-> ->]. reflexivity.
    + intros Ha He Hd. apply find_none_named in Ha as [-> _].
      apply find_none_named in He as [_ ->].
      apply find_none_named in Hd as [_ ->]. reflexivity.
  - unfold Get, Element.Get, own, decoded. simpl.
    destruct (Element.value e); reflexivity.
Qed.

(** The scenario of the spec: no attribute ["x"], a description ["x"]
    with default "5"; then the child materialised with value "7". *)
Lemma C1_Get_resolution_order_witness :
  let int := Element.mkParam "" "int" "5" "5" false false "" in
  let seven := Element.mkParam "" "int" "5" "7" false true "" in
  let x_desc := Element.mkElement "x" [] (Some int) [] [] in
  let x_child := Element.mkElement "x" [] (Some seven) [] [] in
  let e := Element.mkElement "e" [] None [] [x_desc] in
  let e' := Element.mkElement "e" [] None [x_child] [x_desc] in
  Element.Get Z 0%Z Run.parse_Z e "x" = (Ok 5%Z, []) /\
  Element.Get Z 0%Z Run.parse_Z e' "x" = (Ok 7%Z, []).
Proof.
  intros int seven x_desc x_child e e'. split.
  - destruct (C1_Get_resolution_order Z 0%Z Run.parse_Z e "x") as [Hk _].
    destruct (Hk ltac:(discriminate)) as (_ & _ & Hd & _).
    apply (Hd ltac:(constructor) ltac:(constructor) x_desc).
    exists [], []. repeat split; constructor.
  - destruct (C1_Get_resolution_order Z 0%Z Run.parse_Z e' "x") as [Hk _].
    destruct (Hk ltac:(discriminate)) as (_ & Hc & _).
    apply (Hc ltac:(constructor) x_child).
    exists [], []. repeat split; constructor.
Defined.

(* ===================================================================== *)
(** ** Facts: maps, the store, the monad *)
(* ===================================================================== *)

Section MapFacts.
Context {V : Type}.
Implicit Types (m : list (string * V)) (k : string) (v : V).

Lemma map_find_insert_eq m k v :
  map_find k m = None -> map_find k (map_insert k v m) = Some v.
Proof.
  induction m as [|[k' v'] m IH]; simpl.
  - by rewrite String.eqb_refl.
  - destruct (String.eqb_spec k' k) as [->|Hne]; [done|]. intros Hf.
    destruct (String.ltb k k'); simpl.
    + by rewrite String.eqb_refl.
    + apply String.eqb_neq in Hne. rewrite Hne. by apply IH.
Qed.

Lemma map_find_insert_ne m k k' v :
  k' <> k -> map_find k' (map_insert k v m) = map_find k' m.
Proof.
  intros Hne. induction m as [|[k0 v0] m IH]; simpl.
  - assert (String.eqb k k' = false) as -> by (apply String.eqb_neq; congruence).
    done.
  - destruct (String.eqb_spec k0 k) as [->|Hk0]; [done|].
    destruct (String.ltb k k0); simpl.
    + assert (String.eqb k k' = false) as ->
        by (apply String.eqb_neq; congruence). done.
    + destruct (String.eqb k0 k'); [done|apply IH].
Qed.

Lemma map_find_set_eq m k v :
  is_Some (map_find k m) -> map_find k (map_set k v m) = Some v.
Proof.
  induction m as [|[k' v'] m IH]; simpl; intros [w Hw]; [done|].
  destruct (String.eqb_spec k' k) as [->|Hne]; simpl.
  - by rewrite String.eqb_refl.
  - apply String.eqb_neq in Hne. rewrite Hne. apply IH. eauto.
Qed.

Lemma map_find_set_ne m k k' v :
  k' <> k -> map_find k' (map_set k v m) = map_find k' m.
Proof.
  intros Hne. induction m as [|[k0 v0] m IH]; simpl; [done|].
  destruct (String.eqb_spec k0 k) as [->|Hk0]; simpl.
  - assert (String.eqb k k' = false) as ->
      by (apply String.eqb_neq; congruence). done.
  - destruct (String.eqb k0 k'); [done|apply IH].
Qed.

Lemma map_find_In m k v : map_find k m = Some v -> (k, v) ∈ m.
Proof.
  induction m as [|[k' v'] m IH]; simpl; [done|].
  destruct (String.eqb_spec k' k) as [->|Hne].
  - intros [= ->]. by left.
  - intros Hf. right. by apply IH.
Qed.

End MapFacts.

Lemma vector_has_spec (g : GeomPtr) (v : list GeomPtr) :
  vector_has g v = true <-> g ∈ v.
Proof.
  unfold vector_has. rewrite existsb_exists. split.
  - intros (y & Hin & Heq). apply Nat.eqb_eq in Heq. subst.
    by apply list_elem_of_In.
  - intros Hin. exists g. split; [by apply list_elem_of_In|apply Nat.eqb_refl].
Qed.

Lemma vector_has_false (g : GeomPtr) (v : list GeomPtr) :
  vector_has g v = false <-> g ∉ v.
Proof.
  rewrite <- vector_has_spec. destruct (vector_has g v); split; done.
Qed.

Section StoreFacts.
Context {D : Type}.
Implicit Types (s : State D) (lk : Link D) (k : GeomKind).

Lemma bind_Ok {A B : Type} (m : M D A) (f : A -> M D B) s a s' :
  m s = Ok (a, s') -> bind m f s = f a s'.
Proof. unfold bind. by intros ->. Qed.

Lemma bind_Fail {A B : Type} (m : M D A) (f : A -> M D B) s e :
  m s = Fail e -> bind m f s = Fail e.
Proof. unfold bind. by intros ->. Qed.

Lemma bind_inv {A B : Type} (m : M D A) (f : A -> M D B) s b s2 :
  bind m f s = Ok (b, s2) ->
  exists a s1, m s = Ok (a, s1) /\ f a s1 = Ok (b, s2).
Proof.
  unfold bind. destruct (m s) as [[a s1]|e]; [|done]. eauto.
Qed.

Lemma get_link_Ok s l lk : links s !! l = Some lk -> get_link l s = Ok (lk, s).
Proof. unfold get_link, bind, gets, deref. by intros ->. Qed.

Lemma get_link_inv s l lk s' :
  get_link l s = Ok (lk, s') -> s' = s /\ links s !! l = Some lk.
Proof.
  unfold get_link, bind, gets, deref.
  destruct (links s !! l); [|done]. by intros [= -> ->].
Qed.

Lemma groups_set_groups k g lk : groups k (set_groups k g lk) = g.
Proof. by destruct k. Qed.

Lemma groups_set_groups_ne k k' g lk :
  k' <> k -> groups k' (set_groups k g lk) = groups k' lk.
Proof. by destruct k, k'. Qed.

End StoreFacts.

(** Run the first statement of a sequence, given what it returns. *)
Ltac bind_step H := erewrite (bind_Ok _ _ _ _ _); [|exact H].

(* ===================================================================== *)
(** ** Theorems: ReduceVisualToParent, ReduceCollisionToParent *)
(* ===================================================================== *)

Section AddToParent.
Context {D : Type}.

Lemma ReduceGeomToParent_adds_unless_present (k : GeomKind) :
  adds_unless_present (D := D) k (ReduceGeomToParent k).
Proof.
  intros s l lk g x Hl. unfold group_items, ReduceGeomToParent.
  rewrite (bind_Ok _ _ _ _ _ (get_link_Ok _ _ _ Hl)).
  destruct (map_find g (groups k lk)) as [cols|] eqn:Hfind; simpl.
  - split.
    + intros Hin. apply vector_has_spec in Hin.
      unfold bind at 1, ret. rewrite Hin. reflexivity.
    + intros Hnin. apply vector_has_false in Hnin.
      unfold bind at 1, ret. rewrite Hnin.
      rewrite (bind_Ok _ _ _ _ _ (get_link_Ok _ _ _ Hl)).
      eexists. split; [reflexivity|].
      rewrite groups_set_groups.
      split; [apply map_find_set_eq; eauto|].
      split; [intros g' Hg'; by apply map_find_set_ne|].
      split; [intros k' Hk'; by apply groups_set_groups_ne|].
      by destruct k.
  - split; [intros Hin; by apply elem_of_nil in Hin|]. intros _.
    pose proof (lookup_lt_Some _ _ _ Hl) as Hlt.
    unfold bind at 1, put_link, modify. simpl.
    set (lk0 := set_groups k (map_insert g [] (groups k lk)) lk).
    set (s1 := set_links (<[l:=lk0]> (links s)) s).
    assert (Hl1 : links s1 !! l = Some lk0)
      by (simpl; by apply list_lookup_insert_eq).
    rewrite (bind_Ok _ _ _ _ _ (get_link_Ok _ _ _ Hl1)).
    exists (set_groups k (map_set g [x] (groups k lk0)) lk0).
    split.
    { unfold s1, set_links. simpl. by rewrite list_insert_insert_eq. }
    unfold lk0. rewrite !groups_set_groups.
    split.
    { apply map_find_set_eq. rewrite map_find_insert_eq by done. eauto. }
    split.
    { intros g' Hg'. rewrite map_find_set_ne by done.
      by apply map_find_insert_ne. }
    split.
    { intros k' Hk'. by rewrite !groups_set_groups_ne. }
    by destruct k.
Qed.

(** C8. [ReduceCollisionToParent] and [ReduceVisualToParent]: an item
    already in the target link's group of that name (the same pointer) is
    not added again, a warning is logged and nothing else changes;
    any other item is appended to that group's list, the group being
    created when the link has none of that name, and the link's other
    groups and fields, the other links and the log are as before. *)
Theorem C8_Reduce_to_parent_rejects_duplicates :
  adds_unless_present (D := D) Collision ReduceCollisionToParent /\
  adds_unless_present (D := D) Visual ReduceVisualToParent.
Proof.
  split; apply ReduceGeomToParent_adds_unless_present.
Qed.

End AddToParent.

Lemma C8_Reduce_to_parent_rejects_duplicates_witness :
  (exists msg,
      ReduceCollisionToParent 1 "default" 1 Run.chain
      = Ok (tt, set_log [sdfwarn msg] Run.chain)) /\
  (exists lk',
      ReduceVisualToParent 1 "lump::wheel" 0 Run.chain
      = Ok (tt, set_links (<[1 := lk']> (links Run.chain)) Run.chain) /\
      map_find "lump::wheel" (visual_groups lk') = Some [0]).
Proof.
  destruct (C8_Reduce_to_parent_rejects_duplicates (D := Z)) as [Hc Hv].
  split.
  - eexists.
    refine (proj1 (Hc Run.chain 1 _ "default" 1 eq_refl) _).
    by left.
  - destruct (proj2 (Hv Run.chain 1 _ "lump::wheel" 0 eq_refl))
      as (lk' & Hrun & Hfind & _).
    + apply not_elem_of_nil.
    + exists lk'. split; [exact Hrun|exact Hfind].
Defined.

(* ===================================================================== *)
(** ** Facts: loops *)
(* ===================================================================== *)

Section LoopFacts.
Context {D A : Type}.
Implicit Types (f g : A -> M D unit) (s : State D).

Lemma forM__app f xs ys s :
  forM_ f (xs ++ ys) s = bind (forM_ f xs) (fun _ => forM_ f ys) s.
Proof.
  revert s. induction xs as [|x xs IH]; intros s; simpl; [done|].
  unfold bind in *. destruct (f x s) as [[[] s1]|e]; [|done].
  apply IH.
Qed.

Lemma forM__ext f g xs :
  (forall x s, f x s = g x s) -> forall s, forM_ f xs s = forM_ g xs s.
Proof.
  intros Hfg. induction xs as [|x xs IH]; intros s; simpl; [done|].
  unfold bind. rewrite Hfg. destruct (g x s) as [[[] s1]|e]; [apply IH|done].
Qed.

Lemma forM__map {B : Type} f (h : B -> A) (xs : list B) s :
  forM_ f (map h xs) s = forM_ (fun x => f (h x)) xs s.
Proof.
  revert s. induction xs as [|x xs IH]; intros s; simpl; [done|].
  unfold bind. destruct (f (h x) s) as [[[] s1]|e]; [apply IH|done].
Qed.

(** A property kept by every pass of a loop is kept by the loop. *)
Lemma forM__invariant (P : State D -> Prop) f xs :
  (forall x s s', x ∈ xs -> P s -> f x s = Ok (tt, s') -> P s') ->
  forall s s', P s -> forM_ f xs s = Ok (tt, s') -> P s'.
Proof.
  induction xs as [|x xs IH]; intros Hstep s s' HP; simpl.
  - unfold ret. by intros [= <-].
  - intros Hrun. apply bind_inv in Hrun as ([] & s1 & Hx & Hrest).
    apply (IH (fun y t t' Hy => Hstep y t t' (list_elem_of_further _ _ _ Hy)) s1); [|done].
    eapply Hstep; [by left|done..].
Qed.

End LoopFacts.

(* ===================================================================== *)
(** ** Theorems: ReduceVisualsToParent, ReduceCollisionsToParent *)
(* ===================================================================== *)

Section Lumping.
Context {D : Type} {Dbl : Double D}.
Implicit Types (s : State D) (lk pk : Link D) (k : GeomKind).

Lemma lumped_into_refl k pk : lumped_into k [] pk pk.
Proof.
  repeat split; try done.
  - intros n it Hin. by apply elem_of_nil in Hin.
  - auto.
Qed.

Lemma lumped_into_trans k L1 L2 pk pk1 pk2 :
  lumped_into k L1 pk pk1 -> lumped_into k L2 pk1 pk2 ->
  lumped_into k (L1 ++ L2) pk pk2.
Proof.
  intros (Hn1 & Hp1 & Hj1 & Hin1 & Hmono1 & Hnew1)
         (Hn2 & Hp2 & Hj2 & Hin2 & Hmono2 & Hnew2).
  repeat split; try congruence.
  - intros n it Hin. apply elem_of_app in Hin as [Hin|Hin]; auto.
  - auto.
  - intros g y Hy. destruct (Hnew2 g y Hy) as [Hy1|Hy2].
    + destruct (Hnew1 g y Hy1) as [?|?]; [by left|right].
      apply elem_of_app. by left.
    + right. apply elem_of_app. by right.
Qed.

Lemma links_set_geoms k v s : links (set_geoms k v s) = links s.
Proof. by destruct k. Qed.

(** One pass of the inner loop, read back from its result. *)
Lemma lump_geom_inv k l n it s s' lk :
  links s !! l = Some lk ->
  lump_geom k l n it s = Ok (tt, s') ->
  exists p pk pk',
    parent_link lk = Some p /\ p <> l /\
    links s !! p = Some pk /\ links s' !! p = Some pk' /\
    (forall i, i <> p -> links s' !! i = links s !! i) /\
    lumped_into k [(n, it)] pk pk'.
Proof.
  intros Hl. unfold lump_geom, get_geom.
  unfold bind at 1 2, gets, deref.
  destruct (geoms k s !! it) as [g|]; [simpl|done].
  rewrite (bind_Ok _ _ _ _ _ (get_link_Ok _ _ _ Hl)).
  destruct (parent_joint lk) as [j|]; [simpl|done].
  unfold bind at 1 2, ret, put_geom, modify.
  destruct (parent_link lk) as [p|]; [simpl|done].
  unfold bind at 1. simpl.
  destruct (Nat.eqb_spec p l) as [->|Hpl]; [done|].
  set (s1 := set_geoms k _ s).
  assert (Hlinks1 : links s1 = links s) by apply links_set_geoms.
  destruct (links s !! p) as [pk|] eqn:Hp; last first.
  { unfold ReduceGeomToParent, get_link, bind, gets, deref.
    rewrite Hlinks1, Hp. done. }
  assert (Hp1 : links s1 !! p = Some pk) by (by rewrite Hlinks1).
  destruct (ReduceGeomToParent_adds_unless_present k s1 p pk n it Hp1)
    as [Hpresent Habsent].
  destruct (decide (it ∈ group_items k pk n)) as [Hin|Hnin].
  - rewrite (Hpresent Hin). intros [= <-].
    exists p, pk, pk. simpl. rewrite Hlinks1.
    repeat split; try done.
    + intros n' it' Hi. apply list_elem_of_singleton in Hi as [= -> ->]. done.
    + auto.
  - destruct (Habsent Hnin)
      as (pk' & -> & Hnew & Hother & _ & Hname & Hpar & Hjoint & _).
    intros [= <-]. exists p, pk, pk'. simpl. rewrite Hlinks1.
    pose proof (lookup_lt_Some _ _ _ Hp) as Hlt.
    split; [done|]. split; [done|]. split; [done|].
    split; [by apply list_lookup_insert_eq|].
    split; [intros i Hi; by apply list_lookup_insert_ne|].
    unfold lumped_into, group_items in *.
    split; [done|]. split; [done|]. split; [done|].
    split; [|split].
    + intros n' it' Hi. apply list_elem_of_singleton in Hi as [= -> ->].
      rewrite Hnew. simpl. apply elem_of_app. right. by left.
    + intros g' y Hy. destruct (decide (g' = n)) as [->|Hg].
      * rewrite Hnew. simpl. apply elem_of_app. by left.
      * by rewrite Hother.
    + intros g' y Hy. destruct (decide (g' = n)) as [->|Hg].
      * rewrite Hnew in Hy. simpl in Hy.
        apply elem_of_app in Hy as [Hy|Hy]; [by left|right].
        apply list_elem_of_singleton in Hy as ->. by left.
      * rewrite Hother in Hy by done. by left.
Qed.

Lemma lump_loop_inv k l lk L :
  forall s s' p pk,
    links s !! l = Some lk -> parent_link lk = Some p ->
    links s !! p = Some pk ->
    forM_ (fun e => lump_geom k l (fst e) (snd e)) L s = Ok (tt, s') ->
    exists pk',
      links s' !! p = Some pk' /\ links s' !! l = Some lk /\
      (forall i, i <> p -> links s' !! i = links s !! i) /\
      lumped_into k L pk pk'.
Proof.
  induction L as [|[n it] L IH]; intros s s' p pk Hl Hpar Hp; simpl.
  - unfold ret. intros [= <-]. exists pk. auto using lumped_into_refl.
  - intros Hrun. apply bind_inv in Hrun as ([] & s1 & Hstep & Hrest).
    destruct (lump_geom_inv _ _ _ _ _ _ _ Hl Hstep)
      as (p0 & pk0 & pk1 & Hpar0 & Hne & Hp0 & Hp1 & Hframe & Hlump).
    assert (p0 = p) as -> by congruence.
    assert (pk0 = pk) as -> by congruence.
    assert (Hl1 : links s1 !! l = Some lk) by (rewrite Hframe; done).
    destruct (IH s1 s' p pk1 Hl1 Hpar Hp1 Hrest)
      as (pk' & Hp' & Hl' & Hframe' & Hlump').
    exists pk'. split; [done|]. split; [done|]. split.
    + intros i Hi. rewrite Hframe', Hframe; done.
    + apply (lumped_into_trans k [(n, it)] L pk pk1 pk'); done.
Qed.

Lemma lump_nested_flat k l (linkName : string) gs :
  forall s,
    forM_ (fun entry : string * list GeomPtr =>
             if String.prefix "lump::" (fst entry) then
               forM_ (lump_geom k l (fst entry)) (snd entry)
             else
               forM_ (lump_geom k l ("lump::" +:+ linkName)) (snd entry))
          gs s
    = forM_ (fun e => lump_geom k l (fst e) (snd e))
            (flat_map (fun entry : string * list GeomPtr =>
                         map (pair (lumpGroupName_of linkName (fst entry)))
                             (snd entry)) gs) s.
Proof.
  induction gs as [|[g items] gs IH]; intros s; simpl; [done|].
  rewrite forM__app. unfold bind. rewrite forM__map.
  unfold lumpGroupName_of. simpl.
  destruct (String.prefix "lump::" g).
  - destruct (forM_ _ items s) as [[[] s1]|e]; [apply IH|done].
  - destruct (forM_ _ items s) as [[[] s1]|e]; [apply IH|done].
Qed.

Lemma ReduceGeomsToParent_flat k l s lk :
  links s !! l = Some lk ->
  ReduceGeomsToParent k l s
  = forM_ (fun e => lump_geom k l (fst e) (snd e)) (lump_pairs k lk)
          (set_calls (calls s ++ [(match k with
                                   | Visual => VisualsToParent
                                   | Collision => CollisionsToParent
                                   end, l)]) s).
Proof.
  intros Hl. unfold ReduceGeomsToParent, called.
  unfold bind at 1, modify.
  rewrite (bind_Ok _ _ _ _ _ (get_link_Ok (set_calls _ s) _ _ Hl)).
  apply lump_nested_flat.
Qed.

Lemma elem_of_lump_pairs k lk n x :
  (n, x) ∈ lump_pairs k lk <->
  exists g items, (g, items) ∈ groups k lk /\ x ∈ items /\
                  n = lumpGroupName_of (name lk) g.
Proof.
  unfold lump_pairs. rewrite list_elem_of_In, in_flat_map. split.
  - intros ([g items] & Hin & Hx). simpl in Hx.
    apply in_map_iff in Hx as (y & [= <- <-] & Hy).
    exists g, items. by rewrite !list_elem_of_In.
  - intros (g & items & Hin & Hx & ->). exists (g, items).
    split; [by apply list_elem_of_In|]. simpl.
    apply in_map_iff. exists x. split; [done|by apply list_elem_of_In].
Qed.

Lemma lumpGroupName_of_idempotent (n1 n2 g : string) :
  lumpGroupName_of n2 (lumpGroupName_of n1 g) = lumpGroupName_of n1 g.
Proof.
  unfold lumpGroupName_of.
  destruct (String.prefix "lump::" g) eqn:Hg; [by rewrite Hg|].
  assert (String.prefix "lump::" ("lump::" +:+ n1) = true) as ->
    by (destruct n1; reflexivity).
  reflexivity.
Qed.

Lemma group_items_In k lk g x :
  x ∈ group_items k lk g ->
  exists items, (g, items) ∈ groups k lk /\ x ∈ items.
Proof.
  unfold group_items.
  destruct (map_find g (groups k lk)) as [items|] eqn:Hf; simpl.
  - intros Hx. exists items. split; [by apply map_find_In|done].
  - intros Hx. by apply elem_of_nil in Hx.
Qed.

Lemma geoms_after_lump_geom k l n it s s' :
  lump_geom k l n it s = Ok (tt, s') ->
  forall x, is_Some (geoms k s !! x) -> is_Some (geoms k s' !! x).
Proof.
  intros Hrun x Hx. revert Hrun. unfold lump_geom, get_geom.
  unfold bind at 1 2, gets, deref.
  destruct (geoms k s !! it) as [g|]; [simpl|done].
  unfold bind at 1. destruct (get_link l s) as [[lk s0]|] eqn:Hl; [|done].
  apply get_link_inv in Hl as [-> Hl].
  unfold bind at 1. destruct (parent_joint lk) as [j|]; [simpl|done].
  unfold bind at 1, put_geom, modify.
  unfold bind at 1. destruct (parent_link lk) as [p|]; [simpl|done].
  destruct (p =? l)%nat; [done|].
  set (s1 := set_geoms k _ s).
  assert (Hx1 : is_Some (geoms k s1 !! x)).
  { unfold s1. destruct k; simpl; apply lookup_lt_is_Some;
      rewrite length_insert; by apply lookup_lt_is_Some. }
  destruct (links s1 !! p) as [pk|] eqn:Hp; last first.
  { unfold ReduceGeomToParent, get_link, bind, gets, deref. by rewrite Hp. }
  destruct (ReduceGeomToParent_adds_unless_present k s1 p pk n it Hp)
    as [Hpresent Habsent].
  destruct (decide (it ∈ group_items k pk n)) as [Hin|Hnin].
  - rewrite (Hpresent Hin). intros [= <-]. by destruct k.
  - destruct (Habsent Hnin) as (pk' & -> & _). intros [= <-]. by destruct k.
Qed.

Lemma lump_geom_total k l n it s lk p pk :
  links s !! l = Some lk -> parent_link lk = Some p -> p <> l ->
  links s !! p = Some pk -> is_Some (parent_joint lk) ->
  is_Some (geoms k s !! it) ->
  exists s', lump_geom k l n it s = Ok (tt, s').
Proof.
  intros Hl Hpar Hne Hp [j Hj] [g Hg]. unfold lump_geom, get_geom.
  unfold bind at 1 2, gets, deref. rewrite Hg. simpl.
  rewrite (bind_Ok _ _ _ _ _ (get_link_Ok _ _ _ Hl)). rewrite Hj, Hpar. simpl.
  unfold bind at 1 2, ret, put_geom, modify. unfold bind at 1. simpl.
  apply Nat.eqb_neq in Hne. rewrite Hne.
  set (s1 := set_geoms k _ s).
  assert (Hp1 : links s1 !! p = Some pk) by (unfold s1; by rewrite links_set_geoms).
  destruct (ReduceGeomToParent_adds_unless_present k s1 p pk n it Hp1)
    as [Hpresent Habsent].
  destruct (decide (it ∈ group_items k pk n)) as [Hin|Hnin].
  - rewrite (Hpresent Hin). eauto.
  - destruct (Habsent Hnin) as (pk' & -> & _). eauto.
Qed.

Lemma lump_loop_total k l lk p L :
  parent_link lk = Some p -> p <> l -> is_Some (parent_joint lk) ->
  forall s pk,
    links s !! l = Some lk -> links s !! p = Some pk ->
    (forall e, e ∈ L -> is_Some (geoms k s !! snd e)) ->
    exists s', forM_ (fun e => lump_geom k l (fst e) (snd e)) L s = Ok (tt, s').
Proof.
  intros Hpar Hne Hj.
  induction L as [|[n it] L IH]; intros s pk Hl Hp Hvalid; simpl.
  - unfold ret. eauto.
  - destruct (lump_geom_total k l n it s lk p pk Hl Hpar Hne Hp Hj) as [s1 Hs1].
    { apply (Hvalid (n, it)). by left. }
    rewrite (bind_Ok _ _ _ _ _ Hs1).
    destruct (lump_geom_inv _ _ _ _ _ _ _ Hl Hs1)
      as (p0 & pk0 & pk1 & Hpar0 & _ & Hp0 & Hp1 & Hframe & _).
    assert (p0 = p) as -> by congruence.
    apply (IH s1 pk1); [by rewrite Hframe|done|].
    intros e He. apply (geoms_after_lump_geom _ _ _ _ _ _ Hs1).
    apply Hvalid. by right.
Qed.

Lemma ReduceGeomsToParent_lumps k :
  lumps_groups_to_parent (D := D) k (ReduceGeomsToParent k).
Proof.
  intros s l p lk pk Hl Hpar Hne Hp Hj Hvalid.
  rewrite (ReduceGeomsToParent_flat k l s lk Hl).
  set (s0 := set_calls _ s).
  destruct (lump_loop_total k l lk p (lump_pairs k lk) Hpar Hne Hj s0 pk Hl Hp)
    as [s1 Hs1].
  { intros [n x] He. apply elem_of_lump_pairs in He as (g & items & Hg & Hx & _).
    unfold s0. simpl. replace (geoms k (set_calls _ s)) with (geoms k s)
      by (by destruct k). eauto. }
  destruct (lump_loop_inv k l lk _ s0 s1 p pk Hl Hpar Hp Hs1)
    as (pk1 & Hp1 & Hl1 & Hframe & Hn1 & Hpar1 & Hj1 & Hin1 & Hmono1 & Hnew1).
  exists s1, pk1. split; [done|]. split; [done|].
  assert (Hitems : forall g items x,
             (g, items) ∈ groups k lk -> x ∈ items ->
             x ∈ group_items k pk1 (lumpGroupName_of (name lk) g)).
  { intros g items x Hg Hx. apply Hin1. apply elem_of_lump_pairs. eauto. }
  split; [exact Hitems|]. split.
  - intros g' x Hx. destruct (Hnew1 g' x Hx) as [?|Hpair]; [by left|right].
    apply elem_of_lump_pairs in Hpair as (g & items & ? & ? & ->). eauto.
  - intros gp s2 Hgp [gpk Hgpk] Hrun2.
    rewrite (ReduceGeomsToParent_flat k p s1 pk1 Hp1) in Hrun2.
    assert (Hgp1 : exists gpk1, links s1 !! gp = Some gpk1).
    { destruct (decide (gp = p)) as [->|Hgpne]; [eauto|].
      exists gpk. rewrite Hframe by done. done. }
    destruct Hgp1 as [gpk1 Hgpk1].
    destruct (lump_loop_inv k p pk1 _ (set_calls _ s1) s2 gp gpk1 Hp1
                (eq_trans Hpar1 Hgp)
                Hgpk1 Hrun2)
      as (gpk2 & Hgp2 & _ & _ & _ & _ & _ & Hin2 & _ & _).
    exists gpk2. split; [done|]. intros g items x Hg Hx.
    destruct (group_items_In _ _ _ _ (Hitems g items x Hg Hx))
      as (items1 & Hg1 & Hx1).
    change (x ∈ group_items k gpk2 (lumpGroupName_of (name lk) g)).
    rewrite <- (lumpGroupName_of_idempotent (name lk) (name pk1) g).
    apply Hin2. apply elem_of_lump_pairs. eauto.
Qed.

(** C3. [ReduceVisualsToParent] and [ReduceCollisionsToParent] re-add a
    group whose name starts with "lump::" to the parent under the same
    name, and add the items of any other group under "lump::" followed by
    the name of the lumped link; lumping the parent in turn keeps those
    names, so that no group name gets the prefix twice by lumping again
    (the name computed for an already computed name is that name). *)
Theorem C3_lumped_group_names :
  lumps_groups_to_parent (D := D) Visual ReduceVisualsToParent /\
  lumps_groups_to_parent (D := D) Collision ReduceCollisionsToParent /\
  (forall n1 n2 g : string,
      lumpGroupName_of n2 (lumpGroupName_of n1 g) = lumpGroupName_of n1 g) /\
  lumpGroupName_of "chassis" (lumpGroupName_of "wheel" "default")
  = "lump::wheel".
Proof.
  split; [apply ReduceGeomsToParent_lumps|].
  split; [apply ReduceGeomsToParent_lumps|].
  split; [apply lumpGroupName_of_idempotent|reflexivity].
Qed.

End Lumping.

Lemma C3_lumped_group_names_witness :
  exists s1 s2 chassis1 base2,
    ReduceCollisionsToParent 2 Run.chain = Ok (tt, s1) /\
    links s1 !! 1 = Some chassis1 /\
    0 ∈ group_items Collision chassis1 "lump::wheel" /\
    ReduceCollisionsToParent 1 s1 = Ok (tt, s2) /\
    links s2 !! 0 = Some base2 /\
    0 ∈ group_items Collision base2 "lump::wheel".
Proof.
  destruct (C3_lumped_group_names (D := Z)) as (_ & Hc & _).
  destruct (Hc Run.chain 2 1 _ _ eq_refl eq_refl ltac:(discriminate) eq_refl
               ltac:(eexists; reflexivity))
    as (s1 & chassis1 & Hrun1 & Hp1 & Hitems & _ & Hagain).
  { intros g items x Hg Hx.
    apply list_elem_of_singleton in Hg as [= -> ->].
    apply list_elem_of_singleton in Hx as ->. by eexists. }
  assert (Hrun2 : exists s2, ReduceCollisionsToParent 1 s1 = Ok (tt, s2)).
  { revert Hrun1. vm_compute. intros [= <-]. by eexists. }
  destruct Hrun2 as [s2 Hrun2].
  destruct (Hagain 0 s2 eq_refl ltac:(eexists; reflexivity) Hrun2)
    as (base2 & Hb2 & Hitems2).
  exists s1, s2, chassis1, base2.
  split; [exact Hrun1|]. split; [exact Hp1|].
  split; [apply (Hitems "default" [0] 0); by left|].
  split; [exact Hrun2|]. split; [exact Hb2|].
  apply (Hitems2 "default" [0] 0); by left.
Defined.

(* ===================================================================== *)
(** ** Theorems: ReduceSDFExtensionToParent *)
(* ===================================================================== *)

Section Extensions.
Context {D : Type} {Dbl : Double D} {Blob : BlobRewriting D}.
Implicit Types (s : State D) (lk pk : Link D).






Lemma Forall_map_set {V : Type} (P : string * V -> Prop) k v
    (m : list (string * V)) :
  Forall P m -> (forall k', P (k', v)) -> Forall P (map_set k v m).
Proof.
  intros Hm Hv. induction Hm as [|[k' v'] m Hx Hm IH]; simpl; [done|].
  destruct (String.eqb k' k); constructor; auto.
Qed.

Lemma Forall_map_insert {V : Type} (P : string * V -> Prop) k v
    (m : list (string * V)) :
  Forall P m -> P (k, v) -> Forall P (map_insert k v m).
Proof.
  intros Hm Hv. induction Hm as [|[k' v'] m Hx Hm IH]; simpl.
  - by constructor.
  - destruct (String.eqb k' k); [by constructor|].
    destruct (String.ltb k k'); repeat constructor; auto.
Qed.

Lemma Forall_map_find {V : Type} (P : string * V -> Prop) k v
    (m : list (string * V)) :
  Forall P m -> map_find k m = Some v -> P (k, v).
Proof.
  intros Hm Hf. apply map_find_In in Hf.
  rewrite Forall_forall in Hm. by apply Hm.
Qed.




End Extensions.


(* ===================================================================== *)
(** ** Theorems: ReduceFixedJoints *)
(* ===================================================================== *)

Section RunInversion.
Context {D : Type}.
Implicit Types (s : State D).

Lemma ret_inv {A : Type} (a b : A) s s' :
  ret a s = Ok (b, s') -> b = a /\ s' = s.
Proof. unfold ret. by intros [= <- <-]. Qed.

Lemma gets_inv {A : Type} (f : State D -> A) a s s' :
  gets f s = Ok (a, s') -> a = f s /\ s' = s.
Proof. unfold gets. by intros [= <- <-]. Qed.

Lemma modify_inv (f : State D -> State D) u s s' :
  modify f s = Ok (u, s') -> s' = f s.
Proof. unfold modify. by intros [= <- <-]. Qed.

Lemma deref_inv {A : Type} (o : option A) a s s' :
  deref o s = Ok (a, s') -> o = Some a /\ s' = s.
Proof. destruct o; simpl; [|done]. unfold ret. by intros [= <- <-]. Qed.

Lemma get_ext_inv e r s s' :
  get_ext e s = Ok (r, s') -> s' = s /\ extensions s !! e = Some r.
Proof.
  unfold get_ext. intros H. apply bind_inv in H as (es & s1 & Hg & Hd).
  apply gets_inv in Hg as [-> ->]. apply deref_inv in Hd as [-> ->]. done.
Qed.

Lemma get_geom_inv k g v s s' :
  get_geom k g s = Ok (v, s') -> s' = s /\ geoms k s !! g = Some v.
Proof.
  unfold get_geom. intros H. apply bind_inv in H as (es & s1 & Hg & Hd).
  apply gets_inv in Hg as [-> ->]. apply deref_inv in Hd as [-> ->]. done.
Qed.

End RunInversion.

(** Read a run that returned back into its statements. *)
Ltac inv_run H :=
  repeat match type of H with
         | bind _ _ _ = Ok _ =>
             let a := fresh "a" in
             let s := fresh "s" in
             let H1 := fresh "Hrun" in
             apply bind_inv in H as (a & s & H1 & H)
         end.

(** The same for every statement among the hypotheses, the elementary
    statements being replaced by what they return. *)
Ltac inv_step :=
  match goal with
  | u : unit |- _ => destruct u
  | H : bind _ _ _ = Ok _ |- _ =>
      let a := fresh "a" in
      let s := fresh "s" in
      let H1 := fresh "Hrun" in
      apply bind_inv in H as (a & s & H1 & H)
  | H : ret _ _ = Ok _ |- _ => apply ret_inv in H as [? ?]; subst
  | H : gets _ _ = Ok _ |- _ => apply gets_inv in H as [? ?]; subst
  | H : modify _ _ = Ok _ |- _ => apply modify_inv in H; subst
  | H : called _ _ _ = Ok _ |- _ => apply modify_inv in H; subst
  | H : put_ext _ _ _ = Ok _ |- _ => apply modify_inv in H; subst
  | H : put_link _ _ _ = Ok _ |- _ => apply modify_inv in H; subst
  | H : put_geom _ _ _ _ = Ok _ |- _ => apply modify_inv in H; subst
  | H : write_log _ _ = Ok _ |- _ => apply modify_inv in H; subst
  | H : deref _ _ = Ok _ |- _ =>
      let E := fresh "Hderef" in apply deref_inv in H as [E ?]; subst
  | H : get_link _ _ = Ok _ |- _ =>
      let E := fresh "Hlink" in apply get_link_inv in H as [? E]; subst
  | H : get_ext _ _ = Ok _ |- _ =>
      let E := fresh "Hext" in apply get_ext_inv in H as [? E]; subst
  | H : get_geom _ _ _ = Ok _ |- _ =>
      let E := fresh "Hgeom" in apply get_geom_inv in H as [? E]; subst
  | H : fail _ _ = Ok _ |- _ => discriminate H
  | H : Fail _ = Ok _ |- _ => discriminate H
  end.

Section Shape.
Context {D : Type} {Dbl : Double D} {Blob : BlobRewriting D}.
Implicit Types (s : State D) (lk pk : Link D).

Lemma keeps_links_refl s : keeps_links s s.
Proof. by split. Qed.

Lemma keeps_links_trans s1 s2 s3 :
  keeps_links s1 s2 -> keeps_links s2 s3 -> keeps_links s1 s3.
Proof. intros [? ?] [? ?]. split; congruence. Qed.

Lemma same_shape_refl s : same_shape s s.
Proof. intros i lk Hi. exists lk. repeat split; auto. Qed.

Lemma same_shape_trans s1 s2 s3 :
  same_shape s1 s2 -> same_shape s2 s3 -> same_shape s1 s3.
Proof.
  intros H12 H23 i lk Hi.
  destruct (H12 i lk Hi) as (lk2 & Hi2 & Hn2 & Hm2 & Hp2 & Hg2).
  destruct (H23 i lk2 Hi2) as (lk3 & Hi3 & Hn3 & Hm3 & Hp3 & Hg3).
  exists lk3. split; [done|]. split; [congruence|]. split; [congruence|].
  split; [|auto].
  intros Hm. rewrite Hp3 by congruence. auto.
Qed.

Lemma same_shape_links s s' : links s' = links s -> same_shape s s'.
Proof. intros Heq i lk Hi. exists lk. rewrite Heq. repeat split; auto. Qed.

Lemma same_shape_put s i lk lk' :
  links s !! i = Some lk ->
  name lk' = name lk -> movable lk' = movable lk ->
  (movable lk = false -> parent_link lk' = parent_link lk) ->
  (forall k g x, x ∈ group_items k lk g -> x ∈ group_items k lk' g) ->
  same_shape s (set_links (<[i := lk']> (links s)) s).
Proof.
  intros Hi Hn Hm Hp Hg i0 lk0 Hi0. simpl.
  destruct (decide (i0 = i)) as [->|Hne].
  - exists lk'. rewrite list_lookup_insert_eq by (by eapply lookup_lt_Some).
    assert (lk0 = lk) as -> by congruence. auto.
  - exists lk0. rewrite list_lookup_insert_ne by done. repeat split; auto.
Qed.

Lemma reduces_with_refl s : reduces_with [] s s.
Proof. split; [apply same_shape_refl|by rewrite app_nil_r]. Qed.

Lemma reduces_with_trans m1 m2 s1 s2 s3 :
  reduces_with m1 s1 s2 -> reduces_with m2 s2 s3 ->
  reduces_with (m1 ++ m2) s1 s3.
Proof.
  intros [Hs1 Hc1] [Hs2 Hc2]. split.
  - by eapply same_shape_trans.
  - rewrite Hc2, Hc1. by rewrite app_assoc.
Qed.

Lemma keeps_links_reduces s s' : keeps_links s s' -> reduces_with [] s s'.
Proof.
  intros [Hl Hc]. split; [by apply same_shape_links|by rewrite app_nil_r].
Qed.

Lemma exempt_same_shape s s' l : same_shape s s' -> exempt s l -> exempt s' l.
Proof.
  intros Hshape [(lk & Hl & Hm)|(lk & p & pk & Hl & Hpar & Hp & Hw)].
  - destruct (Hshape l lk Hl) as (lk' & Hl' & _ & Hm' & _).
    left. exists lk'. split; [done|congruence].
  - destruct (Hshape l lk Hl) as (lk' & Hl' & _ & Hm' & Hpar' & _).
    destruct (movable lk) eqn:Hmov.
    + left. exists lk'. split; [done|congruence].
    + right. destruct (Hshape p pk Hp) as (pk' & Hp' & Hn' & _).
      exists lk', p, pk'. rewrite Hpar' by done. repeat split; congruence.
Qed.

(** A loop whose every pass is in a preorder is in it. *)
Lemma forM__preorder {A : Type} (R : State D -> State D -> Prop)
    (f : A -> M D unit) (xs : list A) :
  (forall s, R s s) ->
  (forall s1 s2 s3, R s1 s2 -> R s2 s3 -> R s1 s3) ->
  (forall x s s', x ∈ xs -> f x s = Ok (tt, s') -> R s s') ->
  forall s s', forM_ f xs s = Ok (tt, s') -> R s s'.
Proof.
  intros Hrefl Htrans Hstep s s' Hrun.
  apply (forM__invariant (fun t => R s t) f xs) with (s := s);
    [|apply Hrefl|exact Hrun].
  intros x t t' Hx Ht Hf. eapply Htrans; [exact Ht|]. by eapply Hstep.
Qed.

Lemma reduces_nothing_trans s1 s2 s3 :
  reduces_with [] s1 s2 -> reduces_with [] s2 s3 -> reduces_with [] s1 s3.
Proof. apply (reduces_with_trans [] []). Qed.

Lemma ReduceGeomToParent_reduces k p n it s s' :
  ReduceGeomToParent k p n it s = Ok (tt, s') -> reduces_with [] s s'.
Proof.
  destruct (links s !! p) as [pk|] eqn:Hp; last first.
  { unfold ReduceGeomToParent, get_link, bind, gets, deref. by rewrite Hp. }
  destruct (ReduceGeomToParent_adds_unless_present k s p pk n it Hp)
    as [Hpresent Habsent].
  destruct (decide (it ∈ group_items k pk n)) as [Hin|Hnin].
  - rewrite (Hpresent Hin). intros [= <-]. by apply keeps_links_reduces.
  - destruct (Habsent Hnin)
      as (pk' & -> & Hnew & Hother & Hkind & Hn & Hpar & Hj & _).
    intros [= <-]. split; [|simpl; by rewrite app_nil_r].
    apply (same_shape_put s p pk pk' Hp Hn); [|done|].
    + unfold movable. by rewrite Hj.
    + intros k' g x. unfold group_items in *.
      destruct (decide (k' = k)) as [->|Hk]; [|by rewrite Hkind].
      destruct (decide (g = n)) as [->|Hg]; [|by rewrite Hother].
      rewrite Hnew. simpl. intros Hx. apply elem_of_app. by left.
Qed.

Lemma lump_geom_reduces k l n it s s' :
  lump_geom k l n it s = Ok (tt, s') -> reduces_with [] s s'.
Proof.
  unfold lump_geom. intros H. inv_run H.
  apply get_geom_inv in Hrun as [-> _].
  apply get_link_inv in Hrun0 as [-> _]. apply deref_inv in Hrun1 as [_ ->].
  unfold put_geom in Hrun2. apply modify_inv in Hrun2 as ->.
  apply deref_inv in Hrun3 as [_ ->].
  destruct (a3 =? l)%nat; [done|].
  apply ReduceGeomToParent_reduces in H.
  eapply reduces_nothing_trans; [|exact H].
  apply keeps_links_reduces. split; by destruct k.
Qed.

Lemma ReduceGeomsToParent_reduces k l s s' :
  ReduceGeomsToParent k l s = Ok (tt, s') ->
  reduces_with [(match k with
                 | Visual => VisualsToParent
                 | Collision => CollisionsToParent
                 end, l)] s s'.
Proof.
  unfold ReduceGeomsToParent, called. intros H. inv_run H.
  apply modify_inv in Hrun as ->. apply get_link_inv in Hrun0 as [-> _].
  match type of H with
  | forM_ _ _ ?s1 = _ => apply (reduces_with_trans [_] [] s s1 s')
  end.
  - split; [by apply same_shape_links|reflexivity].
  - revert H. apply forM__preorder;
      [apply reduces_with_refl|apply reduces_nothing_trans|].
    intros [g items] t t' _. simpl.
    destruct (String.prefix "lump::" g);
      (apply forM__preorder;
         [apply reduces_with_refl|apply reduces_nothing_trans|]);
      intros it u u' _; apply lump_geom_reduces.
Qed.

Lemma put_ext_keeps_links e v u s s' :
  put_ext e v s = Ok (u, s') -> keeps_links s s'.
Proof. unfold put_ext. intros H. apply modify_inv in H as ->. by split. Qed.

Lemma FrameReplace_blobs_keeps_links l t bs :
  forall s bs' s',
    FrameReplace_blobs l t bs s = Ok (bs', s') -> keeps_links s s'.
Proof.
  induction bs as [|b bs IH]; intros s bs' s'; simpl.
  - intros H. apply ret_inv in H as [_ ->]. apply keeps_links_refl.
  - intros H. inv_run H.
    apply get_link_inv in Hrun as [-> _]. apply deref_inv in Hrun0 as [_ ->].
    apply get_link_inv in Hrun1 as [-> _].
    destruct (blob_FrameReplace _ _ _ _ _) as [[b' msgs]|]; [|done].
    inv_run H. apply modify_inv in Hrun as ->. apply IH in Hrun0.
    apply ret_inv in H as [_ ->].
    eapply keeps_links_trans; [|exact Hrun0]. by split.
Qed.

Lemma ReduceSDFExtensionFrameReplace_keeps_links ge l s s' :
  ReduceSDFExtensionFrameReplace ge l s = Ok (tt, s') -> keeps_links s s'.
Proof.
  unfold ReduceSDFExtensionFrameReplace. intros H. inv_run H.
  apply get_ext_inv in Hrun as [-> _].
  apply FrameReplace_blobs_keeps_links in Hrun0.
  apply get_ext_inv in Hrun1 as [-> _]. apply put_ext_keeps_links in H.
  by eapply keeps_links_trans.
Qed.

Lemma reduction_transform_loop_keeps_links lk (ext : list nat) s s' :
  forM_ (fun ge : nat =>
           do e <- get_ext ge;
           do j <- deref (parent_joint lk);
           put_ext ge
             (ReduceSDFExtensionsTransform
                (set_reductionTransform
                   (TransformToParentFrame_su
                      (reductionTransform e)
                      (parent_to_joint_origin_transform j))
                   e))) ext s = Ok (tt, s') ->
  keeps_links s s'.
Proof.
  apply forM__preorder; [apply keeps_links_refl|apply keeps_links_trans|].
  intros ge t t' _ Hge. repeat inv_step. by split.
Qed.

Lemma frame_replace_loop_keeps_links l (table : list (string * list nat)) s s' :
  forM_ (fun entry : string * list nat =>
           forM_ (fun ge : nat => ReduceSDFExtensionFrameReplace ge l)
                 (snd entry)) table s = Ok (tt, s') ->
  keeps_links s s'.
Proof.
  apply forM__preorder; [apply keeps_links_refl|apply keeps_links_trans|].
  intros [ref ges] t t' _. simpl. apply forM__preorder;
    [apply keeps_links_refl|apply keeps_links_trans|].
  intros ge u u' _. apply ReduceSDFExtensionFrameReplace_keeps_links.
Qed.

Lemma ReduceSDFExtensionToParent_reduces l s s' :
  ReduceSDFExtensionToParent l s = Ok (tt, s') ->
  reduces_with [(SDFExtensionToParent, l)] s s'.
Proof.
  unfold ReduceSDFExtensionToParent. intros H. repeat inv_step.
  apply frame_replace_loop_keeps_links in H.
  match goal with
  | Hm : match ?m with _ => _ end _ = Ok (_, ?s2) |- _ =>
      assert (Hmid : keeps_links
                       (set_calls (calls s ++ [(SDFExtensionToParent, l)]) s)
                       s2);
      [destruct m as [ext|]; repeat inv_step|]
  end.
  - match goal with
    | Hl : forM_ _ _ _ = Ok _ |- _ =>
        apply reduction_transform_loop_keeps_links in Hl
    end.
    eapply keeps_links_trans; [eassumption|].
    repeat match goal with
           | Hm : match ?m with _ => _ end _ = Ok _ |- _ =>
               destruct m; repeat inv_step
           | Hm : (if ?b then _ else _) _ = Ok _ |- _ =>
               destruct b; repeat inv_step
           end; by split.
  - apply keeps_links_refl.
  - destruct (keeps_links_trans _ _ _ Hmid H) as [Hl Hc].
    split; [by apply same_shape_links|]. by rewrite Hc.
Qed.

Lemma ReduceInertialToParent_reduces l s s' :
  ReduceInertialToParent l s = Ok (tt, s') ->
  reduces_with [(InertialToParent, l)] s s'.
Proof.
  unfold ReduceInertialToParent, called. intros H.
  apply modify_inv in H as ->. split; [by apply same_shape_links|done].
Qed.

Lemma ReduceJointsToParent_walk_reduces fuel child :
  forall np s np' s',
    ReduceJointsToParent_walk fuel child np s = Ok (np', s') ->
    reduces_with [] s s'.
Proof.
  induction fuel as [|fuel IH]; intros np s np' s'; simpl; [done|].
  intros H. repeat inv_step.
  destruct (parent_joint _) as [nj|]; repeat inv_step;
    [|apply reduces_with_refl].
  destruct (_ && _); repeat inv_step; [|apply reduces_with_refl].
  apply IH in H. eapply reduces_nothing_trans; [|exact H].
  split; [|simpl; by rewrite app_nil_r].
  eapply same_shape_put; [eassumption|done| |done|by intros []].
  unfold movable. simpl.
  match goal with Hd : parent_joint _ = Some _ |- _ => by rewrite Hd end.
Qed.

Lemma ReduceJointsToParent_reduces l children s s' :
  ReduceJointsToParent l children s = Ok (tt, s') ->
  reduces_with [(JointsToParent, l)] s s'.
Proof.
  unfold ReduceJointsToParent. intros H. repeat inv_step.
  match type of H with
  | forM_ _ _ ?s1 = _ => apply (reduces_with_trans [_] [] s s1 s')
  end.
  { split; [by apply same_shape_links|reflexivity]. }
  revert H. apply forM__preorder;
    [apply reduces_with_refl|apply reduces_nothing_trans|].
  intros c t t' _ H. repeat inv_step.
  destruct (negb _) eqn:Hmov; repeat inv_step; [|apply reduces_with_refl].
  match goal with
  | Hw : ReduceJointsToParent_walk _ _ _ _ = Ok _ |- _ =>
      apply ReduceJointsToParent_walk_reduces in Hw as Hwalk
  end.
  eapply reduces_nothing_trans; [exact Hwalk|].
  split; [|simpl; by rewrite app_nil_r].
  destruct Hwalk as [Hshape _].
  match goal with
  | Hc : links t !! c = Some ?ck, Hj : parent_joint ?ck = Some _ |- _ =>
      destruct (Hshape c ck Hc) as (ck1 & Hc1 & _ & Hm1 & _);
      assert (Hmovable : movable ck = true)
        by (unfold movable; rewrite Hj; exact Hmov)
  end.
  match goal with
  | Hc : links ?u !! c = Some ?x, Hj : parent_joint ?x = Some ?pj
    |- same_shape ?u _ =>
      assert (Hx : x = ck1) by congruence;
      apply (same_shape_put u c x _ Hc);
      [done
      |unfold movable; simpl; by rewrite Hj
      |intros Hfalse; rewrite Hx in Hfalse; congruence
      |by intros []]
  end.
Qed.

Lemma child_is_fixed_inv c b s s' :
  child_is_fixed c s = Ok (b, s') -> s' = s.
Proof. unfold child_is_fixed. intros H. by repeat inv_step. Qed.

Lemma lumps_to_parent_inv l b s s' :
  lumps_to_parent l s = Ok (b, s') ->
  s' = s /\ (b = true -> ~ exempt s l).
Proof.
  unfold lumps_to_parent. intros H. repeat inv_step.
  destruct (parent_link _) as [p|] eqn:Hpar; repeat inv_step;
    [|split; [done|discriminate]].
  split; [done|]. intros Hb. apply andb_prop in Hb as [Hname Hfixed].
  apply negb_true_iff, String.eqb_neq in Hname.
  intros [(lk & Hl & Hm)|(lk & p0 & pk & Hl & Hpar0 & Hp & Hw)].
  - assert (lk = a) as -> by congruence. unfold movable in Hm.
    destruct (parent_joint a); [|done]. by rewrite Hfixed in Hm.
  - assert (lk = a) as -> by congruence.
    assert (p0 = p) as -> by congruence. congruence.
Qed.

Lemma spares_exempt_refl s : spares_exempt s s.
Proof. split; [apply same_shape_refl|auto]. Qed.

Lemma spares_exempt_trans s1 s2 s3 :
  spares_exempt s1 s2 -> spares_exempt s2 s3 -> spares_exempt s1 s3.
Proof.
  intros [Hs1 Hc1] [Hs2 Hc2]. split; [by eapply same_shape_trans|].
  intros c Hc. destruct (Hc2 c Hc) as [Hin|Hne]; [by apply Hc1|].
  right. intros He. apply Hne. by eapply exempt_same_shape.
Qed.

Lemma reduces_with_spares made s s' l :
  reduces_with made s s' ->
  Forall (fun c => snd c = l) made -> ~ exempt s l ->
  spares_exempt s s'.
Proof.
  intros [Hs Hc] Hmade Hl. split; [done|]. intros c Hin.
  rewrite Hc in Hin. apply elem_of_app in Hin as [?|Hin]; [by left|right].
  rewrite Forall_forall in Hmade. by rewrite (Hmade c Hin).
Qed.

(** Induction on a tree of links, with the property at hand for every
    subtree. *)
Lemma LinkTree_induction (P : LinkTree -> Prop) :
  (forall l cs, Forall P cs -> P (Node l cs)) -> forall t, P t.
Proof.
  intros Hnode. fix IH 1. intros [l cs]. apply Hnode.
  induction cs as [|c cs IHcs]; constructor; [apply IH|exact IHcs].
Qed.

Lemma ReduceFixedJoints_spares_exempt t :
  forall s s', ReduceFixedJoints t s = Ok (tt, s') -> spares_exempt s s'.
Proof.
  induction t as [l cs IH] using LinkTree_induction. intros s s'. simpl.
  intros H. inv_run H. destruct a, a1.
  assert (Hloop : forall (keep : bool) u u',
             forM_ (fun c : LinkTree =>
                      do fixed <- child_is_fixed (root c);
                      if (if keep then fixed else negb fixed)
                      then ReduceFixedJoints c else ret tt) cs u
             = Ok (tt, u') -> spares_exempt u u').
  { intros keep u u'. apply forM__preorder;
      [apply spares_exempt_refl|apply spares_exempt_trans|].
    intros c t t' Hc Hrun'. inv_run Hrun'.
    apply child_is_fixed_inv in Hrun2 as ->.
    rewrite Forall_forall in IH.
    destruct (if keep then a else negb a).
    - by apply (IH c Hc).
    - apply ret_inv in Hrun' as [_ ->]. apply spares_exempt_refl. }
  apply (Hloop true) in Hrun. apply (Hloop false) in H.
  apply lumps_to_parent_inv in Hrun0 as [-> Hlump].
  eapply spares_exempt_trans; [exact Hrun|].
  eapply spares_exempt_trans; [|exact H].
  destruct a0; [|apply ret_inv in Hrun1 as [_ ->]; apply spares_exempt_refl].
  inv_run Hrun1. destruct a, a0, a1, a2.
  apply ReduceSDFExtensionToParent_reduces in Hrun0.
  apply ReduceInertialToParent_reduces in Hrun2.
  apply ReduceGeomsToParent_reduces in Hrun3.
  apply ReduceGeomsToParent_reduces in Hrun4.
  apply ReduceJointsToParent_reduces in Hrun1.
  pose proof (reduces_with_trans _ _ _ _ _ Hrun0
                (reduces_with_trans _ _ _ _ _ Hrun2
                   (reduces_with_trans _ _ _ _ _ Hrun3
                      (reduces_with_trans _ _ _ _ _ Hrun4 Hrun1)))) as Hall.
  eapply reduces_with_spares; [exact Hall| |by apply Hlump].
  repeat constructor.
Qed.

(** C4. A link whose parent is named "world" is never lumped by
    [ReduceFixedJoints], whatever the type of its parent joint: none of
    [ReduceSDFExtensionToParent], [ReduceInertialToParent],
    [ReduceVisualsToParent], [ReduceCollisionsToParent] and
    [ReduceJointsToParent] is called on it; afterwards it is still a link
    of that name, with that parent unless it hangs on a joint that is not
    fixed, and with every item of its visual and collision groups. *)
Theorem C4_world_children_are_not_lumped (t : LinkTree) (s s' : State D)
    (l : LinkPtr) (lk : Link D) :
  ReduceFixedJoints t s = Ok (tt, s') ->
  links s !! l = Some lk ->
  parent_is_world s l ->
  (forall f, (f, l) ∈ calls s' -> (f, l) ∈ calls s) /\
  exempt s' l /\
  exists lk',
    links s' !! l = Some lk' /\ name lk' = name lk /\
    (movable lk = false -> parent_link lk' = parent_link lk) /\
    forall k g x, x ∈ group_items k lk g -> x ∈ group_items k lk' g.
Proof.
  intros Hrun Hl Hworld.
  destruct (ReduceFixedJoints_spares_exempt t s s' Hrun) as [Hshape Hcalls].
  assert (Hex : exempt s l) by (by right).
  split; [|split].
  - intros f Hin. destruct (Hcalls (f, l) Hin) as [?|Hne]; [done|].
    by destruct Hne.
  - by eapply exempt_same_shape.
  - destruct (Hshape l lk Hl) as (lk' & Hl' & Hn & _ & Hp & Hg).
    exists lk'. auto.
Qed.

End Shape.

Lemma C4_world_children_are_not_lumped_witness :
  exists s',
    ReduceFixedJoints Run.world_tree Run.world_model = Ok (tt, s') /\
    (forall f, (f, 1) ∉ calls s') /\
    (SDFExtensionToParent, 3) ∈ calls s'.
Proof.
  destruct (ReduceFixedJoints Run.world_tree Run.world_model)
    as [[[] s']|e] eqn:Hrun; [|by vm_compute in Hrun].
  exists s'. split; [reflexivity|]. split.
  - intros f Hin.
    destruct (C4_world_children_are_not_lumped _ _ _ 1 _ Hrun eq_refl)
      as [Hcalls _].
    + eexists _, 0, _. repeat split; reflexivity.
    + apply Hcalls in Hin. by apply elem_of_nil in Hin.
  - vm_compute in Hrun. injection Hrun as <-. by left.
Defined.

(* ===================================================================== *)
(** ** Theorems: CreateSDF *)
(* ===================================================================== *)

Section CreateFacts.
Context {D : Type} {Dbl : Double D} {Wr : LinkWriter D}.
Implicit Types (s : State D) (lk : Link D).

Lemma set_log_set_log (v w : list LogMsg) s :
  set_log v (set_log w s) = set_log v s.
Proof. reflexivity. Qed.

(** C6 (amended). For a link not named "world" with no inertial block or
    with a mass [sdf::equal] to zero, [CreateSDF] leaves the document
    as it is (no element for the link, none for any link or joint under
    it, as it does not go into the children) and changes nothing but
    the log, to which it adds between one and four warnings, all about
    this link: one if it has child links, one if it has child joints, one
    if it has a parent joint, and always the one that it is not modeled. *)
Theorem C6_CreateSDF_drops_link_without_inertia
    (_root : TiXmlNode) (l : LinkPtr) (cs : list LinkTree)
    (_transform : sdf.Pose D) s lk :
  links s !! l = Some lk ->
  name lk <> "world" ->
  (inertial lk = None \/
   exists i, inertial lk = Some i /\ sdf_equal (mass i) d0 = true) ->
  exists ws,
    CreateSDF _root (Node l cs) _transform s
    = Ok (_root, set_log (log s ++ ws) s) /\
    length ws
    = (if bool_decide (cs = []) then 0 else 1)
      + (if bool_decide (child_joints lk = []) then 0 else 1)
      + match parent_joint lk with Some _ => 1 | None => 0 end + 1 /\
    1 <= length ws <= 4 /\
    Forall (fun m => exists rest,
                m = sdfwarn ("urdf2sdf: link[" +:+ name lk
                             +:+ "] has no inertia, " +:+ rest)) ws.
Proof.
  intros Hl Hname Hmass. simpl.
  bind_step (get_link_Ok s _ _ Hl).
  assert (no_inertia lk = true) as ->.
  { unfold no_inertia. apply String.eqb_neq in Hname. rewrite Hname. simpl.
    destruct Hmass as [->|(i & -> & ->)]; reflexivity. }
  unfold bind, write_log, modify, ret.
  destruct (bool_decide (cs = [])), (bool_decide (child_joints lk = [])),
    (parent_joint lk) as [j|]; simpl;
    rewrite ?set_log_set_log; simpl;
    rewrite <- ?app_assoc; simpl;
    (eexists; split; [reflexivity|]; split; [reflexivity|];
     split; [simpl; lia|]; repeat constructor; eexists; reflexivity).
Qed.

End CreateFacts.

Lemma C6_CreateSDF_drops_link_without_inertia_witness :
  exists ws,
    CreateSDF (TiXmlElement "model" [] []) Run.massless_tree sdf.Pose_default
              Run.massless_model
    = Ok (TiXmlElement "model" [] [], set_log ws Run.massless_model) /\
    length ws = 3.
Proof.
  destruct (C6_CreateSDF_drops_link_without_inertia (D := Z)
              (TiXmlElement "model" [] []) 0 [Node 1 []; Node 2 []]
              sdf.Pose_default Run.massless_model _ eq_refl)
    as (ws & Hrun & Hlen & _).
  - discriminate.
  - by left.
  - exists ws. split; [exact Hrun|exact Hlen].
Defined.

(** C6 as stated fails: a link without inertial block that has two
    children is dropped with three warnings, not one. *)
Lemma C6_one_warning_counterexample :
  exists s',
    CreateSDF (TiXmlElement "model" [] []) Run.massless_tree sdf.Pose_default
              Run.massless_model
    = Ok (TiXmlElement "model" [] [], s') /\
    length (log s') = 3 /\
    ~ (length (log s') = length (log Run.massless_model) + 1).
Proof.
  eexists. split; [vm_compute; reflexivity|]. split; [reflexivity|].
  vm_compute. discriminate.
Qed.

(* ===================================================================== *)
(** ** Theorems: URDF2SDF::InitModelString *)
(* ===================================================================== *)

Section InitModelFacts.
Context {D : Type} {Dbl : Double D} {Lex : LexicalCast D}
        {Blob : BlobRewriting D} {Wr : LinkWriter D} {Prs : Parsers D}.
Implicit Types (s : State D).

Lemma double_tag_is_no_other_tag tag f :
  double_tag tag = Some f ->
  String.eqb tag "material" = false /\ String.eqb tag "gravity" = false /\
  String.eqb tag "fdir1" = false /\ flag_tag tag = None.
Proof.
  unfold double_tag.
  repeat match goal with
         | |- context [String.eqb tag ?c] =>
             destruct (String.eqb_spec tag c) as [->|?];
             [intros _; by vm_compute|]
         end.
  discriminate.
Qed.

Lemma ParseSDFExtension_child_throws refStr (childElem : TiXmlNode)
    (sdf0 : SDFExtension D) f :
  double_tag (Value childElem) = Some f ->
  lexical_cast_double (GetKeyValueAsString childElem) = None ->
  ParseSDFExtension_child refStr childElem sdf0 = Fail bad_lexical_cast.
Proof.
  intros Htag Hcast. unfold ParseSDFExtension_child.
  destruct (double_tag_is_no_other_tag _ _ Htag) as (-> & -> & -> & ->).
  by rewrite Htag, Hcast.
Qed.

(** C7 (the code departs from the specification). When [parseURDF] fails,
    [InitModelString] returns the empty document and logs an error, as
    the specification says.  But when the parse succeeds and an extension
    element of the text holds, under one of the tags of the optional
    numbers, a text that is no number, [boost::bad_lexical_cast] leaves
    [ParseSDFExtension] and [InitModelString]: no handler is on the
    way. *)
Theorem C7_InitModelString_parse_failure_and_escaping_exception
    (_urdfStr : string) (_enforceLimits : bool) s :
  (parseURDF _urdfStr = None ->
   InitModelString _urdfStr _enforceLimits s
   = Ok ([], set_log (log s ++ [sdferr ("Unable to call parseURDF on robot model"
                                        +:+ nl)])
               (set_g_enforceLimits _enforceLimits s))) /\
  (forall robotModel robotXml sdfXml others childElem siblings f,
      parseURDF _urdfStr = Some robotModel ->
      FirstChildElement (TiXmlDocument_Parse _urdfStr) "robot" = Some robotXml ->
      filter (fun n => is_element n && String.eqb (Value n) "sdf" = true)
             (node_children robotXml) = sdfXml :: others ->
      filter (fun n => is_element n = true) (node_children sdfXml)
      = childElem :: siblings ->
      double_tag (Value childElem) = Some f ->
      lexical_cast_double (GetKeyValueAsString childElem) = None ->
      InitModelString _urdfStr _enforceLimits s = Fail bad_lexical_cast).
Proof.
  split.
  - intros Hparse. unfold InitModelString. rewrite Hparse. reflexivity.
  - intros robotModel robotXml sdfXml others childElem siblings f
           Hparse Hrobot Hsdf Hchild Htag Hcast.
    unfold InitModelString. rewrite Hparse.
    unfold bind at 1, modify. unfold bind at 1, modify.
    apply bind_Fail. unfold ParseSDFExtension. rewrite Hrobot.
    unfold bind at 1, deref, ret. rewrite Hsdf. simpl.
    apply bind_Fail. unfold bind at 1, gets.
    match goal with
    | |- bind ?m _ ?s1 = _ =>
        assert (Hins : exists s2, m s1 = Ok (tt, s2))
          by (destruct (map_find _ _); eexists; reflexivity)
    end.
    destruct Hins as [s2 Hins]. bind_step Hins.
    rewrite Hchild. simpl.
    by rewrite (ParseSDFExtension_child_throws _ _ _ f Htag Hcast).
Qed.

End InitModelFacts.

Lemma C7_InitModelString_parse_failure_and_escaping_exception_witness :
  InitModelString (D := Z) "no robot here" true Run.empty_state
  = Ok ([], set_log [sdferr ("Unable to call parseURDF on robot model"
                             +:+ nl)] Run.empty_state) /\
  InitModelString (D := Z) Run.bad_number_urdf true Run.empty_state
  = Fail bad_lexical_cast.
Proof.
  split.
  - apply (C7_InitModelString_parse_failure_and_escaping_exception
             (D := Z) "no robot here" true Run.empty_state).
    reflexivity.
  - eapply (proj2 (C7_InitModelString_parse_failure_and_escaping_exception
                     (D := Z) Run.bad_number_urdf true Run.empty_state));
      reflexivity.
Defined.

(* ===================================================================== *)
(** ** More of Sensor.cc *)
(* ===================================================================== *)

(** X1. [TypeStr] always answers with a string of the sensor-type table,
    whatever the stored type is ("none" for a type past the table), so
    [SetType] applied to that answer always succeeds and [TypeStr] then
    gives the same answer again. *)
Theorem X1_TypeStr_SetType_round_trip (d d' : Sensor.SensorPrivate) :
  In (Sensor.TypeStr d) Sensor.sensorTypeStrs /\
  fst (Sensor.SetType (Sensor.TypeStr d) d') = true /\
  Sensor.TypeStr (snd (Sensor.SetType (Sensor.TypeStr d) d'))
  = Sensor.TypeStr d /\
  (length Sensor.sensorTypeStrs <= Sensor.type d ->
   Sensor.TypeStr d = "none").
Proof.
  destruct d as [t n tp pf].
  assert (Hcases : t < 19 \/ 19 <= t) by lia.
  destruct Hcases as [Hlt|Hge].
  - do 19 (destruct t as [|t];
           [vm_compute; repeat split; try tauto; intros; lia|]).
    lia.
  - assert (Hnone : Sensor.TypeStr (Sensor.mkSensorPrivate t n tp pf) = "none").
    { unfold Sensor.TypeStr. simpl Sensor.type.
      replace (t <? length Sensor.sensorTypeStrs)%nat with false.
      - by rewrite andb_false_r.
      - symmetry. apply Nat.ltb_ge. exact Hge. }
    rewrite Hnone. vm_compute. repeat split; tauto.
Qed.

(* ===================================================================== *)
(** ** More of SDF.hh: Element::Set *)
(* ===================================================================== *)

(** X2. [Element::Set] on an element without value slot returns false
    and leaves the element as it is; on an element with a value slot it
    returns true, keeps the attributes and the children, and a following
    [Get<T>()] returns the value set when its text decodes back to it,
    and [T()] when the text does not decode. *)
Theorem X2_Set_then_Get (T : Type) (T_default : T)
    (lexical_cast : string -> option T) (to_text : T -> string)
    (e : Element.Element) (v : T) :
  let e' := snd (Element.Set_ T to_text e v) in
  (Element.value e = None -> Element.Set_ T to_text e v = (false, e)) /\
  (is_Some (Element.value e) ->
   fst (Element.Set_ T to_text e v) = true /\
   Element.name e' = Element.name e /\
   Element.attributes e' = Element.attributes e /\
   Element.elements e' = Element.elements e /\
   Element.elementDescriptions e' = Element.elementDescriptions e /\
   (lexical_cast (to_text v) = Some v ->
    Element.Get T T_default lexical_cast e' "" = (Ok v, [])) /\
   (lexical_cast (to_text v) = None ->
    Element.Get T T_default lexical_cast e' "" = (Ok T_default, []))).
Proof.
  destruct e as [n a val c ds]. simpl. split.
  - intros ->. reflexivity.
  - intros [p ->]. simpl. repeat split.
    + intros Hrt. unfold Element.Get, Element.Param_Get. simpl. by rewrite Hrt.
    + intros Hrt. unfold Element.Get, Element.Param_Get. simpl. by rewrite Hrt.
Qed.

Lemma X2_Set_then_Get_witness :
  let int := Element.mkParam "" "int" "5" "5" false false "" in
  let x := Element.mkElement "x" [] (Some int) [] [] in
  fst (Element.Set_ Z pretty x 7%Z) = true /\
  Element.Get Z 0%Z Run.parse_Z (snd (Element.Set_ Z pretty x 7%Z)) ""
  = (Ok 7%Z, []).
Proof.
  intros int x.
  destruct (X2_Set_then_Get Z 0%Z Run.parse_Z pretty x 7%Z) as [_ H].
  destruct (H ltac:(by eexists)) as (Ht & _ & _ & _ & _ & Hg & _).
  split; [exact Ht|]. apply Hg. vm_compute. reflexivity.
Defined.

(* ===================================================================== *)
(** ** More of the converter: poses and vectors *)
(* ===================================================================== *)

(** X3. The two [CopyPose] overloads are inverse to each other: copying
    a [urdf::Pose] to an [sdf::Pose] and back, or the other way round,
    gives the pose one started from (the rotation [x y z w] of the one is
    the quaternion [w x y z] of the other). *)
Theorem X3_CopyPose_round_trips (D : Type) :
  (forall p : urdf.Pose D, CopyPose_to_urdf (CopyPose p) = p) /\
  (forall p : sdf.Pose D, CopyPose (CopyPose_to_urdf p) = p).
Proof.
  split.
  - intros [[px py pz] [qx qy qz qw]]. reflexivity.
  - intros [[px py pz] [qw qx qy qz]]. reflexivity.
Qed.

Section MoreParseFacts.
Context {D : Type} {Dbl : Double D} {Lex : LexicalCast D}.

(** X4. When every piece of the text between spaces is a number,
    [ParseVector3] writes no message, and what it returns depends on how
    many numbers there are: with fewer than four the read of [vals[3]]
    is out of range, with four or more the vector is made of the first,
    the second and the fourth number, each times the scale. *)
Theorem X4_ParseVector3_by_count (_key : TiXmlNode) (_scale : D)
    (vs : list D) :
  Forall2 (fun t v => lexical_cast_double t = Some v)
          (filter (fun p => p <> "") (split_spaces (Value _key))) vs ->
  ParseVector3 (Some _key) _scale
  = ([], match vs with
         | v0 :: v1 :: _ :: v3 :: _ =>
             Ok (urdf.mkVector3 (dmul _scale v0) (dmul _scale v1)
                                (dmul _scale v3))
         | _ => Fail OutOfRange
         end).
Proof.
  intros Hvs. unfold ParseVector3.
  rewrite (ParseVector3_loop_parsed _ _ _ 0 [] vs Hvs). simpl.
  destruct vs as [|v0 [|v1 [|v2 [|v3 rest]]]]; reflexivity.
Qed.

End MoreParseFacts.

Lemma X4_ParseVector3_by_count_witness :
  ParseVector3 (D := Z) (Some (TiXmlText "1 2 3 4")) 2%Z
  = ([], Ok (urdf.mkVector3 2 4 8)%Z) /\
  ParseVector3 (D := Z) (Some (TiXmlText "1 2")) 2%Z = ([], Fail OutOfRange).
Proof.
  split.
  - exact (X4_ParseVector3_by_count (TiXmlText "1 2 3 4") 2%Z [1; 2; 3; 4]%Z
             ltac:(vm_compute; repeat constructor)).
  - exact (X4_ParseVector3_by_count (TiXmlText "1 2") 2%Z [1; 2]%Z
             ltac:(vm_compute; repeat constructor)).
Defined.

(* ===================================================================== *)
(** ** More of the converter: AddKeyValue *)
(* ===================================================================== *)

Lemma FirstChildElement_None c key :
  FirstChildElement c key = None <-> children_tagged key c = [].
Proof.
  unfold FirstChildElement, children_tagged.
  induction c as [|n c IH]; simpl; [done|].
  destruct (is_element n && String.eqb (Value n) key) eqn:E.
  - rewrite filter_cons_True by done. split; discriminate.
  - rewrite filter_cons_False by (by rewrite E). exact IH.
Qed.

Lemma filter_remove_first_element c key old :
  FirstChildElement c key = Some old ->
  children_tagged key c = old :: children_tagged key (remove_first_element key c)
  /\ children_not_tagged key (remove_first_element key c)
     = children_not_tagged key c.
Proof.
  unfold FirstChildElement, children_tagged, children_not_tagged.
  induction c as [|n c IH]; simpl; [done|].
  destruct (is_element n && String.eqb (Value n) key) eqn:E.
  - intros [= ->]. rewrite filter_cons_True by done.
    rewrite (filter_cons_False _ old) by (by rewrite E). done.
  - intros Hf. destruct (IH Hf) as [IH1 IH2].
    rewrite !(filter_cons_False (fun n => is_element n && _ = true) n)
      by (by rewrite E).
    rewrite !(filter_cons_True (fun n => is_element n && _ = false) n) by done.
    by rewrite IH1, IH2.
Qed.

(** X5. [AddKeyValue] on an element with at most one child element
    tagged [key] returns the element with exactly one such child, a new
    one that holds the value, so that [FirstChildElement(key)] and
    [GetKeyValueAsString] give the value back; the children with other
    tags are kept in their order; the state is unchanged but for one
    warning, written exactly when an old value is replaced by a
    different one. *)
Theorem X5_AddKeyValue_one_element_per_key {D : Type} (v : string)
    (a : list (string * string)) (c : list TiXmlNode) (key value : string)
    (s : State D) :
  length (children_tagged key c) <= 1 ->
  exists c' s',
    AddKeyValue (TiXmlElement v a c) key value s
    = Ok (TiXmlElement v a c', s') /\
    FirstChildElement c' key = Some (TiXmlElement key [] [TiXmlText value]) /\
    GetKeyValueAsString <$> FirstChildElement c' key = Some value /\
    length (children_tagged key c') = 1 /\
    children_not_tagged key c' = children_not_tagged key c /\
    match FirstChildElement c key with
    | Some old =>
        if String.eqb (GetKeyValueAsString old) value then s' = s
        else exists msg, s' = set_log (log s ++ [sdfwarn msg]) s
    | None => s' = s
    end.
Proof.
  intros Hone.
  assert (Hnew : is_element (TiXmlElement key [] [TiXmlText value])
                 && String.eqb (Value (TiXmlElement key [] [TiXmlText value])) key
                 = true).
  { simpl. by rewrite String.eqb_refl. }
  assert (Hfirst : forall c0, children_tagged key c0 = [] ->
            FirstChildElement (c0 ++ [TiXmlElement key [] [TiXmlText value]]) key
            = Some (TiXmlElement key [] [TiXmlText value])).
  { intros c0 H0. unfold FirstChildElement, children_tagged in *.
    induction c0 as [|n c0 IH]; simpl.
    - by rewrite String.eqb_refl.
    - destruct (is_element n && String.eqb (Value n) key) eqn:E.
      + by rewrite filter_cons_True in H0.
      + rewrite filter_cons_False in H0 by (by rewrite E). by apply IH. }
  assert (Hadd : forall c0,
            children_tagged key c0 = [] ->
            length (children_tagged key
                      (c0 ++ [TiXmlElement key [] [TiXmlText value]])) = 1 /\
            children_not_tagged key
              (c0 ++ [TiXmlElement key [] [TiXmlText value]])
            = children_not_tagged key c0).
  { intros c0 H0. unfold children_tagged, children_not_tagged in *.
    rewrite !filter_app, H0. split.
    - by rewrite filter_cons_True.
    - rewrite (filter_cons_False _ (TiXmlElement key [] [TiXmlText value]))
        by (by rewrite Hnew).
      by rewrite filter_nil, app_nil_r. }
  unfold AddKeyValue. simpl node_children.
  destruct (FirstChildElement c key) as [old|] eqn:Hold.
  - destruct (filter_remove_first_element c key old Hold) as [Hf Hg].
    assert (Hrest : children_tagged key (remove_first_element key c) = []).
    { rewrite Hf in Hone. simpl in Hone.
      destruct (children_tagged key (remove_first_element key c)); [done|].
      simpl in Hone. lia. }
    destruct (Hadd _ Hrest) as [Hlen Hothers].
    exists (remove_first_element key c ++ [TiXmlElement key [] [TiXmlText value]]).
    destruct (String.eqb (GetKeyValueAsString old) value) eqn:Eq.
    + exists s. simpl. split; [done|]. split; [by apply Hfirst|].
      split; [by rewrite (Hfirst _ Hrest)|]. split; [done|].
      split; [by rewrite Hothers, Hg|done].
    + eexists. simpl. split; [reflexivity|]. split; [by apply Hfirst|].
      split; [by rewrite (Hfirst _ Hrest)|]. split; [done|].
      split; [by rewrite Hothers, Hg|]. eexists. reflexivity.
  - apply FirstChildElement_None in Hold.
    destruct (Hadd _ Hold) as [Hlen Hothers].
    exists (c ++ [TiXmlElement key [] [TiXmlText value]]), s.
    simpl. split; [done|]. split; [by apply Hfirst|].
    split; [by rewrite (Hfirst _ Hold)|]. done.
Qed.

Lemma X5_AddKeyValue_one_element_per_key_witness :
  exists c' s',
    AddKeyValue (TiXmlElement "model" []
                   [TiXmlElement "static" [] [TiXmlText "false"];
                    TiXmlElement "link" [("name", "base")] []])
                "static" "true" Run.empty_state
    = Ok (TiXmlElement "model" [] c', s') /\
    GetKeyValueAsString <$> FirstChildElement c' "static" = Some "true" /\
    length (children_tagged "static" c') = 1.
Proof.
  destruct (X5_AddKeyValue_one_element_per_key (D := Z) "model" []
              [TiXmlElement "static" [] [TiXmlText "false"];
               TiXmlElement "link" [("name", "base")] []]
              "static" "true" Run.empty_state ltac:(vm_compute; lia))
    as (c' & s' & Hrun & _ & Hget & Hone & _).
  exists c', s'. auto.
Defined.

(* ===================================================================== *)
(** ** More of the converter: ParseSDFExtension *)
(* ===================================================================== *)

Section ParseExtensionFacts.
Context {D : Type} {Dbl : Double D} {Lex : LexicalCast D}.

Lemma ParseSDFExtension_child_spec refStr (c : TiXmlNode)
    (e0 : SDFExtension D) :
  (not_a_number c = true ->
   ParseSDFExtension_child refStr c e0 = Fail bad_lexical_cast) /\
  (not_a_number c = false ->
   exists e1,
     ParseSDFExtension_child refStr c e0 = Ok e1 /\
     blobs e1 = blobs e0 ++ (if known_tag (Value c) then [] else [c]) /\
     oldLinkName e1 = refStr /\
     reductionTransform e1 = reductionTransform e0).
Proof.
  unfold not_a_number, known_tag, ParseSDFExtension_child.
  destruct (double_tag (Value c)) as [f|] eqn:Hd.
  - destruct (double_tag_is_no_other_tag _ _ Hd) as (-> & -> & -> & ->).
    simpl. destruct (lexical_cast_double (GetKeyValueAsString c)); split;
      try discriminate; try done.
    intros _. eexists. split; [reflexivity|]. simpl.
    by rewrite app_nil_r.
  - split; [discriminate|]. intros _.
    destruct (String.eqb (Value c) "material");
      [eexists; split; [reflexivity|]; simpl; by rewrite app_nil_r|].
    destruct (String.eqb (Value c) "gravity");
      [eexists; split; [reflexivity|]; simpl; by rewrite app_nil_r|].
    destruct (String.eqb (Value c) "fdir1");
      [eexists; split; [reflexivity|]; simpl; by rewrite app_nil_r|].
    destruct (flag_tag (Value c));
      eexists; (split; [reflexivity|]); simpl; by rewrite ?app_nil_r.
Qed.

Lemma ParseSDFExtension_children_fails refStr (cs : list TiXmlNode) :
  forall e0 : SDFExtension D,
    Exists (fun c => not_a_number c = true) cs ->
    ParseSDFExtension_children refStr cs e0 = Fail bad_lexical_cast.
Proof.
  induction cs as [|c cs IH]; intros e0 Hex; [by inversion Hex|].
  simpl. destruct (ParseSDFExtension_child_spec refStr c e0) as [Hbad Hgood].
  destruct (not_a_number c) eqn:Hc.
  - by rewrite Hbad.
  - destruct (Hgood eq_refl) as (e1 & -> & _). apply IH.
    inversion Hex; subst; [congruence|done].
Qed.

Lemma ParseSDFExtension_children_returns refStr (cs : list TiXmlNode) :
  forall e0 : SDFExtension D,
    Forall (fun c => not_a_number c = false) cs ->
    exists e1,
      ParseSDFExtension_children refStr cs e0 = Ok e1 /\
      blobs e1
      = blobs e0 ++ filter (fun c => known_tag (Value c) = false) cs /\
      oldLinkName e1
      = (if bool_decide (cs = []) then oldLinkName e0 else refStr) /\
      reductionTransform e1 = reductionTransform e0.
Proof.
  induction cs as [|c cs IH]; intros e0 Hall.
  - exists e0. simpl. by rewrite app_nil_r.
  - inversion Hall as [|? ? Hc Hcs]; subst. simpl.
    destruct (ParseSDFExtension_child_spec refStr c e0) as [_ Hgood].
    destruct (Hgood Hc) as (e1 & -> & Hb & Hn & Ht).
    destruct (IH e1 Hcs) as (e2 & -> & Hb2 & Hn2 & Ht2).
    exists e2. split; [done|]. split; [|split].
    + rewrite Hb2, Hb, <- app_assoc. f_equal.
      destruct (known_tag (Value c)) eqn:Hk.
      * by rewrite filter_cons_False by (by rewrite Hk).
      * by rewrite filter_cons_True by done.
    + rewrite Hn2. by destruct (bool_decide (cs = [])).
    + by rewrite Ht2.
Qed.

(** X6. The elements of an [<sdf>] extension are read in document
    order.  If one of them is tagged as a number and its text is not a
    number, nothing is returned: [boost::bad_lexical_cast] escapes.
    Otherwise the record returned holds, as its blobs, every element with
    a tag that is not read into a member, in document order and after the
    blobs it had; its reduction transform is untouched; and [oldLinkName]
    is the reference only if there was at least one element. *)
Theorem X6_ParseSDFExtension_children_keep_unknown_elements refStr
    (cs : list TiXmlNode) (e0 : SDFExtension D) :
  (Exists (fun c => not_a_number c = true) cs ->
   ParseSDFExtension_children refStr cs e0 = Fail bad_lexical_cast) /\
  (Forall (fun c => not_a_number c = false) cs ->
   exists e1,
     ParseSDFExtension_children refStr cs e0 = Ok e1 /\
     blobs e1
     = blobs e0 ++ filter (fun c => known_tag (Value c) = false) cs /\
     oldLinkName e1
     = (if bool_decide (cs = []) then oldLinkName e0 else refStr) /\
     reductionTransform e1 = reductionTransform e0).
Proof.
  split.
  - apply ParseSDFExtension_children_fails.
  - apply ParseSDFExtension_children_returns.
Qed.

Lemma new_ptrs_ge ref refs : forall n x, x ∈ new_ptrs ref refs n -> n <= x.
Proof.
  induction refs as [|r refs IH]; intros n x; simpl; [by intros ?%elem_of_nil|].
  intros [Hx|Hx]%elem_of_app.
  - destruct (String.eqb r ref); [|by apply elem_of_nil in Hx].
    apply list_elem_of_singleton in Hx. lia.
  - apply IH in Hx. lia.
Qed.

Lemma new_ptrs_NoDup ref refs : forall n, NoDup (new_ptrs ref refs n).
Proof.
  induction refs as [|r refs IH]; intros n; simpl; [constructor|].
  destruct (String.eqb r ref); simpl; [|apply IH].
  constructor; [|apply IH]. intros Hx%new_ptrs_ge. lia.
Qed.

Lemma new_ptrs_lt ref refs :
  forall n x, x ∈ new_ptrs ref refs n -> x < n + length refs.
Proof.
  induction refs as [|r refs IH]; intros n x; simpl; [by intros ?%elem_of_nil|].
  intros [Hx|Hx]%elem_of_app.
  - destruct (String.eqb r ref); [|by apply elem_of_nil in Hx].
    apply list_elem_of_singleton in Hx. lia.
  - apply IH in Hx. lia.
Qed.

(** What [ParseSDFExtension] does to the state [s], giving [s'], when it
    reads the [<sdf>] elements [sdfs]. *)
Local Abbreviation step :=
  (fun sdfXml : TiXmlNode =>
     let refStr := default "" (Attribute sdfXml "reference") in
     do table <- gets g_extensions;
     run match map_find refStr table with
         | None => modify (set_g_extensions (map_insert refStr [] table))
         | Some _ => ret tt
         end;
     match ParseSDFExtension_children refStr
             (filter (fun n => is_element n = true) (node_children sdfXml))
             SDFExtension_new with
     | Fail e => fail e
     | Ok sdf1 =>
         do ptr <- gets (fun s => length (extensions s));
         run modify (fun s => set_extensions (extensions s ++ [sdf1]) s);
         do table1 <- gets g_extensions;
         do ext <- deref (map_find refStr table1);
         modify (set_g_extensions (map_set refStr (ext ++ [ptr]) table1))
     end).

Lemma ParseSDFExtension_step_returns (x : TiXmlNode) (s : State D) r :
  ParseSDFExtension_children (reference x) (child_elements x) SDFExtension_new
  = Ok r ->
  exists s1,
    step x s = Ok (tt, s1) /\
    adds_extensions s s1 [r] /\
    (forall ref,
        ext_list s1 ref
        = ext_list s ref ++ (if String.eqb (reference x) ref
                             then [length (extensions s)] else [])).
Proof.
  intros Hr. unfold reference, child_elements in *.
  set (ref0 := default "" (Attribute x "reference")) in *.
  cbv beta zeta. fold ref0. unfold bind at 1. unfold gets at 1.
  set (tableA := match map_find ref0 (g_extensions s) with
                 | None => map_insert ref0 [] (g_extensions s)
                 | Some _ => g_extensions s
                 end).
  set (extA := default [] (map_find ref0 (g_extensions s))).
  assert (HfindA : map_find ref0 tableA = Some extA).
  { unfold tableA, extA.
    destruct (map_find ref0 (g_extensions s)) eqn:Hf; simpl; [done|].
    by apply map_find_insert_eq. }
  assert (HotherA : forall ref, ref <> ref0 ->
                      map_find ref tableA = map_find ref (g_extensions s)).
  { intros ref Hne. unfold tableA.
    destruct (map_find ref0 (g_extensions s)); [done|].
    by apply map_find_insert_ne. }
  assert (HvalidA : ext_table_valid s ->
            Forall (fun entry : string * list nat =>
                      Forall (fun e => e < length (extensions s)) (snd entry))
                   tableA).
  { intros Hv. unfold tableA.
    destruct (map_find ref0 (g_extensions s)); [exact Hv|].
    apply Forall_map_insert; [exact Hv|]. simpl. constructor. }
  exists (set_g_extensions
            (map_set ref0 (extA ++ [length (extensions s)]) tableA)
            (set_extensions (extensions s ++ [r]) s)).
  split; [|split].
  - clear HotherA HvalidA. subst tableA extA.
    destruct (map_find ref0 (g_extensions s)) eqn:Hf;
      unfold bind, ret, gets, modify; rewrite Hr; simpl;
      rewrite ?Hf, ?HfindA; reflexivity.
  - unfold adds_extensions. simpl. repeat split; try done.
    intros Hv. unfold ext_table_valid. simpl.
    rewrite length_app. simpl.
    apply Forall_map_set.
    + eapply Forall_impl; [exact (HvalidA Hv)|].
      intros entry He. simpl in He. eapply Forall_impl; [exact He|].
      simpl. intros; lia.
    + intros k0. simpl. apply Forall_app. split.
      * pose proof (Forall_map_find _ _ _ _ (HvalidA Hv) HfindA) as He.
        simpl in He. eapply Forall_impl; [exact He|]. simpl. intros; lia.
      * constructor; [lia|constructor].
  - intros ref. unfold ext_list at 1. simpl.
    destruct (String.eqb_spec ref0 ref) as [<-|Hne].
    + rewrite map_find_set_eq by (rewrite HfindA; by eexists). simpl.
      reflexivity.
    + rewrite map_find_set_ne by done. rewrite HotherA by done.
      by rewrite app_nil_r.
Qed.

Lemma ParseSDFExtension_step_fails (x : TiXmlNode) (s : State D) :
  ParseSDFExtension_children (reference x) (child_elements x) SDFExtension_new
  = Fail bad_lexical_cast ->
  step x s = Fail bad_lexical_cast.
Proof.
  intros Hr. unfold reference, child_elements in *.
  cbv beta zeta. unfold bind, gets.
  destruct (map_find _ (g_extensions s)); unfold modify, ret; by rewrite Hr.
Qed.

Lemma ParseSDFExtension_loop_returns (sdfs : list TiXmlNode) :
  forall s : State D,
    Forall (fun x => Forall (fun c => not_a_number c = false)
                            (child_elements x)) sdfs ->
    exists s' news,
      forM_ step sdfs s = Ok (tt, s') /\
      adds_extensions s s' news /\
      Forall2 (fun x r =>
                 ParseSDFExtension_children (reference x) (child_elements x)
                                            SDFExtension_new = Ok r)
              sdfs news /\
      (forall ref,
          ext_list s' ref
          = ext_list s ref
            ++ new_ptrs ref (map reference sdfs) (length (extensions s))).
Proof.
  induction sdfs as [|x sdfs IH]; intros s Hall.
  - exists s, []. simpl. split; [done|]. split; [|split].
    + unfold adds_extensions. rewrite app_nil_r. by repeat split.
    + constructor.
    + intros ref. by rewrite app_nil_r.
  - inversion Hall as [|? ? Hx Hrest]; subst.
    destruct (ParseSDFExtension_children_returns (reference x)
                (child_elements x) SDFExtension_new Hx) as (r & Hr & _).
    destruct (ParseSDFExtension_step_returns x s r Hr) as (s1 & Hs1 & Ha1 & He1).
    destruct (IH s1 Hrest) as (s' & news & Hs' & Ha' & Hn' & He').
    exists s', (r :: news). split; [|split; [|split]].
    + change (forM_ step (x :: sdfs) s)
        with (bind (step x) (fun _ => forM_ step sdfs) s).
      by rewrite (bind_Ok _ _ _ _ _ Hs1).
    + unfold adds_extensions in *.
      destruct Ha1 as (H1 & H2 & H3 & H4 & H5 & H6 & H7 & H8 & H9).
      destruct Ha' as (G1 & G2 & G3 & G4 & G5 & G6 & G7 & G8 & G9).
      repeat split; try congruence.
      * rewrite G8, H8, <- app_assoc. reflexivity.
      * intros Hv. by apply G9, H9.
    + by constructor.
    + intros ref. rewrite He', He1, <- app_assoc. simpl.
      destruct Ha1 as (_ & _ & _ & _ & _ & _ & _ & H8 & _).
      rewrite H8, length_app. simpl. rewrite Nat.add_1_r. reflexivity.
Qed.

Lemma ParseSDFExtension_loop_fails (sdfs : list TiXmlNode) :
  forall s : State D,
    Exists (fun x => Exists (fun c => not_a_number c = true)
                            (child_elements x)) sdfs ->
    forM_ step sdfs s = Fail bad_lexical_cast.
Proof.
  induction sdfs as [|x sdfs IH]; intros s Hex; [by inversion Hex|].
  change (forM_ step (x :: sdfs) s)
    with (bind (step x) (fun _ => forM_ step sdfs) s).
  destruct (Forall_Exists_dec (fun c => not_a_number c = false)
              (fun c => not_a_number c = true)
              (fun c => match not_a_number c as b
                              return {b = false} + {b = true} with
                        | true => right eq_refl
                        | false => left eq_refl
                        end)
              (child_elements x)) as [Hgood|Hbad].
  - destruct (ParseSDFExtension_children_returns (reference x)
                (child_elements x) SDFExtension_new Hgood) as (r & Hr & _).
    destruct (ParseSDFExtension_step_returns x s r Hr) as (s1 & Hs1 & _).
    rewrite (bind_Ok _ _ _ _ _ Hs1). apply IH.
    inversion Hex as [? ? Hx|]; subst; [|done].
    exfalso. clear -Hgood Hx. induction Hx as [c cs Hc|c cs Hc IHc].
    + inversion Hgood; subst. congruence.
    + inversion Hgood; subst. by apply IHc.
  - apply bind_Fail. apply ParseSDFExtension_step_fails.
    by apply ParseSDFExtension_children_fails.
Qed.

(** X7. [ParseSDFExtension] ends in one of three ways, decided by the
    document alone.  Without a [<robot>] element a null pointer is
    dereferenced.  If some [<sdf>] element of the robot has a child
    tagged as a number whose text is not a number,
    [boost::bad_lexical_cast] escapes.  In every other case it
    returns. *)
Theorem X7_ParseSDFExtension_outcome (_urdfXml : list TiXmlNode)
    (s : State D) :
  (FirstChildElement _urdfXml "robot" = None ->
   ParseSDFExtension _urdfXml s = Fail NullDeref) /\
  (forall robotXml,
      FirstChildElement _urdfXml "robot" = Some robotXml ->
      (Exists (fun x => Exists (fun c => not_a_number c = true)
                               (child_elements x)) (sdf_elements robotXml) ->
       ParseSDFExtension _urdfXml s = Fail bad_lexical_cast) /\
      (Forall (fun x => Forall (fun c => not_a_number c = false)
                               (child_elements x)) (sdf_elements robotXml) ->
       exists s', ParseSDFExtension _urdfXml s = Ok (tt, s'))).
Proof.
  unfold ParseSDFExtension. split.
  - intros ->. reflexivity.
  - intros robotXml ->. split.
    + intros Hex. apply (ParseSDFExtension_loop_fails _ s Hex).
    + intros Hall.
      destruct (ParseSDFExtension_loop_returns _ s Hall) as (s' & ? & Hs' & _).
      exists s'. exact Hs'.
Qed.

(** X8. When no number of the [<sdf>] elements is malformed,
    [ParseSDFExtension] appends to the records one record for each
    [<sdf>] element of the robot, in document order, and files the
    pointer to it at the end of the list of its reference (the empty
    reference without the attribute).  Nothing that was in the side-table
    is removed or reordered, so the records of an earlier conversion stay;
    links, geometry, flags, log and call trace are untouched; a valid
    table stays valid, and lists without repetition stay so. *)
Theorem X8_ParseSDFExtension_appends_records (_urdfXml : list TiXmlNode)
    (robotXml : TiXmlNode) (s : State D) :
  FirstChildElement _urdfXml "robot" = Some robotXml ->
  Forall (fun x => Forall (fun c => not_a_number c = false)
                          (child_elements x)) (sdf_elements robotXml) ->
  exists s' news,
    ParseSDFExtension _urdfXml s = Ok (tt, s') /\
    extensions s' = extensions s ++ news /\
    Forall2 (fun x r =>
               ParseSDFExtension_children (reference x) (child_elements x)
                                          SDFExtension_new = Ok r)
            (sdf_elements robotXml) news /\
    (forall ref,
        ext_list s' ref
        = ext_list s ref
          ++ new_ptrs ref (map reference (sdf_elements robotXml))
                      (length (extensions s))) /\
    links s' = links s /\ visuals s' = visuals s /\
    collisions s' = collisions s /\ log s' = log s /\ calls s' = calls s /\
    g_reduceFixedJoints s' = g_reduceFixedJoints s /\
    g_enforceLimits s' = g_enforceLimits s /\
    (ext_table_valid s ->
     ext_table_valid s' /\
     forall ref, NoDup (ext_list s ref) -> NoDup (ext_list s' ref)).
Proof.
  intros Hrobot Hall.
  destruct (ParseSDFExtension_loop_returns _ s Hall)
    as (s' & news & Hs' & Ha & Hn & He).
  exists s', news.
  destruct Ha as (H1 & H2 & H3 & H4 & H5 & H6 & H7 & H8 & H9).
  split; [unfold ParseSDFExtension; rewrite Hrobot; exact Hs'|].
  do 10 (split; [done|]).
  intros Hv. split; [by apply H9|].
  intros ref Hnd. rewrite He. apply NoDup_app. split; [done|]. split.
  - intros e He1 He2%new_ptrs_ge.
    assert (Hlt : e < length (extensions s)); [|lia].
    unfold ext_list in He1.
    destruct (map_find ref (g_extensions s)) as [l|] eqn:Hf;
      [|by apply elem_of_nil in He1].
    pose proof (Forall_map_find _ _ _ _ Hv Hf) as Hl. simpl in Hl, He1.
    rewrite Forall_forall in Hl. by apply Hl.
  - apply new_ptrs_NoDup.
Qed.

End ParseExtensionFacts.

Lemma X6_ParseSDFExtension_children_keep_unknown_elements_witness :
  ParseSDFExtension_children (D := Z) "base"
    [TiXmlElement "mu1" [] [TiXmlText "abc"]] SDFExtension_new
  = Fail bad_lexical_cast /\
  exists e1,
    ParseSDFExtension_children (D := Z) "base"
      [ TiXmlElement "material" [] [TiXmlText "Red"];
        TiXmlElement "plugin" [("name", "p")] [];
        TiXmlElement "mu1" [] [TiXmlText "1"] ] SDFExtension_new
    = Ok e1 /\
    blobs e1 = [TiXmlElement "plugin" [("name", "p")] []] /\
    oldLinkName e1 = "base".
Proof.
  split.
  - apply (X6_ParseSDFExtension_children_keep_unknown_elements (D := Z)).
    vm_compute. repeat constructor.
  - destruct (X6_ParseSDFExtension_children_keep_unknown_elements (D := Z)
                "base"
                [ TiXmlElement "material" [] [TiXmlText "Red"];
                  TiXmlElement "plugin" [("name", "p")] [];
                  TiXmlElement "mu1" [] [TiXmlText "1"] ] SDFExtension_new)
      as [_ H].
    destruct (H ltac:(vm_compute; repeat constructor)) as (e1 & H1 & H2 & H3 & _).
    exists e1. split; [exact H1|]. split; [rewrite H2|rewrite H3]; reflexivity.
Defined.

Lemma X7_ParseSDFExtension_outcome_witness :
  ParseSDFExtension (D := Z) [] Run.empty_state = Fail NullDeref /\
  ParseSDFExtension (D := Z) Run.bad_number_document Run.empty_state
  = Fail bad_lexical_cast /\
  exists s',
    ParseSDFExtension (D := Z) Samples.extensions_document Run.empty_state
    = Ok (tt, s').
Proof.
  split; [|split].
  - apply (X7_ParseSDFExtension_outcome (D := Z)). reflexivity.
  - destruct (X7_ParseSDFExtension_outcome (D := Z) Run.bad_number_document
                Run.empty_state) as [_ H].
    destruct (H _ eq_refl) as [Hbad _]. apply Hbad.
    vm_compute. repeat constructor.
  - destruct (X7_ParseSDFExtension_outcome (D := Z) Samples.extensions_document
                Run.empty_state) as [_ H].
    destruct (H _ eq_refl) as [_ Hgood]. apply Hgood.
    vm_compute. repeat constructor.
Defined.

Lemma X8_ParseSDFExtension_appends_records_witness :
  exists s',
    ParseSDFExtension (D := Z) Samples.extensions_document Run.empty_state
    = Ok (tt, s') /\
    length (extensions s') = 3 /\
    ext_list s' "base" = [0; 2] /\ ext_list s' "" = [1] /\
    ext_table_valid s'.
Proof.
  destruct (X8_ParseSDFExtension_appends_records (D := Z)
              Samples.extensions_document _ Run.empty_state eq_refl
              ltac:(vm_compute; repeat constructor))
    as (s' & news & Hrun & Hext & Hnews & Hlist & _ & _ & _ & _ & _ & _ & _
        & Hvalid).
  exists s'. split; [exact Hrun|]. split; [|split; [|split]].
  - rewrite Hext. apply Forall2_length in Hnews. simpl. by rewrite <- Hnews.
  - rewrite Hlist. reflexivity.
  - rewrite Hlist. reflexivity.
  - apply Hvalid. constructor.
Defined.

(* ===================================================================== *)
(** ** More of the converter: InsertSDFExtensionRobot *)
(* ===================================================================== *)

(** X9. Only the extensions without reference reach the root of the
    model: when the side-table holds no record under the empty reference,
    [InsertSDFExtensionRobot] returns the element it was given and leaves
    the state as it is, whatever is filed under other references. *)
Theorem X9_InsertSDFExtensionRobot_only_without_reference {D : Type}
    (_elem : TiXmlNode) (s : State D) :
  Forall (fun entry : string * list nat => fst entry = "" -> snd entry = [])
         (g_extensions s) ->
  InsertSDFExtensionRobot _elem s = Ok (_elem, s).
Proof.
  unfold InsertSDFExtensionRobot.
  unfold bind at 1. unfold gets at 1.
  generalize (g_extensions s) as table.
  induction table as [|[k ges] table IH]; intros Hnone; [reflexivity|].
  inversion Hnone as [|? ? Hk Hrest]; subst. simpl in Hk.
  unfold bind at 1.
  destruct (String.eqb_spec k "") as [->|Hne].
  - rewrite (Hk eq_refl). unfold ret at 1. by apply IH.
  - unfold ret at 1. by apply IH.
Qed.

Lemma X9_InsertSDFExtensionRobot_only_without_reference_witness :
  InsertSDFExtensionRobot (TiXmlElement "model" [] []) Run.chain_with_extensions
  = Ok (TiXmlElement "model" [] [], Run.chain_with_extensions).
Proof.
  apply X9_InsertSDFExtensionRobot_only_without_reference.
  vm_compute. repeat constructor; discriminate.
Defined.

(* ===================================================================== *)
(** ** More of the converter: what ReduceFixedJoints keeps and lumps *)
(* ===================================================================== *)

Section Identity.
Context {D : Type} {Dbl : Double D} {Blob : BlobRewriting D}.

Lemma keeps_identity_refl (s : State D) : keeps_identity s s.
Proof. split; [done|]. intros i lk Hi. exists lk. by repeat split. Qed.

Lemma keeps_identity_trans (s1 s2 s3 : State D) :
  keeps_identity s1 s2 -> keeps_identity s2 s3 -> keeps_identity s1 s3.
Proof.
  intros [Hl1 H1] [Hl2 H2]. split; [congruence|]. intros i lk Hi.
  destruct (H1 i lk Hi) as (lk2 & Hi2 & Hn2 & Hin2 & Hc2 & Hk2 & Hp2).
  destruct (H2 i lk2 Hi2) as (lk3 & Hi3 & Hn3 & Hin3 & Hc3 & Hk3 & Hp3).
  exists lk3. do 5 (split; [congruence|]).
  intros Hm. destruct (Hp2 Hm) as [Ha Hb].
  assert (Hm2 : movable lk2 = false) by (unfold movable; by rewrite Hb).
  destruct (Hp3 Hm2). split; congruence.
Qed.

Lemma keeps_identity_links (s s' : State D) :
  links s' = links s -> keeps_identity s s'.
Proof. intros H. unfold keeps_identity. rewrite H. apply keeps_identity_refl. Qed.

Lemma keeps_links_identity (s s' : State D) :
  keeps_links s s' -> keeps_identity s s'.
Proof. intros [H _]. by apply keeps_identity_links. Qed.

Lemma keeps_identity_put (s : State D) i lk lk' :
  links s !! i = Some lk ->
  name lk' = name lk -> inertial lk' = inertial lk ->
  child_joints lk' = child_joints lk -> joint_kind lk' = joint_kind lk ->
  (movable lk = false ->
   parent_link lk' = parent_link lk /\ parent_joint lk' = parent_joint lk) ->
  keeps_identity s (set_links (<[i := lk']> (links s)) s).
Proof.
  intros Hi Hn Hin Hc Hk Hp. split; [simpl; by rewrite length_insert|].
  intros i0 lk0 Hi0. simpl.
  destruct (decide (i0 = i)) as [->|Hne].
  - rewrite list_lookup_insert_eq by (by eapply lookup_lt_Some).
    assert (lk0 = lk) as -> by congruence. exists lk'.
    do 5 (split; [done|]). exact Hp.
  - rewrite list_lookup_insert_ne by done. exists lk0. by repeat split.
Qed.

Lemma lumpable_keeps_identity (s s' : State D) l :
  keeps_identity s s' -> lumpable s' l -> lumpable s l.
Proof.
  intros [Hlen Hk] (lk' & p & pk' & j' & Hl' & Hpar' & Hp' & Hw & Hj' & Hf).
  destruct (lookup_lt_is_Some_2 (links s) l) as [lk Hl].
  { rewrite <- Hlen. by eapply lookup_lt_Some. }
  destruct (lookup_lt_is_Some_2 (links s) p) as [pk Hp].
  { rewrite <- Hlen. by eapply lookup_lt_Some. }
  destruct (Hk l lk Hl) as (lk2 & Hl2 & _ & _ & _ & Hkind & Hsame).
  assert (lk2 = lk') as -> by congruence.
  destruct (Hk p pk Hp) as (pk2 & Hp2 & Hname & _).
  assert (pk2 = pk') as -> by congruence.
  unfold joint_kind in Hkind. rewrite Hj' in Hkind. simpl in Hkind.
  destruct (parent_joint lk) as [j|] eqn:Hj; [|done].
  simpl in Hkind. injection Hkind as Hjn Hjt.
  assert (Hm : movable lk = false).
  { unfold movable. rewrite Hj, <- Hjt, Hf. reflexivity. }
  destruct (Hsame Hm) as [Hpar _].
  exists lk, p, pk, j. repeat split; try done; congruence.
Qed.

Lemma lumps_refl (s : State D) : lumps [] s s.
Proof.
  split; [apply keeps_identity_refl|]. split; [simpl; by rewrite app_nil_r|].
  constructor.
Qed.

Lemma lumps_trans ls1 ls2 (s1 s2 s3 : State D) :
  lumps ls1 s1 s2 -> lumps ls2 s2 s3 -> lumps (ls1 ++ ls2) s1 s3.
Proof.
  intros (Hk1 & Hc1 & Hl1) (Hk2 & Hc2 & Hl2). split; [|split].
  - by eapply keeps_identity_trans.
  - by rewrite Hc2, Hc1, flat_map_app, app_assoc.
  - apply Forall_app. split; [done|].
    eapply Forall_impl; [exact Hl2|]. intros l. simpl.
    by apply lumpable_keeps_identity.
Qed.

Lemma ReduceGeomToParent_keeps_identity k p n it (s s' : State D) :
  ReduceGeomToParent k p n it s = Ok (tt, s') -> keeps_identity s s'.
Proof.
  destruct (links s !! p) as [pk|] eqn:Hp; last first.
  { unfold ReduceGeomToParent, get_link, bind, gets, deref. by rewrite Hp. }
  destruct (ReduceGeomToParent_adds_unless_present k s p pk n it Hp)
    as [Hpresent Habsent].
  destruct (decide (it ∈ group_items k pk n)) as [Hin|Hnin].
  - rewrite (Hpresent Hin). intros [= <-]. by apply keeps_identity_links.
  - destruct (Habsent Hnin)
      as (pk' & -> & _ & _ & _ & Hn & Hpar & Hj & Hi & Hc).
    intros [= <-]. apply (keeps_identity_put s p pk pk' Hp); try done.
    unfold joint_kind. by rewrite Hj.
Qed.

Lemma lump_geom_keeps_identity k l n it (s s' : State D) :
  lump_geom k l n it s = Ok (tt, s') -> keeps_identity s s'.
Proof.
  unfold lump_geom. intros H. inv_run H.
  apply get_geom_inv in Hrun as [-> _].
  apply get_link_inv in Hrun0 as [-> _]. apply deref_inv in Hrun1 as [_ ->].
  unfold put_geom in Hrun2. apply modify_inv in Hrun2 as ->.
  apply deref_inv in Hrun3 as [_ ->].
  destruct (a3 =? l)%nat; [done|].
  apply ReduceGeomToParent_keeps_identity in H.
  eapply keeps_identity_trans; [|exact H].
  apply keeps_identity_links. by destruct k.
Qed.

Lemma ReduceGeomsToParent_keeps_identity k l (s s' : State D) :
  ReduceGeomsToParent k l s = Ok (tt, s') -> keeps_identity s s'.
Proof.
  unfold ReduceGeomsToParent, called. intros H. inv_run H.
  apply modify_inv in Hrun as ->. apply get_link_inv in Hrun0 as [-> _].
  match type of H with
  | forM_ _ _ ?s1 = _ => apply (keeps_identity_trans s s1 s')
  end.
  - by apply keeps_identity_links.
  - revert H. apply forM__preorder;
      [apply keeps_identity_refl|apply keeps_identity_trans|].
    intros [g items] t t' _. simpl.
    destruct (String.prefix "lump::" g);
      (apply forM__preorder;
         [apply keeps_identity_refl|apply keeps_identity_trans|]);
      intros it u u' _; apply lump_geom_keeps_identity.
Qed.

Lemma ReduceSDFExtensionToParent_keeps_links l (s s' : State D) :
  ReduceSDFExtensionToParent l s = Ok (tt, s') -> links s' = links s.
Proof.
  unfold ReduceSDFExtensionToParent. intros H. repeat inv_step.
  apply frame_replace_loop_keeps_links in H.
  match goal with
  | Hm : match ?m with _ => _ end _ = Ok (_, ?s2) |- _ =>
      assert (Hmid : keeps_links
                       (set_calls (calls s ++ [(SDFExtensionToParent, l)]) s)
                       s2);
      [destruct m as [ext|]; repeat inv_step|]
  end.
  - match goal with
    | Hl : forM_ _ _ _ = Ok _ |- _ =>
        apply reduction_transform_loop_keeps_links in Hl
    end.
    eapply keeps_links_trans; [eassumption|].
    repeat match goal with
           | Hm : match ?m with _ => _ end _ = Ok _ |- _ =>
               destruct m; repeat inv_step
           | Hm : (if ?b then _ else _) _ = Ok _ |- _ =>
               destruct b; repeat inv_step
           end; by split.
  - apply keeps_links_refl.
  - destruct (keeps_links_trans _ _ _ Hmid H) as [Hl Hc]. exact Hl.
Qed.

Lemma ReduceJointsToParent_walk_keeps_identity fuel child :
  forall np (s : State D) np' s',
    ReduceJointsToParent_walk fuel child np s = Ok (np', s') ->
    (forall ck, links s !! child = Some ck -> movable ck = true) ->
    keeps_identity s s'.
Proof.
  induction fuel as [|fuel IH]; intros np s np' s'; simpl; [done|].
  intros H Hmov. repeat inv_step.
  destruct (parent_joint _) as [nj|]; repeat inv_step;
    [|apply keeps_identity_refl].
  destruct (_ && _); repeat inv_step; [|apply keeps_identity_refl].
  match goal with
  | Hc : links s !! child = Some ?ck, Hj : parent_joint ?ck = Some ?pj |- _ =>
      pose proof (Hmov ck Hc) as Hm;
      assert (Hput : keeps_identity s
                (set_links
                   (<[child := set_parent (parent_link ck)
                        (Some (set_transform
                                 (TransformToParentFrame_uu
                                    (parent_to_joint_origin_transform pj)
                                    (parent_to_joint_origin_transform nj))
                                 pj)) ck]> (links s)) s))
  end.
  { eapply keeps_identity_put; [eassumption|done|done|done| |].
    - unfold joint_kind. simpl.
      match goal with Hd : parent_joint _ = Some _ |- _ => by rewrite Hd end.
    - intros Hfalse. congruence. }
  eapply keeps_identity_trans; [exact Hput|].
  eapply IH; [exact H|]. simpl. intros ck1.
  rewrite list_lookup_insert_eq by (by eapply lookup_lt_Some).
  intros [= <-]. unfold movable in *. simpl.
  match goal with
  | Hd : parent_joint _ = Some _ |- _ => by rewrite Hd in Hm
  end.
Qed.

Lemma ReduceJointsToParent_keeps_identity l children (s s' : State D) :
  ReduceJointsToParent l children s = Ok (tt, s') -> keeps_identity s s'.
Proof.
  unfold ReduceJointsToParent. intros H. repeat inv_step.
  match type of H with
  | forM_ _ _ ?s1 = _ => apply (keeps_identity_trans s s1 s')
  end.
  { by apply keeps_identity_links. }
  revert H. apply forM__preorder;
    [apply keeps_identity_refl|apply keeps_identity_trans|].
  intros c t t' _ H. repeat inv_step.
  destruct (negb _) eqn:Hmov; repeat inv_step; [|apply keeps_identity_refl].
  match goal with
  | Hc : links t !! c = Some ?ck, Hj : parent_joint ?ck = Some _ |- _ =>
      assert (Hmovable : movable ck = true)
        by (unfold movable; rewrite Hj; exact Hmov)
  end.
  match goal with
  | Hw : ReduceJointsToParent_walk _ _ _ _ = Ok _ |- _ =>
      pose proof (ReduceJointsToParent_walk_reduces _ _ _ _ _ _ Hw)
        as [Hshape _];
      apply ReduceJointsToParent_walk_keeps_identity in Hw as Hwalk;
        [|intros ck0 Hck0; congruence]
  end.
  eapply keeps_identity_trans; [exact Hwalk|].
  match goal with
  | Hc : links t !! c = Some ?ck |- _ =>
      destruct (Hshape c ck Hc) as (ck1 & Hc1 & _ & Hm1 & _)
  end.
  match goal with
  | Hc : links ?u !! c = Some ?x, Hj : parent_joint ?x = Some ?pj
    |- keeps_identity ?u _ =>
      assert (Hx : x = ck1) by congruence;
      apply (keeps_identity_put u c x _ Hc); try done;
      [unfold joint_kind; simpl; by rewrite Hj
      |intros Hfalse; rewrite Hx in Hfalse; congruence]
  end.
Qed.

Lemma lumps_to_parent_true l (s s' : State D) :
  lumps_to_parent l s = Ok (true, s') -> lumpable s l.
Proof.
  unfold lumps_to_parent. intros H. repeat inv_step.
  destruct (parent_link _) as [p|] eqn:Hpar; repeat inv_step; [|done].
  match goal with
  | Hb : true = _ |- _ => symmetry in Hb; apply andb_prop in Hb as [Hname Hfixed]
  end.
  apply negb_true_iff, String.eqb_neq in Hname.
  destruct (parent_joint _) as [j|] eqn:Hj; [|done].
  eexists _, p, _, j. repeat split; try eassumption.
  by destruct (joint_type j).
Qed.

Lemma elem_of_tree_links_child l cs c x :
  c ∈ cs -> x ∈ tree_links c -> x ∈ tree_links (Node l cs).
Proof.
  intros Hc Hx. simpl. apply elem_of_cons. right.
  apply list_elem_of_In, in_flat_map. exists c.
  split; by apply list_elem_of_In.
Qed.

Lemma ReduceFixedJoints_lumps t :
  forall s s' : State D,
    ReduceFixedJoints t s = Ok (tt, s') ->
    exists ls, lumps ls s s' /\ Forall (fun l => l ∈ tree_links t) ls.
Proof.
  induction t as [l cs IH] using LinkTree_induction. intros s s'. simpl.
  intros H. inv_run H. destruct a, a1.
  set (R := fun u u' : State D =>
              exists ls, lumps ls u u' /\
                         Forall (fun x => x ∈ tree_links (Node l cs)) ls).
  assert (Hrefl : forall u, R u u).
  { intros u. exists []. split; [apply lumps_refl|constructor]. }
  assert (Htrans : forall u1 u2 u3, R u1 u2 -> R u2 u3 -> R u1 u3).
  { intros u1 u2 u3 (ls1 & H1 & F1) (ls2 & H2 & F2). exists (ls1 ++ ls2).
    split; [by eapply lumps_trans|]. apply Forall_app. by split. }
  assert (Hloop : forall (keep : bool) u u',
             forM_ (fun c : LinkTree =>
                      do fixed <- child_is_fixed (root c);
                      if (if keep then fixed else negb fixed)
                      then ReduceFixedJoints c else ret tt) cs u
             = Ok (tt, u') -> R u u').
  { intros keep u u'. apply forM__preorder; [exact Hrefl|exact Htrans|].
    intros c t t' Hc Hrun'. inv_run Hrun'.
    apply child_is_fixed_inv in Hrun2 as ->.
    rewrite Forall_forall in IH.
    destruct (if keep then a else negb a).
    - destruct (IH c Hc _ _ Hrun') as (ls & Hls & Hin). exists ls.
      split; [done|]. eapply Forall_impl; [exact Hin|]. simpl.
      intros x. by apply elem_of_tree_links_child.
    - apply ret_inv in Hrun' as [_ ->]. apply Hrefl. }
  apply (Hloop true) in Hrun. apply (Hloop false) in H.
  assert (Hl : lumps_to_parent l s0 = Ok (a0, s1)) by exact Hrun0.
  apply lumps_to_parent_inv in Hrun0 as [-> _].
  change (R s s'). eapply Htrans; [exact Hrun|].
  eapply Htrans; [|exact H].
  destruct a0; [|apply ret_inv in Hrun1 as [_ ->]; apply Hrefl].
  apply lumps_to_parent_true in Hl.
  inv_run Hrun1. destruct a, a0, a1, a2.
  exists [l]. split; [|constructor; [simpl; by left|constructor]].
  pose proof (ReduceSDFExtensionToParent_keeps_links _ _ _ Hrun0) as K0.
  apply ReduceSDFExtensionToParent_reduces in Hrun0 as [_ C0].
  pose proof Hrun2 as K1. unfold ReduceInertialToParent, called in K1.
  apply modify_inv in K1.
  apply ReduceInertialToParent_reduces in Hrun2 as [_ C1].
  pose proof (ReduceGeomsToParent_keeps_identity _ _ _ _ Hrun3) as K2.
  apply ReduceGeomsToParent_reduces in Hrun3 as [_ C2].
  pose proof (ReduceGeomsToParent_keeps_identity _ _ _ _ Hrun4) as K3.
  apply ReduceGeomsToParent_reduces in Hrun4 as [_ C3].
  pose proof (ReduceJointsToParent_keeps_identity _ _ _ _ Hrun1) as K4.
  apply ReduceJointsToParent_reduces in Hrun1 as [_ C4].
  split; [|split].
  - apply (keeps_identity_trans s0 s1 s2); [by apply keeps_identity_links|].
    apply (keeps_identity_trans s1 s3 s2);
      [apply keeps_identity_links; by rewrite K1|].
    apply (keeps_identity_trans s3 s4 s2); [exact K2|].
    apply (keeps_identity_trans s4 s5 s2); [exact K3|exact K4].
  - rewrite C4, C3, C2, C1, C0. simpl. rewrite <- !app_assoc. reflexivity.
  - by constructor.
Qed.

(** X10. [ReduceFixedJoints] removes no link and renames none.  When it
    returns, the links are as many as before, and each one has the name,
    the inertial block (so that no mass is ever added to a parent), the
    child joints and the parent joint's name and type it had; a link that
    does not hang on a movable joint also has the parent and the parent
    joint it had, unchanged. *)
Theorem X10_ReduceFixedJoints_keeps_the_links (t : LinkTree)
    (s s' : State D) :
  ReduceFixedJoints t s = Ok (tt, s') ->
  length (links s') = length (links s) /\
  forall i lk,
    links s !! i = Some lk ->
    exists lk',
      links s' !! i = Some lk' /\ name lk' = name lk /\
      inertial lk' = inertial lk /\ child_joints lk' = child_joints lk /\
      joint_kind lk' = joint_kind lk /\
      (movable lk = false ->
       parent_link lk' = parent_link lk /\ parent_joint lk' = parent_joint lk).
Proof.
  intros H. destruct (ReduceFixedJoints_lumps t s s' H) as (ls & [Hk _] & _).
  exact Hk.
Qed.

(** X11. The lumping calls that [ReduceFixedJoints] makes come in whole
    groups of five, one group for each link it lumps:
    [ReduceSDFExtensionToParent], [ReduceInertialToParent],
    [ReduceVisualsToParent], [ReduceCollisionsToParent],
    [ReduceJointsToParent], in this order.  Every link lumped is a link of
    the tree that, in the state the reduction started from, had a parent
    not named "world" and hung on it by a fixed joint. *)
Theorem X11_ReduceFixedJoints_lumps_fixed_links_only (t : LinkTree)
    (s s' : State D) :
  ReduceFixedJoints t s = Ok (tt, s') ->
  exists ls,
    calls s' = calls s ++ flat_map lumping_calls ls /\
    Forall (lumpable s) ls /\
    Forall (fun l => l ∈ tree_links t) ls.
Proof.
  intros H.
  destruct (ReduceFixedJoints_lumps t s s' H) as (ls & (_ & Hc & Hl) & Ht).
  by exists ls.
Qed.

(** X12. On a tree none of whose links has a fixed parent joint to a
    parent not named "world", [ReduceFixedJoints] changes nothing at
    all. *)
Theorem X12_ReduceFixedJoints_without_fixed_joints (t : LinkTree) :
  forall s s' : State D,
    (forall l, l ∈ tree_links t -> ~ lumpable s l) ->
    ReduceFixedJoints t s = Ok (tt, s') ->
    s' = s.
Proof.
  induction t as [l cs IH] using LinkTree_induction. intros s s' Hnone. simpl.
  intros H. inv_run H. destruct a, a1.
  assert (Hloop : forall (keep : bool) u',
             forM_ (fun c : LinkTree =>
                      do fixed <- child_is_fixed (root c);
                      if (if keep then fixed else negb fixed)
                      then ReduceFixedJoints c else ret tt) cs s
             = Ok (tt, u') -> u' = s).
  { intros keep u'.
    apply (forM__invariant (fun u => u = s)); [|done].
    intros c u u2 Hc -> Hrun'. inv_run Hrun'.
    apply child_is_fixed_inv in Hrun2 as ->.
    rewrite Forall_forall in IH.
    destruct (if keep then a else negb a).
    - apply (IH c Hc s u2); [|done]. intros x Hx.
      apply Hnone. by eapply elem_of_tree_links_child.
    - by apply ret_inv in Hrun' as [_ ->]. }
  apply (Hloop true) in Hrun. subst s0.
  assert (Hl : lumps_to_parent l s = Ok (a0, s1)) by exact Hrun0.
  apply lumps_to_parent_inv in Hrun0 as [-> _].
  destruct a0.
  - apply lumps_to_parent_true in Hl. exfalso.
    apply (Hnone l); [simpl; by left|done].
  - apply ret_inv in Hrun1 as [_ ->]. by apply (Hloop false).
Qed.

End Identity.

Lemma X10_ReduceFixedJoints_keeps_the_links_witness :
  exists s' lk',
    ReduceFixedJoints Run.world_tree Run.world_model = Ok (tt, s') /\
    length (links s') = 4 /\
    links s' !! 3 = Some lk' /\ name lk' = "link2" /\
    inertial lk' = Run.heavy.
Proof.
  destruct (ReduceFixedJoints Run.world_tree Run.world_model)
    as [[[] s']|] eqn:H; [|vm_compute in H; discriminate].
  destruct (X10_ReduceFixedJoints_keeps_the_links _ _ _ H) as [Hlen Hk].
  destruct (Hk 3 _ eq_refl) as (lk' & Hl & Hn & Hi & _).
  exists s', lk'. auto.
Defined.

Lemma X11_ReduceFixedJoints_lumps_fixed_links_only_witness :
  exists s' ls,
    ReduceFixedJoints Run.world_tree Run.world_model = Ok (tt, s') /\
    calls s' = flat_map lumping_calls ls /\
    Forall (lumpable Run.world_model) ls.
Proof.
  destruct (ReduceFixedJoints Run.world_tree Run.world_model)
    as [[[] s']|] eqn:H; [|vm_compute in H; discriminate].
  destruct (X11_ReduceFixedJoints_lumps_fixed_links_only _ _ _ H)
    as (ls & Hc & Hl & _).
  exists s', ls. auto.
Defined.

Lemma X12_ReduceFixedJoints_without_fixed_joints_witness :
  ReduceFixedJoints Run.massless_tree Run.massless_model
  = Ok (tt, Run.massless_model).
Proof.
  destruct (ReduceFixedJoints Run.massless_tree Run.massless_model)
    as [[[] s']|] eqn:H; [|vm_compute in H; discriminate].
  assert (Hnone : forall l, l ∈ tree_links Run.massless_tree ->
                            ~ lumpable Run.massless_model l).
  { intros l Hl (lk & p & pk & j & H1 & H2 & H3 & H4 & H5 & H6).
    simpl in Hl.
    repeat (apply elem_of_cons in Hl as [->|Hl];
            [simpl in H1; injection H1 as <-; simpl in H5;
             first [discriminate H5
                   |injection H5 as <-; discriminate H6]|]).
    by apply elem_of_nil in Hl. }
  rewrite (X12_ReduceFixedJoints_without_fixed_joints _ _ _ Hnone H).
  reflexivity.
Defined.

(* ===================================================================== *)
(** ** More of the converter: ReduceJointsToParent *)
(* ===================================================================== *)

Section Rehoming.
Context {D : Type} {Dbl : Double D} {Blob : BlobRewriting D}.


(** What one pass of the loop of [ReduceJointsToParent] does for the
    child [c]. *)
Local Abbreviation rehome l :=
  (fun c : nat =>
     do ck <- get_link c;
     do parentJoint <- deref (parent_joint ck);
     if negb (JointType_eqb (joint_type parentJoint) FIXED) then
       do n <- gets (fun s => length (links s));
       do newParentLink <- ReduceJointsToParent_walk (S n) c l;
       do np <- get_link newParentLink;
       do ck1 <- get_link c;
       do parentJoint1 <- deref (parent_joint ck1);
       put_link c
         (set_parent (Some newParentLink)
            (Some (set_parent_link_name (name np) parentJoint1)) ck1)
     else ret tt).



End Rehoming.


(* ===================================================================== *)
(** ** More of the converter: the origins of lumped geometry *)
(* ===================================================================== *)

Section OriginFacts.
Context {D : Type} {Dbl : Double D}.

Lemma ReduceGeomToParent_geoms k p n it (s s' : State D) :
  ReduceGeomToParent k p n it s = Ok (tt, s') ->
  visuals s' = visuals s /\ collisions s' = collisions s.
Proof.
  destruct (links s !! p) as [pk|] eqn:Hp; last first.
  { unfold ReduceGeomToParent, get_link, bind, gets, deref. by rewrite Hp. }
  destruct (ReduceGeomToParent_adds_unless_present k s p pk n it Hp)
    as [Hpresent Habsent].
  destruct (decide (it ∈ group_items k pk n)) as [Hin|Hnin].
  - rewrite (Hpresent Hin). by intros [= <-].
  - destruct (Habsent Hnin) as (pk' & -> & _). by intros [= <-].
Qed.

Lemma geoms_set_geoms k v (s : State D) : geoms k (set_geoms k v s) = v.
Proof. by destruct k. Qed.

Lemma geoms_set_geoms_ne k k' v (s : State D) :
  k' <> k -> geoms k' (set_geoms k v s) = geoms k' s.
Proof. by destruct k, k'. Qed.

Lemma lump_geom_origin k l n it (s s' : State D) lk j :
  lump_geom k l n it s = Ok (tt, s') ->
  links s !! l = Some lk -> parent_joint lk = Some j ->
  links s' !! l = Some lk /\
  (exists g, geoms k s !! it = Some g /\
             geoms k s' = <[it := to_parent_frame j g]> (geoms k s)) /\
  (forall k', k' <> k -> geoms k' s' = geoms k' s).
Proof.
  intros H Hl Hj.
  destruct (lump_geom_inv k l n it s s' lk Hl H)
    as (p & pk & pk' & _ & Hpl & _ & _ & Hframe & _).
  split; [by rewrite (Hframe l) by done|].
  unfold lump_geom in H. inv_run H.
  apply get_geom_inv in Hrun as [-> Hg].
  apply get_link_inv in Hrun0 as [-> Hl0]. apply deref_inv in Hrun1 as [Hj0 ->].
  unfold put_geom in Hrun2. apply modify_inv in Hrun2 as ->.
  apply deref_inv in Hrun3 as [_ ->].
  destruct (a3 =? l)%nat; [done|].
  apply ReduceGeomToParent_geoms in H as [Hv Hc].
  assert (a0 = lk) as -> by congruence.
  assert (a1 = j) as -> by congruence.
  assert (Hsame : forall k0, geoms k0 s'
            = geoms k0 (set_geoms k (<[it := to_parent_frame j a]> (geoms k s)) s)).
  { intros k0. destruct k0; simpl; [exact Hv|exact Hc]. }
  split.
  - exists a. split; [done|]. by rewrite Hsame, geoms_set_geoms.
  - intros k' Hk. by rewrite Hsame, geoms_set_geoms_ne.
Qed.

Lemma lump_loop_origin k l lk j (L : list (string * nat)) :
  parent_joint lk = Some j ->
  forall s s' : State D,
    links s !! l = Some lk ->
    forM_ (fun e => lump_geom k l (fst e) (snd e)) L s = Ok (tt, s') ->
    (forall x g,
        geoms k s !! x = Some g ->
        geoms k s' !! x
        = Some (Nat.iter (count_occ Nat.eq_dec (map snd L) x)
                         (to_parent_frame j) g)) /\
    (forall k', k' <> k -> geoms k' s' = geoms k' s).
Proof.
  intros Hj. induction L as [|[n it] L IH]; intros s s' Hl H.
  - apply ret_inv in H as [_ ->]. by split.
  - change (forM_ (fun e => lump_geom k l (fst e) (snd e)) ((n, it) :: L) s)
      with (bind (lump_geom k l n it)
              (fun _ => forM_ (fun e => lump_geom k l (fst e) (snd e)) L) s)
      in H.
    apply bind_inv in H as ([] & s1 & H1 & H2).
    destruct (lump_geom_origin _ _ _ _ _ _ _ _ H1 Hl Hj)
      as (Hl1 & (g0 & Hg0 & Hgeoms) & Hother).
    destruct (IH s1 s' Hl1 H2) as [IHk IHother].
    split.
    + intros x g Hx. simpl map. simpl count_occ.
      destruct (Nat.eq_dec it x) as [->|Hne].
      * rewrite Nat.iter_succ_r. apply IHk. rewrite Hgeoms.
        rewrite list_lookup_insert_eq by (by eapply lookup_lt_Some).
        congruence.
      * apply IHk. rewrite Hgeoms. by rewrite list_lookup_insert_ne.
    + intros k' Hk. rewrite (IHother k' Hk). by apply Hother.
Qed.

Lemma map_snd_lump_pairs k (lk : Link D) :
  map snd (lump_pairs k lk) = flat_map snd (groups k lk).
Proof.
  unfold lump_pairs. induction (groups k lk) as [|[g items] gs IH]; [done|].
  simpl. rewrite map_app, IH. f_equal.
  rewrite map_map. simpl. apply map_id.
Qed.

(** X14. Lumping the visuals (or the collisions) of a link moves the
    origin of each of them into the frame of the parent, by
    [TransformToParentFrame] with the transform of the link's parent
    joint, once for each time the item occurs in the groups of the link:
    an item that is in two groups is moved twice.  The items of other
    links and the geometry of the other kind are left as they are. *)
Theorem X14_lumped_origins_move_to_the_parent_frame (k : GeomKind)
    (l : LinkPtr) (s s' : State D) (lk : Link D) (j : Joint D) :
  ReduceGeomsToParent k l s = Ok (tt, s') ->
  links s !! l = Some lk ->
  parent_joint lk = Some j ->
  (forall x g,
      geoms k s !! x = Some g ->
      geoms k s' !! x
      = Some (Nat.iter (count_occ Nat.eq_dec (flat_map snd (groups k lk)) x)
                       (to_parent_frame j) g)) /\
  (forall k', k' <> k -> geoms k' s' = geoms k' s).
Proof.
  intros H Hl Hj. rewrite (ReduceGeomsToParent_flat k l s lk Hl) in H.
  rewrite <- map_snd_lump_pairs.
  match type of H with
  | forM_ _ _ ?s0 = _ =>
      destruct (lump_loop_origin k l lk j _ Hj s0 s' Hl H) as [Hk Ho]
  end.
  split.
  - intros x g Hx. apply Hk. by destruct k.
  - intros k' Hne. rewrite (Ho k' Hne). by destruct k, k'.
Qed.

End OriginFacts.

Lemma X14_lumped_origins_move_to_the_parent_frame_witness :
  exists s',
    ReduceVisualsToParent 2 Run.chain = Ok (tt, s') /\
    visuals s' !! 0
    = Some (to_parent_frame (Run.fixed_to "chassis" "j2") Run.geom0) /\
    visuals s' !! 1 = Some Run.geom0 /\
    collisions s' = collisions Run.chain.
Proof.
  destruct (ReduceVisualsToParent 2 Run.chain)
    as [[[] s']|] eqn:H; [|vm_compute in H; discriminate].
  destruct (X14_lumped_origins_move_to_the_parent_frame Visual 2 Run.chain s'
              _ _ H eq_refl eq_refl) as [Hk Ho].
  exists s'. split; [done|]. split; [|split].
  - exact (Hk 0 _ eq_refl).
  - exact (Hk 1 _ eq_refl).
  - exact (Ho Collision ltac:(discriminate)).
Defined.

(* ===================================================================== *)
(** ** More of the converter: the links CreateSDF writes *)
(* ===================================================================== *)

Section WritesFacts.
Context {D : Type} {Dbl : Double D}.

(** X15. [CreateSDF] and [ReduceFixedJoints] test a link in complementary
    ways.  For a link with a valid parent pointer that has a parent
    exactly when it has a parent joint: with the reduction of fixed joints
    switched on, [CreateSDF] writes the link exactly when
    [ReduceFixedJoints] does not lump it, that is, when it is not
    lumpable; with the reduction switched off, [CreateSDF] writes
    it. *)
Theorem X15_CreateSDF_writes_what_is_not_lumped (s : State D) (l : LinkPtr)
    (lk : Link D) :
  links s !! l = Some lk ->
  (forall p, parent_link lk = Some p -> is_Some (links s !! p)) ->
  (is_Some (parent_link lk) <-> is_Some (parent_joint lk)) ->
  exists b,
    lumps_to_parent l s = Ok (b, s) /\
    (b = true <-> lumpable s l) /\
    writes_link l s = Ok (negb (g_reduceFixedJoints s) || negb b, s).
Proof.
  intros Hl Hvalid Hwf. unfold lumps_to_parent, writes_link.
  bind_step (get_link_Ok _ _ _ Hl). bind_step (get_link_Ok _ _ _ Hl).
  destruct (parent_link lk) as [p|] eqn:Hp.
  - destruct (Hvalid p eq_refl) as [pk Hpk].
    bind_step (get_link_Ok _ _ _ Hpk).
    destruct (proj1 Hwf ltac:(by eexists)) as [j Hj]. rewrite Hj.
    eexists. split; [reflexivity|]. split.
    + split.
      * intros Hb. apply andb_prop in Hb as [Hname Hfixed].
        apply negb_true_iff, String.eqb_neq in Hname.
        exists lk, p, pk, j. repeat split; try done.
        by destruct (joint_type j).
      * intros (lk0 & p0 & pk0 & j0 & H1 & H2 & H3 & H4 & H5 & H6).
        assert (lk0 = lk) as -> by congruence.
        assert (p0 = p) as -> by congruence.
        assert (pk0 = pk) as -> by congruence.
        assert (j0 = j) as -> by congruence.
        apply andb_true_intro. split.
        -- by apply negb_true_iff, String.eqb_neq.
        -- by rewrite H6.
    + unfold bind. rewrite (get_link_Ok _ _ _ Hpk).
      unfold gets, ret. f_equal. f_equal.
      destruct (String.eqb (name pk) "world"), (g_reduceFixedJoints s),
        (JointType_eqb (joint_type j) FIXED); reflexivity.
  - assert (Hnj : parent_joint lk = None).
    { destruct (parent_joint lk) eqn:Hj; [|done].
      destruct (proj2 Hwf ltac:(by eexists)) as [? ?]. done. }
    rewrite Hnj. exists false. split; [reflexivity|]. split.
    + split; [done|].
      intros (lk0 & p0 & pk0 & j0 & H1 & H2 & _). congruence.
    + unfold bind, gets, ret. by destruct (g_reduceFixedJoints s).
Qed.

End WritesFacts.

Lemma X15_CreateSDF_writes_what_is_not_lumped_witness :
  (lumps_to_parent 3 Run.world_model = Ok (true, Run.world_model) /\
   writes_link 3 Run.world_model = Ok (false, Run.world_model)) /\
  (lumps_to_parent 1 Run.world_model = Ok (false, Run.world_model) /\
   writes_link 1 Run.world_model = Ok (true, Run.world_model)).
Proof.
  split.
  - destruct (X15_CreateSDF_writes_what_is_not_lumped Run.world_model 3 _
                eq_refl) as (b & Hb & _ & Hw).
    + intros p [= <-]. by eexists.
    + split; intros _; by eexists.
    + rewrite Hb, Hw.
      assert (b = true) as -> by (vm_compute in Hb; congruence). done.
  - destruct (X15_CreateSDF_writes_what_is_not_lumped Run.world_model 1 _
                eq_refl) as (b & Hb & _ & Hw).
    + intros p [= <-]. by eexists.
    + split; intros _; by eexists.
    + rewrite Hb, Hw.
      assert (b = false) as -> by (vm_compute in Hb; congruence). done.
Defined.

(* ===================================================================== *)
(** ** More of the converter: link names in the blobs of an extension *)
(* ===================================================================== *)

Lemma FirstChild_head c key :
  FirstChild c key = head (filter (fun n => Value n = key) c).
Proof.
  unfold FirstChild. induction c as [|n c IH]; [done|]. simpl.
  destruct (String.eqb_spec (Value n) key) as [He|Hne].
  - by rewrite filter_cons_True.
  - by rewrite filter_cons_False.
Qed.

Lemma filter_remove_first_child c key :
  filter (fun n => Value n = key) (remove_first_child key c)
  = tail (filter (fun n => Value n = key) c).
Proof.
  induction c as [|n c IH]; [done|]. simpl.
  destruct (String.eqb_spec (Value n) key) as [He|Hne].
  - by rewrite filter_cons_True.
  - by rewrite !filter_cons_False.
Qed.

Lemma filter_other_remove_first_child (P : TiXmlNode -> Prop)
    `{!forall n, Decision (P n)} c key :
  (forall n, P n -> Value n <> key) ->
  filter P (remove_first_child key c) = filter P c.
Proof.
  intros HP. induction c as [|n c IH]; [done|]. simpl.
  destruct (String.eqb_spec (Value n) key) as [He|Hne].
  - rewrite filter_cons_False; [done|]. intros Hn. by apply (HP n).
  - rewrite !filter_cons. by rewrite IH.
Qed.

Lemma replace_key_spec v a c key oldValue newValue :
  (filter (fun n => Value n = key) c = [] ->
   replace_key (TiXmlElement v a c) key oldValue newValue
   = Ok (TiXmlElement v a c)) /\
  (forall child,
      filter (fun n => Value n = key) c = [child] ->
      is_element child = true ->
      exists c' child',
        replace_key (TiXmlElement v a c) key oldValue newValue
        = Ok (TiXmlElement v a c') /\
        filter (fun n => Value n = key) c' = [child'] /\
        is_element child' = true /\
        GetKeyValueAsString child'
        = (if String.eqb (GetKeyValueAsString child) oldValue
           then newValue else GetKeyValueAsString child) /\
        forall (P : TiXmlNode -> Prop) (Hdec : forall n, Decision (P n)),
          (forall n, P n -> Value n <> key) -> filter P c' = filter P c).
Proof.
  unfold replace_key. simpl node_children. rewrite FirstChild_head. split.
  - by intros ->.
  - intros child Hc He. rewrite Hc. simpl. unfold ToElement. rewrite He.
    destruct (String.eqb (GetKeyValueAsString child) oldValue) eqn:Eq.
    + exists (remove_first_child key c ++ [TiXmlElement key [] [TiXmlText newValue]]),
             (TiXmlElement key [] [TiXmlText newValue]).
      simpl. split; [done|]. split; [|split; [done|split; [done|]]].
      * rewrite filter_app, filter_remove_first_child, Hc. simpl.
        by rewrite filter_cons_True.
      * intros P HP Hne. rewrite filter_app.
        rewrite filter_other_remove_first_child by done.
        rewrite filter_cons_False; [by rewrite filter_nil, app_nil_r|].
        intros Hn. by apply (Hne _ Hn).
    + exists c, child. by rewrite Hc.
Qed.

Lemma replace_two_keys_redirects
    (f : TiXmlNode -> string -> string -> Result TiXmlNode)
    (tag key1 key2 : string) :
  key1 <> key2 ->
  (forall blob linkName newLinkName,
      f blob linkName newLinkName
      = if String.eqb (Value blob) tag then
          match replace_key blob key1 linkName newLinkName with
          | Ok blob1 => replace_key blob1 key2 linkName newLinkName
          | Fail e => Fail e
          end
        else Ok blob) ->
  redirects_link_names f tag key1 key2.
Proof.
  intros Hkeys Hf a c linkName newLinkName. split.
  - intros blob Hne. rewrite Hf.
    by destruct (String.eqb_spec (Value blob) tag).
  - intros e1 e2 H1 He1 H2 He2. rewrite Hf. simpl Value.
    rewrite String.eqb_refl.
    destruct (replace_key_spec tag a c key1 linkName newLinkName) as [_ Hr1].
    destruct (Hr1 e1 H1 He1) as (c1 & e1' & -> & Hc1 & He1' & Hv1 & Hk1).
    destruct (replace_key_spec tag a c1 key2 linkName newLinkName)
      as [_ Hr2].
    assert (H2' : filter (fun n => Value n = key2) c1 = [e2]).
    { rewrite (Hk1 (fun n => Value n = key2) _); [done|].
      intros n ->. done. }
    destruct (Hr2 e2 H2' He2) as (c2 & e2' & -> & Hc2 & He2' & Hv2 & Hk2).
    exists c2, e1', e2'. split; [done|]. split; [|split; [|split; [|split]]].
    + rewrite (Hk2 (fun n => Value n = key1) _); [done|].
      intros n ->. done.
    + exact Hv1.
    + exact Hc2.
    + exact Hv2.
    + rewrite (Hk2 (fun n => Value n <> key1 /\ Value n <> key2) _)
        by (by intros n [_ ?]).
      by rewrite (Hk1 (fun n => Value n <> key1 /\ Value n <> key2) _)
        by (by intros n [? _]).
Qed.

(** X16. In a [<joint>] blob of an extension, the references to the
    lumped link are redirected to its parent.  For a blob with one
    [<parent>] and one [<child>] element,
    [ReduceSDFExtensionJointFrameReplace] returns the blob with again one
    of each; the value of each is the name of the link's parent if it was
    the name of the link, and is unchanged otherwise; the other children
    of the blob are kept in their order.
    [ReduceSDFExtensionGripperFrameReplace] does the same for the
    [<gripper_link>] and [<palm_link>] of a [<gripper>] blob.  A blob with
    another tag is returned as it is. *)
Theorem X16_frame_replace_redirects_link_names :
  redirects_link_names ReduceSDFExtensionJointFrameReplace
                       "joint" "parent" "child" /\
  redirects_link_names ReduceSDFExtensionGripperFrameReplace
                       "gripper" "gripper_link" "palm_link".
Proof. split; by apply replace_two_keys_redirects. Qed.

Lemma X16_frame_replace_redirects_link_names_witness :
  exists c',
    ReduceSDFExtensionJointFrameReplace
      (TiXmlElement "joint" [("name", "j")]
         [ TiXmlElement "parent" [] [TiXmlText "wheel"];
           TiXmlElement "axis" [] [];
           TiXmlElement "child" [] [TiXmlText "arm"] ])
      "wheel" "chassis"
    = Ok (TiXmlElement "joint" [("name", "j")] c') /\
    GetKeyValueAsString <$> FirstChild c' "parent" = Some "chassis" /\
    GetKeyValueAsString <$> FirstChild c' "child" = Some "arm".
Proof.
  destruct X16_frame_replace_redirects_link_names as [Hjoint _].
  destruct (Hjoint [("name", "j")]
              [ TiXmlElement "parent" [] [TiXmlText "wheel"];
                TiXmlElement "axis" [] [];
                TiXmlElement "child" [] [TiXmlText "arm"] ]
              "wheel" "chassis") as [_ H].
  destruct (H _ _ eq_refl eq_refl eq_refl eq_refl)
    as (c' & e1' & e2' & Hrun & H1 & Hv1 & H2 & Hv2 & _).
  exists c'. split; [exact Hrun|].
  rewrite !FirstChild_head, H1, H2. simpl. by rewrite Hv1, Hv2.
Defined.

Lemma string_find_app (a rest : string) :
  string_find "/"%char a = None ->
  string_find "/"%char (a +:+ "/" +:+ rest) = Some (String.length a).
Proof.
  induction a as [|c a IH]; [done|].
  change (String c a +:+ "/" +:+ rest) with (String c (a +:+ "/" +:+ rest)).
  simpl. destruct (Ascii.eqb c "/"); [done|].
  intros Hn. destruct (string_find "/" a) eqn:Ha; [done|].
  by rewrite IH.
Qed.

Lemma string_find_None_app (a b : string) :
  string_find "/"%char (a +:+ b) = None -> string_find "/"%char a = None.
Proof.
  induction a as [|c a IH]; [done|].
  change (String c a +:+ b) with (String c (a +:+ b)). simpl.
  destruct (Ascii.eqb c "/"); [done|].
  destruct (string_find "/" (a +:+ b)) eqn:Hab; [done|]. intros _.
  by rewrite IH.
Qed.

Lemma substring_prefix (a s : string) :
  String.substring 0 (String.length a) (a +:+ s) = a.
Proof.
  induction a as [|c a IH]; [by destruct s|].
  change (String c a +:+ s) with (String c (a +:+ s)). simpl. by rewrite IH.
Qed.

Lemma substring_all (s : string) :
  forall m, String.length s <= m -> String.substring 0 m s = s.
Proof.
  induction s as [|c s IH]; intros m Hm; [by destruct m|].
  destruct m as [|m]; [simpl in Hm; lia|]. simpl. rewrite IH; [done|].
  simpl in Hm. lia.
Qed.

Lemma substring_suffix (a rest : string) :
  forall m, String.length rest <= m ->
            String.substring (String.length a + 1) m (a +:+ "/" +:+ rest)
            = rest.
Proof.
  induction a as [|c a IH]; intros m Hm.
  - change ("" +:+ "/" +:+ rest) with (String "/" rest). simpl.
    by apply substring_all.
  - change (String c a +:+ "/" +:+ rest)
      with (String c (a +:+ "/" +:+ rest)). simpl. by apply IH.
Qed.

Lemma length_app_string (a b : string) :
  String.length (a +:+ b) = String.length a + String.length b.
Proof.
  induction a as [|c a IH]; [done|].
  change (String c a +:+ b) with (String c (a +:+ b)). simpl. by rewrite IH.
Qed.

(** X17. [ReduceSDFExtensionProjectorFrameReplace] on a blob with one
    [<projector>] element.  A value [link/name] whose link is the lumped
    link becomes [parent/name], and nothing is logged; a value with
    another link before the slash is left alone.  A value without slash
    is reported as an error, and yet, when it is the name of the lumped
    link, it is replaced by [parent/link]: the missing position wraps
    around to the start of the string. *)
Theorem X17_projector_reference_follows_the_link (v : string)
    (a : list (string * string)) (c : list TiXmlNode) (p : TiXmlNode)
    (linkName newLinkName : string) :
  filter (fun n => Value n = "projector") c = [p] ->
  is_element p = true ->
  string_find "/"%char linkName = None ->
  (forall rest,
      GetKeyValueAsString p = linkName +:+ "/" +:+ rest ->
      exists c',
        ReduceSDFExtensionProjectorFrameReplace (TiXmlElement v a c)
          linkName newLinkName
        = Ok (TiXmlElement v a c', []) /\
        replaces_child "projector" (newLinkName +:+ "/" +:+ rest) c c') /\
  (forall other rest,
      GetKeyValueAsString p = other +:+ "/" +:+ rest ->
      string_find "/"%char other = None -> other <> linkName ->
      ReduceSDFExtensionProjectorFrameReplace (TiXmlElement v a c)
        linkName newLinkName
      = Ok (TiXmlElement v a c, [])) /\
  (string_find "/"%char (GetKeyValueAsString p) = None ->
   exists msg c',
     ReduceSDFExtensionProjectorFrameReplace (TiXmlElement v a c)
       linkName newLinkName
     = Ok (TiXmlElement v a c', [sdferr msg]) /\
     if String.eqb (GetKeyValueAsString p) linkName
     then replaces_child "projector" (newLinkName +:+ "/" +:+ linkName) c c'
     else c' = c).
Proof.
  intros Hp He Hlink.
  assert (Hrepl : forall value,
             replaces_child "projector" value c
               (remove_first_child "projector" c
                ++ [TiXmlElement "projector" [] [TiXmlText value]])).
  { intros value. exists (TiXmlElement "projector" [] [TiXmlText value]).
    split; [|split; [done|]].
    - rewrite filter_app, filter_remove_first_child, Hp. simpl.
      by rewrite filter_cons_True.
    - rewrite filter_app.
      rewrite filter_other_remove_first_child by done.
      rewrite filter_cons_False by (intros Hn; by apply Hn).
      by rewrite filter_nil, app_nil_r. }
  unfold ReduceSDFExtensionProjectorFrameReplace. simpl node_children.
  rewrite FirstChild_head, Hp. cbn [head]. unfold ToElement. rewrite He.
  cbv zeta. split; [|split].
  - intros rest Hv. rewrite Hv, (string_find_app _ _ Hlink).
    rewrite substring_prefix, String.eqb_refl.
    rewrite substring_suffix.
    + eexists. split; [reflexivity|]. apply Hrepl.
    + rewrite !length_app_string. lia.
  - intros other rest Hv Hother Hne. rewrite Hv, (string_find_app _ _ Hother).
    rewrite substring_prefix.
    by destruct (String.eqb_spec other linkName).
  - intros Hnone. rewrite Hnone.
    destruct (String.eqb (GetKeyValueAsString p) linkName) eqn:Eq.
    + apply String.eqb_eq in Eq. rewrite Eq.
      eexists _, _. split; [reflexivity|]. apply Hrepl.
    + eexists _, _. split; [reflexivity|]. reflexivity.
Qed.

Lemma X17_projector_reference_follows_the_link_witness :
  (exists c',
      ReduceSDFExtensionProjectorFrameReplace
        (TiXmlElement "plugin" []
           [TiXmlElement "projector" [] [TiXmlText "wheel/lamp"]])
        "wheel" "chassis"
      = Ok (TiXmlElement "plugin" [] c', []) /\
      GetKeyValueAsString <$> FirstChild c' "projector"
      = Some "chassis/lamp") /\
  (exists msg c',
      ReduceSDFExtensionProjectorFrameReplace
        (TiXmlElement "plugin" []
           [TiXmlElement "projector" [] [TiXmlText "wheel"]])
        "wheel" "chassis"
      = Ok (TiXmlElement "plugin" [] c', [sdferr msg]) /\
      GetKeyValueAsString <$> FirstChild c' "projector"
      = Some "chassis/wheel").
Proof.
  split.
  - destruct (X17_projector_reference_follows_the_link "plugin" []
                [TiXmlElement "projector" [] [TiXmlText "wheel/lamp"]]
                _ "wheel" "chassis" eq_refl eq_refl eq_refl) as [H _].
    destruct (H "lamp" eq_refl) as (c' & Hrun & p' & Hp' & Hv & _).
    exists c'. split; [exact Hrun|].
    rewrite FirstChild_head, Hp'. simpl. by rewrite Hv.
  - destruct (X17_projector_reference_follows_the_link "plugin" []
                [TiXmlElement "projector" [] [TiXmlText "wheel"]]
                _ "wheel" "chassis" eq_refl eq_refl eq_refl) as (_ & _ & H).
    destruct (H eq_refl) as (msg & c' & Hrun & p' & Hp' & Hv & _).
    exists msg, c'. split; [exact Hrun|].
    rewrite FirstChild_head, Hp'. simpl. by rewrite Hv.
Defined.

Lemma replace_first_child_spec key (n' : TiXmlNode) c n :
  filter (fun x => Value x = key) c = [n] -> Value n' = key ->
  filter (fun x => Value x = key) (replace_first_child key n' c) = [n'] /\
  forall (P : TiXmlNode -> Prop) (Hdec : forall x, Decision (P x)),
    (forall x, P x -> Value x <> key) ->
    filter P (replace_first_child key n' c) = filter P c.
Proof.
  intros Hc Hn'. induction c as [|x c IH]; [done|]. simpl.
  destruct (String.eqb_spec (Value x) key) as [He|Hne].
  - rewrite filter_cons_True in Hc by done. injection Hc as -> Hc.
    split.
    + rewrite filter_cons_True by done. by rewrite Hc.
    + intros P Hdec HP.
      rewrite !filter_cons_False; [done| |]; intros Hx; by apply (HP _ Hx).
  - rewrite filter_cons_False in Hc by done. destruct (IH Hc) as [IH1 IH2].
    split.
    + by rewrite filter_cons_False.
    + intros P Hdec HP. rewrite !filter_cons. by rewrite IH2.
Qed.

Lemma replace_first_child_same key c n :
  filter (fun x => Value x = key) c = [n] ->
  replace_first_child key n c = c.
Proof.
  induction c as [|x c IH]; [done|]. simpl.
  destruct (String.eqb_spec (Value x) key) as [He|Hne].
  - rewrite filter_cons_True by done. by intros [= ->].
  - rewrite filter_cons_False by done. intros Hc. by rewrite IH.
Qed.

Lemma collision_name_is_new (a l : string) :
  String.eqb (a +:+ "_collision_" +:+ l) (a +:+ "_collision") = false.
Proof.
  apply String.eqb_neq. induction a as [|c a IH].
  - change ("" +:+ "_collision_" +:+ l) with ("_collision_" +:+ l).
    change ("" +:+ "_collision") with "_collision". discriminate.
  - change (String c a +:+ "_collision_" +:+ l)
      with (String c (a +:+ "_collision_" +:+ l)).
    change (String c a +:+ "_collision") with (String c (a +:+ "_collision")).
    intros [= H]. by apply IH.
Qed.

(** X18. [ReduceSDFExtensionContactSensorFrameReplace] on a [<sensor>]
    blob with one [<contact>] that has one [<collision>] element.  The
    contact stays where it is among the children of the sensor, which are
    otherwise untouched; its collision is renamed from [link_collision] to
    [parent_collision_link], and any other collision name is kept.  A
    renamed collision is not renamed again when the parent is lumped in
    its turn: the name then still carries the first parent. *)
Theorem X18_contact_sensor_collision_is_renamed_once
    (a : list (string * string)) (c : list TiXmlNode) (contact e : TiXmlNode)
    (linkName newLinkName : string) :
  filter (fun n => Value n = "contact") c = [contact] ->
  filter (fun n => Value n = "collision") (node_children contact) = [e] ->
  is_element e = true ->
  exists c' contact' e',
    ReduceSDFExtensionContactSensorFrameReplace (TiXmlElement "sensor" a c)
      linkName newLinkName
    = Ok (TiXmlElement "sensor" a c') /\
    length c' = length c /\
    filter (fun n => Value n = "contact") c' = [contact'] /\
    filter (fun n => Value n = "collision") (node_children contact') = [e'] /\
    GetKeyValueAsString e'
    = (if String.eqb (GetKeyValueAsString e) (linkName +:+ "_collision")
       then newLinkName +:+ "_collision_" +:+ linkName
       else GetKeyValueAsString e) /\
    filter (fun n => Value n <> "contact") c'
    = filter (fun n => Value n <> "contact") c /\
    (GetKeyValueAsString e = linkName +:+ "_collision" ->
     forall grandParentName,
       ReduceSDFExtensionContactSensorFrameReplace (TiXmlElement "sensor" a c')
         newLinkName grandParentName
       = Ok (TiXmlElement "sensor" a c')).
Proof.
  intros Hc Hcol He.
  assert (Hcontact : Value contact = "contact").
  { assert (Hin : contact ∈ filter (fun n => Value n = "contact") c)
      by (rewrite Hc; by left).
    by apply list_elem_of_filter in Hin as [? _]. }
  destruct contact as [cv ca cc|cv]; [|done]. simpl in Hcontact, Hcol.
  subst cv.
  unfold ReduceSDFExtensionContactSensorFrameReplace. simpl Value.
  simpl node_children. rewrite FirstChild_head, Hc. cbn [head].
  destruct (replace_key_spec "contact" ca cc "collision"
              (linkName +:+ "_collision")
              (newLinkName +:+ "_collision_" +:+ linkName)) as [_ Hr].
  destruct (Hr e Hcol He) as (cc' & e' & -> & Hcc' & He' & Hv & _).
  destruct (replace_first_child_spec "contact"
              (TiXmlElement "contact" ca cc') c _ Hc eq_refl) as [Hc1 Hc2].
  exists (replace_first_child "contact" (TiXmlElement "contact" ca cc') c),
         (TiXmlElement "contact" ca cc'), e'.
  simpl. split; [done|]. split; [|split; [done|split; [done|split; [done|split]]]].
  - clear. induction c as [|x c IH]; [done|]. simpl.
    destruct (String.eqb (Value x) "contact"); simpl; by rewrite ?IH.
  - by apply Hc2.
  - intros Hold grand. rewrite FirstChild_head, Hc1. cbn [head].
    destruct (replace_key_spec "contact" ca cc' "collision"
                (newLinkName +:+ "_collision")
                (grand +:+ "_collision_" +:+ newLinkName)) as [_ Hr'].
    unfold replace_key. simpl node_children.
    rewrite FirstChild_head, Hcc'. cbn [head]. unfold ToElement. rewrite He'.
    rewrite Hv, Hold, String.eqb_refl, collision_name_is_new.
    by rewrite (replace_first_child_same _ _ _ Hc1).
Qed.

Lemma X18_contact_sensor_collision_is_renamed_once_witness :
  ReduceSDFExtensionContactSensorFrameReplace
    (TiXmlElement "sensor" []
       [ TiXmlElement "update_rate" [] [TiXmlText "10"];
         TiXmlElement "contact" []
           [TiXmlElement "collision" [] [TiXmlText "wheel_collision"]] ])
    "wheel" "chassis"
  = Ok (TiXmlElement "sensor" []
          [ TiXmlElement "update_rate" [] [TiXmlText "10"];
            TiXmlElement "contact" []
              [ TiXmlElement "collision" []
                  [TiXmlText "chassis_collision_wheel"] ] ]).
Proof.
  destruct (X18_contact_sensor_collision_is_renamed_once []
              [ TiXmlElement "update_rate" [] [TiXmlText "10"];
                TiXmlElement "contact" []
                  [TiXmlElement "collision" [] [TiXmlText "wheel_collision"]] ]
              _ _ "wheel" "chassis" eq_refl eq_refl eq_refl)
    as (c' & contact' & e' & Hrun & _).
  rewrite Hrun. vm_compute in Hrun. injection Hrun as <-. reflexivity.
Defined.

(* ===================================================================== *)
(** ** More of the converter: TransformToParentFrame composes *)
(* ===================================================================== *)





Section WalkEnds.
Context {D : Type} {Dbl : Double D}.

(** X20. The [while] loop of [ReduceJointsToParent] ends when the parent
    pointers have no cycle: if every parent is less deep than its child,
    the walk up from a link takes no more steps than the link is deep, so
    that it does not go on for ever. *)
Theorem X20_ReduceJointsToParent_walk_ends (d : LinkPtr -> nat)
    (fuel : nat) (child : LinkPtr) :
  forall (np : LinkPtr) (s : State D),
    parents_are_shallower d s ->
    d np < fuel ->
    ReduceJointsToParent_walk fuel child np s <> Fail Diverges.
Proof.
  induction fuel as [|fuel IH]; intros np s Hd Hnp; [lia|].
  cbn [ReduceJointsToParent_walk].
  unfold get_link, put_link. unfold bind, gets, deref, ret, fail, modify.
  cbv beta.
  destruct (links s !! np) as [npk|] eqn:Hnpk; cbv beta iota; [|discriminate].
  destruct (parent_joint npk) as [nj|]; cbv beta iota; [|discriminate].
  destruct (parent_link npk) as [p|] eqn:Hp; cbv beta iota; [|discriminate].
  destruct (links s !! p) as [pk|] eqn:Hpk; cbv beta iota; [|discriminate].
  destruct (_ && _); cbv beta iota; [|discriminate].
  destruct (links s !! child) as [ck|] eqn:Hck; cbv beta iota; [|discriminate].
  destruct (parent_joint ck) as [pj|]; cbv beta iota; [|discriminate].
  apply IH.
  - intros l lk q Hl Hq. simpl in Hl.
    destruct (decide (l = child)) as [->|Hne].
    + rewrite list_lookup_insert_eq in Hl by (by eapply lookup_lt_Some).
      injection Hl as <-. simpl in Hq. by apply (Hd child ck q).
    + rewrite list_lookup_insert_ne in Hl by done. by apply (Hd l lk q).
  - pose proof (Hd np npk p Hnpk Hp). lia.
Qed.

End WalkEnds.

Lemma X20_ReduceJointsToParent_walk_ends_witness :
  ReduceJointsToParent_walk 4 3 3 Run.world_model <> Fail Diverges.
Proof.
  apply (X20_ReduceJointsToParent_walk_ends (fun l => l)).
  - intros l lk p Hl Hp.
    assert (Hlt : l < 4) by (apply lookup_lt_Some in Hl; exact Hl).
    destruct l as [|[|[|[|l]]]]; try lia;
      simpl in Hl; injection Hl as <-; simpl in Hp;
      first [discriminate Hp | injection Hp as <-; lia].
  - lia.
Defined.
